(** * image_u8: 8-bit grayscale pixel buffers (3rdparty/apriltag/common/image_u8.c)

    A shallow embedding of the buffer manager, the PNM encoder and decoder,
    the drawing primitives, the convolution passes, the rotation and the
    decimator, together with the properties stated for them.

    Conventions.
    - C integers are values in [Z]; every conversion the C code performs
      ([unsigned int] arithmetic, the casts to [int32_t] and [uint8_t]) is
      written with [u32], [s32] and [u8].
    - An array is a [list Z]; every access goes through [load] or [store],
      which fault when the index is outside the array instead of reading or
      writing a neighbouring object.  A [Fault (Out_of_bounds r i)] names
      the access that is undefined behaviour in C: what a compiled program
      does from there on is not described.
    - The drawing code computes pixel coordinates in floating point.  The
      embedding keeps the integer side of each loop body (guards, index
      arithmetic, loads and stores) and takes the coordinates the floating
      point side produces as inputs.
    - For [image_u8_rotate] the floating-point side is embedded as well, on
      the Standard Library's specification of IEEE 754 arithmetic: [float]
      is binary32 and [double] binary64, and every operation is rounded to
      nearest, ties to even, in the format of its operands. *)

From Stdlib Require Import ZArith Lia String Ascii DecimalString SpecFloat.
From Stdlib Require DecimalPos DecimalFacts.
From stdpp Require Import base list list_numbers.
Open Scope Z_scope.

(** ** C integer conversions *)

Module CInt.

Definition u8 (z : Z) : Z := z mod 256.
Definition u32 (z : Z) : Z := z mod 2 ^ 32.
Definition s32 (z : Z) : Z := (z + 2 ^ 31) mod 2 ^ 32 - 2 ^ 31.

Definition INT_MAX : Z := 2 ^ 31 - 1.

End CInt.
Import CInt.

(** ** Checked memory *)

Inductive region := Src | Dest | Scratch | Table.

Inductive fault :=
| Out_of_bounds (r : region) (i : Z)
| Division_by_zero
| Bad_array_size (n : Z)
| Assertion_failed.

Inductive res (A : Type) :=
| Ok (a : A)
| Fault (f : fault).
Arguments Ok {A} a.
Arguments Fault {A} f.

#[global] Instance res_ret : MRet res := λ A a, Ok a.
#[global] Instance res_bind : MBind res := λ A B k m,
  match m with
  | Ok a => k a
  | Fault f => Fault f
  end.

Definition load (r : region) (m : list Z) (i : Z) : res Z :=
  if decide (0 ≤ i) then
    match m !! Z.to_nat i with
    | Some v => Ok v
    | None => Fault (Out_of_bounds r i)
    end
  else Fault (Out_of_bounds r i).

Definition store (r : region) (m : list Z) (i : Z) (v : Z) : res (list Z) :=
  if decide (0 ≤ i < Z.of_nat (length m)) then Ok (<[Z.to_nat i := v]> m)
  else Fault (Out_of_bounds r i).

(** [for (i = start; count iterations; i += step) s = body i s] *)
Fixpoint iterate {S : Type} (count : nat) (i step : Z)
    (body : Z → S → res S) (s : S) : res S :=
  match count with
  | O => Ok s
  | Datatypes.S n => s' ← body i s; iterate n (i + step) step body s'
  end.

(** [for (i = 0; i < n; i++)] *)
Definition for_upto {S : Type} (n : Z) (body : Z → S → res S) (s : S) : res S :=
  iterate (Z.to_nat n) 0 1 body s.

(** [for (i = 0; i < n; i += step)] with [0 < step] *)
Definition for_step {S : Type} (n step : Z) (body : Z → S → res S) (s : S) : res S :=
  iterate (Z.to_nat ((n + step - 1) `div` step)) 0 step body s.

(** ** The buffer *)

Record image_u8_t := {
  width : Z;
  height : Z;
  stride : Z;
  buf : list Z
}.

(** The Buffer invariant: [stride >= width], the array has [stride * height]
    bytes, every index the code forms as an [int] is representable, and the
    fields fit their type [int32_t]. *)
Record wf_image (im : image_u8_t) : Prop := {
  wf_width : 0 ≤ width im;
  wf_height : 0 ≤ height im;
  wf_stride : width im ≤ stride im;
  wf_length : Z.of_nat (length (buf im)) = stride im * height im;
  wf_int : stride im * height im ≤ INT_MAX;
  wf_bytes : Forall (fun b => 0 ≤ b < 256) (buf im);
  wf_fields : stride im ≤ INT_MAX ∧ height im ≤ INT_MAX
}.

Definition pixel (im : image_u8_t) (x y : Z) : option Z :=
  buf im !! Z.to_nat (y * stride im + x).

(** ** Buffer manager *)

Definition DEFAULT_ALIGNMENT_U8 : Z := 96.

(** The arguments are [unsigned int]; [calloc] receives the product
    [height*stride] computed in [unsigned int]. *)
Definition image_u8_create_stride (w h st : Z) : image_u8_t :=
  {| width := s32 w; height := s32 h; stride := s32 st;
     buf := replicate (Z.to_nat (u32 (h * st))) 0 |}.

Definition aligned_stride (w alignment : Z) : Z :=
  let stride := s32 w in
  if decide (u32 stride `mod` alignment ≠ 0)
  then s32 (u32 (u32 stride + u32 (alignment - u32 stride `mod` alignment)))
  else stride.

Definition image_u8_create_alignment (w h alignment : Z) : res image_u8_t :=
  if decide (alignment = 0) then Fault Division_by_zero
  else Ok (image_u8_create_stride w h (u32 (aligned_stride w alignment))).

Definition image_u8_create (w h : Z) : res image_u8_t :=
  image_u8_create_alignment w h DEFAULT_ALIGNMENT_U8.

(** ** Drawing primitives: darken *)

Definition set_buf (im : image_u8_t) (b : list Z) : image_u8_t :=
  {| width := width im; height := height im; stride := stride im; buf := b |}.

(** [im->buf[im->stride*y+x] /= 2] *)
Definition darken_pixel (im : image_u8_t) (y x : Z) (b : list Z) : res (list Z) :=
  let i := s32 (s32 (stride im * y) + x) in
  v ← load Dest b i;
  store Dest b i (u8 (v `quot` 2)).

Definition image_u8_darken (im : image_u8_t) : res image_u8_t :=
  b ← for_upto (height im) (λ y, for_upto (width im) (darken_pixel im y)) (buf im);
  Ok (set_buf im b).

(** ** Drawing primitives: circle *)

(** What the floating-point side of [image_u8_draw_circle] decides: the first
    value and the number of iterations of each loop ([y] from [(int)(y0-r)]
    while [y <= y0+r], likewise [x]) and, per coordinate, whether the test
    [d > r] lets the pixel through.

    Each loop compares its [int] counter with a float bound, and [r] has
    been replaced by [r*r] before the loops.  A [circle_scan] describes a
    call whose two comparisons fail after finitely many steps.  When the
    bound is at or above [2^31] (a radius of 46341 or more around a centre
    in the image) no [int] exceeds it and the loop does not end: such a call
    has no [circle_scan] and is not covered by this embedding. *)
Record circle_scan := {
  circle_x : Z; circle_nx : nat;
  circle_y : Z; circle_ny : nat;
  circle_inside : Z → Z → bool
}.

Definition draw_circle_pixel (im : image_u8_t) (c : circle_scan) (v : Z)
    (y x : Z) (b : list Z) : res (list Z) :=
  if negb (circle_inside c x y) then Ok b
  else if bool_decide (0 ≤ x ∧ x < width im ∧ 0 ≤ y ∧ y < height im) then
    let idx := s32 (s32 (y * stride im) + x) in
    store Dest b idx (u8 v)
  else Ok b.

Definition image_u8_draw_circle (im : image_u8_t) (c : circle_scan) (v : Z)
    : res image_u8_t :=
  b ← iterate (circle_ny c) (circle_y c) 1
        (λ y, iterate (circle_nx c) (circle_x c) 1 (draw_circle_pixel im c v y))
        (buf im);
  Ok (set_buf im b).

(** ** Drawing primitives: line *)

(** One iteration of the walk of [image_u8_draw_line], from the point where
    [x] and [y] have been converted to [int]. *)
Definition draw_line_point (im : image_u8_t) (v lwidth : Z) (b : list Z)
    (p : Z * Z) : res (list Z) :=
  let '(x, y) := p in
  if bool_decide (x < 0 ∨ y < 0 ∨ width im ≤ x ∨ height im ≤ y) then Ok b
  else
    let idx := s32 (s32 (y * stride im) + x) in
    b ← store Dest b idx (u8 v);
    if bool_decide (1 < lwidth) then
      b ← store Dest b (s32 (idx + 1)) (u8 v);
      b ← store Dest b (s32 (idx + stride im)) (u8 v);
      store Dest b (s32 (s32 (idx + 1) + stride im)) (u8 v)
    else Ok b.

Fixpoint for_each {A S : Type} (body : S → A → res S) (l : list A) (s : S) : res S :=
  match l with
  | [] => Ok s
  | a :: l' => s' ← body s a; for_each body l' s'
  end.

(** [walk] lists the integer points [(x, y)] the parametric walk visits, in
    order.

    The walk is the loop [for (float f = 0; f <= 1; f += delta)] with
    [delta = 0.5 / dist].  A list describes a call whose loop ends.  When
    [delta] is below half a unit in the last place of the value [f] has
    reached (a line of more than about [1.7e7] pixels) the addition leaves
    [f] unchanged and the loop does not end: such a call has no walk list and
    is not covered by this embedding. *)
Definition image_u8_draw_line (im : image_u8_t) (walk : list (Z * Z)) (v lwidth : Z)
    : res image_u8_t :=
  b ← for_each (draw_line_point im v lwidth) walk (buf im);
  Ok (set_buf im b).

(** ** Drawing primitives: fill_line_max *)

(** The float field [scale] of [image_u8_lut_t] only enters the
    floating-point side. *)
Record image_u8_lut_t := {
  nvalues : Z;
  values : list Z
}.

(** Modelled from the spec: the integer clamp-to-range helper of the math
    utilities ([common/math_util.h] is not part of the sources). *)
Definition iclamp (v minv maxv : Z) : Z := Z.max minv (Z.min v maxv).

(** What the floating-point side of [image_u8_fill_line_max] hands to the
    integer side: the four bounding-box coordinates as converted to [int] at
    the calls of [iclamp], and for each pixel the value of
    [(int)(dist2 * lut->scale)]. *)
Record line_fill := {
  fill_x0 : Z; fill_x1 : Z;
  fill_y0 : Z; fill_y1 : Z;
  fill_index : Z → Z → Z
}.

Definition fill_line_max_pixel (im : image_u8_t) (lut : image_u8_lut_t)
    (g : line_fill) (iy ix : Z) (b : list Z) : res (list Z) :=
  let idx := fill_index g ix iy in
  if bool_decide (nvalues lut ≤ idx) then Ok b
  else
    lut_value ← load Table (values lut) idx;
    old_value ← load Dest b (s32 (s32 (iy * stride im) + ix));
    if bool_decide (old_value < lut_value)
    then store Dest b (s32 (s32 (iy * stride im) + ix)) lut_value
    else Ok b.

Definition image_u8_fill_line_max (im : image_u8_t) (lut : image_u8_lut_t)
    (g : line_fill) : res image_u8_t :=
  let ix0 := iclamp (fill_x0 g) 0 (s32 (width im - 1)) in
  let ix1 := iclamp (fill_x1 g) 0 (s32 (width im - 1)) in
  let iy0 := iclamp (fill_y0 g) 0 (s32 (height im - 1)) in
  let iy1 := iclamp (fill_y1 g) 0 (s32 (height im - 1)) in
  b ← iterate (Z.to_nat (iy1 - iy0 + 1)) iy0 1
        (λ iy, iterate (Z.to_nat (ix1 - ix0 + 1)) ix0 1
                 (fill_line_max_pixel im lut g iy))
        (buf im);
  Ok (set_buf im b).

(** The rectangle of pixels a fill scans, and the table entry looked up. *)
Definition fill_box (im : image_u8_t) (g : line_fill) (x y : Z) : Prop :=
  iclamp (fill_x0 g) 0 (s32 (width im - 1)) ≤ x ≤ iclamp (fill_x1 g) 0 (s32 (width im - 1)) ∧
  iclamp (fill_y0 g) 0 (s32 (height im - 1)) ≤ y ≤ iclamp (fill_y1 g) 0 (s32 (height im - 1)).

Definition lut_at (lut : image_u8_lut_t) (i : Z) : Z :=
  default 0 (values lut !! Z.to_nat i).

(** ** Convolution: the 1-D pass *)

(** [acc += k[j]*x[i+j]] for [j] in [0, ksz), in a [uint32_t] accumulator. *)
Definition convolve_acc (x k : list Z) (i j acc : Z) : res Z :=
  kj ← load Table k j;
  xv ← load Src x (i + j);
  Ok (u32 (acc + kj * xv)).

(** The indices formed here are sums of at most three of [sz], [ksz] and a
    loop counter; they are written without reduction to [int]. *)
Definition convolve (x y : list Z) (sz : Z) (k : list Z) (ksz : Z) : res (list Z) :=
  if bool_decide (Z.land ksz 1 = 1) then
    y ← for_upto (Z.min (ksz `quot` 2) sz)
          (λ i y, v ← load Src x i; store Dest y i v) y;
    y ← for_upto (sz - ksz)
          (λ i y, acc ← for_upto ksz (convolve_acc x k i) 0;
                  store Dest y (ksz `quot` 2 + i) (u8 (acc ≫ 8))) y;
    iterate (Z.to_nat (sz - (sz - ksz + ksz `quot` 2))) (sz - ksz + ksz `quot` 2) 1
      (λ i y, v ← load Src x i; store Dest y i v) y
  else Fault Assertion_failed.

(** [sum (k[j] * x[i+j]) for j in [0, n)] *)
Definition elem (l : list Z) (i : Z) : Z := default 0 (l !! Z.to_nat i).

Fixpoint weighted_sum (k x : list Z) (i : Z) (n : nat) : Z :=
  match n with
  | O => 0
  | S m => weighted_sum k x i m + elem k (Z.of_nat m) * elem x (i + Z.of_nat m)
  end.

(** ** Format codec: encoding *)

(** The environment of one call of [image_u8_write_pnm]:
    - whether [fopen] succeeds;
    - how many bytes the stream takes at its k-th output call (call 0 is the
      [fprintf] of the header, call [y+1] the [fwrite] of row [y]); this is
      the count the call reports, and a call that is offered more bytes than
      the stream takes is a short write;
    - what the file holds once [fclose] has returned, given the bytes the
      stream took.
    The stream is buffered: a byte it took reaches the file later, at the
    latest in [fclose], and can be lost on the way.  The code reads the
    result of neither [fprintf] nor [fclose], so such a loss does not show
    in the status. *)
Record io_env := {
  fopen_succeeds : bool;
  accepts : nat → nat;
  flushed : list Z → list Z
}.

(** A stream: the number of output calls made so far and the bytes it
    took. *)
Record FILE := {
  calls : nat;
  content : list Z
}.

(** [fwrite(data, 1, n, f)] and its return value: the stream takes the
    first [c] bytes.  Nothing is said here about the file, see [fclose]. *)
Definition fwrite (env : io_env) (f : FILE) (data : list Z) : Z * FILE :=
  let c := Nat.min (length data) (accepts env (calls f)) in
  (Z.of_nat c, {| calls := S (calls f); content := content f ++ take c data |}).

(** [fclose(f)]: the file as it is left behind. *)
Definition fclose (env : io_env) (f : FILE) : list Z := flushed env (content f).

(** A medium that loses nothing: the file holds every byte the stream
    took. *)
Definition reliable (env : io_env) : Prop := ∀ l, flushed env l = l.

(** The [n] bytes of an array from index [i] on. *)
Definition load_range (r : region) (m : list Z) (i n : Z) : res (list Z) :=
  if decide (0 ≤ i ∧ 0 ≤ n ∧ i + n ≤ Z.of_nat (length m))
  then Ok (take (Z.to_nat n) (drop (Z.to_nat i) m))
  else Fault (Out_of_bounds r (i + n)).

Definition bytes_of (s : string) : list Z :=
  (λ c, Z.of_N (N_of_ascii c)) <$> list_ascii_of_string s.

Definition LF : string := String (ascii_of_nat 10) EmptyString.

(** [printf("%d", z)] *)
Definition decimal (z : Z) : string :=
  NilZero.string_of_int (Z.to_int z).

(** ["P5\n%d %d\n255\n"] *)
Definition pnm_header (w h : Z) : list Z :=
  bytes_of ("P5" ++ LF ++ decimal w ++ " " ++ decimal h ++ LF ++ "255" ++ LF)%string.

(** The loop over the rows, left through [goto finish] at the first short
    write. *)
Fixpoint write_rows (env : io_env) (im : image_u8_t) (n : nat) (y : Z) (f : FILE)
    : res (Z * FILE) :=
  match n with
  | O => Ok (0, f)
  | S n' =>
      row ← load_range Src (buf im) (s32 (y * stride im)) (width im);
      let '(c, f') := fwrite env f row in
      if bool_decide (width im ≠ c) then Ok (-2, f')
      else write_rows env im n' (y + 1) f'
  end.

(** The result is the status and, when [fopen] succeeded, the stream as it
    was when it was closed together with the file [fclose] left. *)
Definition image_u8_write_pnm (env : io_env) (im : image_u8_t)
    : res (Z * option (FILE * list Z)) :=
  if fopen_succeeds env then
    let '(_, f) := fwrite env {| calls := 0; content := [] |}
                     (pnm_header (width im) (height im)) in
    '(status, f) ← write_rows env im (Z.to_nat (height im)) 0 f;
    Ok (status, Some (f, fclose env f))
  else Ok (-1, None).

(** The pixel rows of a Buffer, without the padding. *)
Definition image_row (im : image_u8_t) (y : Z) : list Z :=
  take (Z.to_nat (width im)) (drop (Z.to_nat (y * stride im)) (buf im)).

Fixpoint rows_from (im : image_u8_t) (n : nat) (y : Z) : list (list Z) :=
  match n with
  | O => []
  | S n' => image_row im y :: rows_from im n' (y + 1)
  end.

Definition image_rows (im : image_u8_t) : list (list Z) :=
  rows_from im (Z.to_nat (height im)) 0.

(** The header, specification side: the value of a run of ASCII digits,
    most significant first, and the numeral [printf("%d")] prints for
    [z >= 0]: at least one digit, no leading zero, of value [z]. *)
Definition digits_value (ds : list Z) : Z :=
  foldl (λ acc d, 10 * acc + (d - 48)) 0 ds.

Definition decimal_numeral (ds : list Z) (z : Z) : Prop :=
  ds ≠ [] ∧ Forall (λ d, 48 ≤ d ≤ 57) ds ∧ (head ds = Some 48 → ds = [48]) ∧
  digits_value ds = z.

(** ** Decimator: integer factors *)

(** Modelled from the spec: the square helper of the math utilities
    ([common/math_util.h] is not part of the sources). *)
Definition sq (v : Z) : Z := v * v.

(** [im->buf[idx + o1] + im->buf[idx + o2] + ...] *)
Fixpoint sum_loads (im : image_u8_t) (idx : Z) (offsets : list Z) : res Z :=
  match offsets with
  | [] => Ok 0
  | o :: rest =>
      a ← load Src (buf im) (s32 (idx + o));
      s ← sum_loads im idx rest;
      Ok (a + s)
  end.

(** The source offsets summed for one destination pixel, as written in the
    three unrolled paths. *)
Definition offsets2 (st : Z) : list Z := [0; 1; st; st + 1].
Definition offsets3 (st : Z) : list Z :=
  [0; 1; 2; st; st + 1; st + 2; 2 * st; 2 * st + 1].
Definition offsets4 (st : Z) : list Z :=
  [0; 1; 2; 3; st; st + 1; st + 1; st + 2; 2 * st; 2 * st + 1; 2 * st + 2; 2 * st + 3].

(** One pass of the inner loop of an unrolled path: the state is
    [(idx, sidx, decim->buf)]. *)
Definition decimate_pixel (im : image_u8_t) (offsets : list Z) (shift factor : Z)
    (s : Z * Z * list Z) : res (Z * Z * list Z) :=
  let '(idx, sidx, d) := s in
  v ← sum_loads im idx offsets;
  d ← store Dest d sidx (u8 (u32 v ≫ shift));
  Ok (s32 (idx + factor), s32 (sidx + 1), d).

Definition decimate_unrolled (im decim : image_u8_t) (swidth sheight : Z)
    (offsets : list Z) (shift factor : Z) : res (list Z) :=
  for_upto sheight
    (λ sy d,
       let sidx := s32 (sy * stride decim) in
       let idx := s32 (s32 (sy * factor) * stride im) in
       s ← for_upto swidth (λ _, decimate_pixel im offsets shift factor) (idx, sidx, d);
       Ok (snd s))
    (buf decim).

(** The generic path: [row] is the scratch accumulator [uint32_t row[swidth]],
    cleared for each band of [factor] source rows. *)
Definition decimate_accumulate (im : image_u8_t) (factor y dy x : Z) (row : list Z)
    : res (list Z) :=
  r ← load Scratch row (x `quot` factor);
  p ← load Src (buf im) (s32 (s32 (s32 (y + dy) * stride im) + x));
  store Scratch row (x `quot` factor) (u32 (r + p)).

Definition decimate_emit (decim : image_u8_t) (factor y : Z) (row : list Z)
    (x : Z) (d : list Z) : res (list Z) :=
  r ← load Scratch row x;
  store Dest d (s32 (s32 (y `quot` factor * stride decim) + x))
    (u8 (r `quot` sq factor)).

Definition decimate_generic (im decim : image_u8_t) (swidth factor : Z) : res (list Z) :=
  if decide (factor < 0 ∨ swidth < 0) then Fault (Bad_array_size swidth)
  else
    for_step (height im) factor
      (λ y d,
         let row := replicate (Z.to_nat swidth) 0 in
         row ← for_upto factor
                 (λ dy, for_upto (width im) (decimate_accumulate im factor y dy)) row;
         for_upto swidth (decimate_emit decim factor y row) d)
      (buf decim).

(** [image_u8_decimate] for a factor other than 1.5, after the conversion
    [(int) ffactor]; the scalar paths. *)
Definition image_u8_decimate (im : image_u8_t) (factor : Z) : res image_u8_t :=
  if decide (factor = 0) then Fault Division_by_zero
  else
    let swidth := width im `quot` factor in
    let sheight := height im `quot` factor in
    decim ← image_u8_create (u32 swidth) (u32 sheight);
    d ← (if decide (factor = 2) then
           decimate_unrolled im decim swidth sheight (offsets2 (stride im)) 2 2
         else if decide (factor = 3) then
           decimate_unrolled im decim swidth sheight (offsets3 (stride im)) 3 3
         else if decide (factor = 4) then
           decimate_unrolled im decim swidth sheight (offsets4 (stride im)) 4 4
         else decimate_generic im decim swidth factor);
    Ok (set_buf decim d).

(** A Buffer whose every pixel holds [v]; the padding holds [pad]. *)
Definition uniform (w h st v pad : Z) : image_u8_t :=
  {| width := w; height := h; stride := st;
     buf := mjoin (replicate (Z.to_nat h)
                    (replicate (Z.to_nat w) v ++ replicate (Z.to_nat (st - w)) pad)) |}.

(** Every pixel of the Buffer holds [v]. *)
Definition uniform_pixels (im : image_u8_t) (v : Z) : Prop :=
  ∀ x y, 0 ≤ x < width im → 0 ≤ y < height im → pixel im x y = Some v.

(** An offset that stays inside the [factor] x [factor] block. *)
Definition block_offset (im : image_u8_t) (factor o : Z) : Prop :=
  ∃ dx dy, 0 ≤ dx < factor ∧ 0 ≤ dy < factor ∧ o = dy * stride im + dx.

(** The pixels of a Buffer, row by row. *)
Definition pixels (im : image_u8_t) : list (list Z) := image_rows im.

(** ** Raster scans (specification side)

    [visited x0 y0 nx ky kx px py]: the scan that started at [(x0, y0)] with
    rows of [nx] pixels has passed pixel [(px, py)] when it has completed
    [ky] rows and [kx] pixels of the next one.  [scanned] describes the array
    at that point: a visited pixel inside the image holds [upd] of its
    original byte, every other byte is the original one. *)

Definition in_image (w h x y : Z) : Prop := 0 ≤ x < w ∧ 0 ≤ y < h.

Definition visited (x0 y0 : Z) (nx ky kx : nat) (px py : Z) : Prop :=
  x0 ≤ px ∧ ((y0 ≤ py < y0 + Z.of_nat ky ∧ px < x0 + Z.of_nat nx) ∨
             (py = y0 + Z.of_nat ky ∧ px < x0 + Z.of_nat kx)).

#[global] Instance visited_dec x0 y0 nx ky kx px py :
  Decision (visited x0 y0 nx ky kx px py).
Proof. unfold visited. apply _. Defined.

Definition scanned (w st h : Z) (b0 : list Z) (upd : Z → Z → Z → Z)
    (x0 y0 : Z) (nx ky kx : nat) (b : list Z) : Prop :=
  length b = length b0 ∧
  ∀ px py, 0 ≤ px < st → 0 ≤ py < h →
    b !! Z.to_nat (py * st + px) =
      if decide (px < w ∧ visited x0 y0 nx ky kx px py)
      then upd px py <$> b0 !! Z.to_nat (py * st + px)
      else b0 !! Z.to_nat (py * st + px).

#[global] Instance fill_box_dec im g x y : Decision (fill_box im g x y).
Proof. unfold fill_box. apply _. Defined.

(** ** Sample inputs and observations *)

Definition sample_image : image_u8_t :=
  {| width := 2; height := 2; stride := 3; buf := [10; 21; 99; 255; 0; 77] |}.

Definition blank (w h st : Z) : image_u8_t :=
  {| width := w; height := h; stride := st; buf := replicate (Z.to_nat (st * h)) 0 |}.

Definition sample_lut : image_u8_lut_t := {| nvalues := 3; values := [200; 100; 50] |}.

Definition sample_fill : line_fill :=
  {| fill_x0 := -1; fill_x1 := 5; fill_y0 := 0; fill_y1 := 1;
     fill_index := λ x y, x + 2 * y |}.

(** A fill whose index is negative at every pixel: [dist2 * lut->scale] for
    a negative [scale], or a product that has left the range of [int] and is
    converted to [INT_MIN]. *)
Definition far_fill : line_fill :=
  {| fill_x0 := 0; fill_x1 := 1; fill_y0 := 0; fill_y1 := 1;
     fill_index := λ _ _, -2147483648 |}.

Definition always_open : io_env :=
  {| fopen_succeeds := true; accepts := λ _, 100%nat; flushed := λ l, l |}.

(** A stream that takes every byte while the medium keeps the first 13. *)
Definition lossy_medium : io_env :=
  {| fopen_succeeds := true; accepts := λ _, 100%nat; flushed := take 13 |}.

Definition outcome (r : res image_u8_t) : option (Z * Z * list (list Z)) :=
  match r with
  | Ok d => Some (width d, height d, pixels d)
  | Fault _ => None
  end.

(** ** Buffer manager: copy *)

(** [malloc] and [memcpy] take [in->height*in->stride], an [int] product, as
    a [size_t]. *)
Definition image_u8_copy (im : image_u8_t) : res image_u8_t :=
  let n := s32 (height im * stride im) in
  if decide (n < 0) then Fault (Bad_array_size n)
  else
    bytes ← load_range Src (buf im) 0 n;
    Ok (set_buf im bytes).

(** ** Drawing primitives: annulus *)

(** The loops of [image_u8_draw_annulus] have the shape of those of the
    circle, over [r1]; [circle_inside] stands for the outcome of the test
    [d < r0 || d > r1] (true when the pixel is not skipped) and [ordered] for
    that of [assert(r0 < r1)].  There is no bounds test. *)
Definition draw_annulus_pixel (im : image_u8_t) (c : circle_scan) (v : Z)
    (y x : Z) (b : list Z) : res (list Z) :=
  if negb (circle_inside c x y) then Ok b
  else
    let idx := s32 (s32 (y * stride im) + x) in
    store Dest b idx (u8 v).

Definition image_u8_draw_annulus (im : image_u8_t) (ordered : bool)
    (c : circle_scan) (v : Z) : res image_u8_t :=
  if ordered then
    b ← iterate (circle_ny c) (circle_y c) 1
          (λ y, iterate (circle_nx c) (circle_x c) 1 (draw_annulus_pixel im c v y))
          (buf im);
    Ok (set_buf im b)
  else Fault Assertion_failed.

Definition sample_ring : circle_scan :=
  {| circle_x := 0; circle_nx := 2; circle_y := 0; circle_ny := 2;
     circle_inside := λ x y, bool_decide (x = y) |}.

Definition stray_ring : circle_scan :=
  {| circle_x := 0; circle_nx := 2; circle_y := 1; circle_ny := 2;
     circle_inside := λ x y, bool_decide (x = 1) |}.

(** ** Decimator (specification side) *)

(** The byte of pixel [(x, y)]; 0 outside the array. *)
Definition pixel_at (im : image_u8_t) (x y : Z) : Z :=
  elem (buf im) (y * stride im + x).




(** [f 0 + f 1 + ... + f (n - 1)] *)
Fixpoint sum_upto (n : nat) (f : Z → Z) : Z :=
  match n with
  | O => 0
  | S m => sum_upto m f + f (Z.of_nat m)
  end.

Definition sum_below (n : Z) (f : Z → Z) : Z := sum_upto (Z.to_nat n) f.



(** ** Geometric transform: rotation *)

(** What the floating-point side of [image_u8_rotate] decides: the output
    dimensions [owidth] and [oheight] and, for each output pixel [(ox, oy)],
    the projected input coordinates [(ix, iy)]. *)
Record rotation := {
  rot_width : Z;
  rot_height : Z;
  rot_source : Z → Z → Z * Z
}.

(** [pad] is a [uint8_t] parameter. *)
Definition rotate_pixel (im out : image_u8_t) (r : rotation) (pad : Z)
    (oy ox : Z) (b : list Z) : res (list Z) :=
  let '(ix, iy) := rot_source r ox oy in
  let o := s32 (s32 (oy * stride out) + ox) in
  if bool_decide (0 ≤ ix ∧ 0 ≤ iy ∧ ix < width im ∧ iy < height im) then
    v ← load Src (buf im) (s32 (s32 (iy * stride im) + ix));
    store Dest b o v
  else store Dest b o (u8 pad).

Definition image_u8_rotate (im : image_u8_t) (r : rotation) (pad : Z)
    : res image_u8_t :=
  out ← image_u8_create (u32 (rot_width r)) (u32 (rot_height r));
  b ← for_upto (rot_height r)
        (λ oy, for_upto (rot_width r) (rotate_pixel im out r pad oy))
        (buf out);
  Ok (set_buf out b).


(** ** Geometric transform: the floating-point side of the rotation *)

(** The operations of [float], IEEE 754 binary32. *)
Module B32.
Definition prec : Z := 24.
Definition emax : Z := 128.
Definition add := SFadd prec emax.
Definition sub := SFsub prec emax.
Definition mul := SFmul prec emax.
Definition of_int (n : Z) : spec_float := binary_normalize prec emax n 0 false.
Definition of_double (x : spec_float) : spec_float :=
  match x with
  | S754_finite s m e => binary_normalize prec emax (cond_Zopp s (Z.pos m)) e s
  | _ => x
  end.
End B32.

(** The operations of [double], IEEE 754 binary64. *)
Module B64.
Definition prec : Z := 53.
Definition emax : Z := 1024.
Definition add := SFadd prec emax.
Definition sub := SFsub prec emax.
Definition div := SFdiv prec emax.
Definition of_int (n : Z) : spec_float := binary_normalize prec emax n 0 false.
End B64.

(** [floor] and [ceil], as the integer they return (they return it as a
    floating value, which holds it exactly): a finite float is
    [(-1)^s * m * 2^e]. *)
Definition SFfloor (x : spec_float) : option Z :=
  match x with
  | S754_zero _ => Some 0
  | S754_finite s m e =>
      Some (if decide (0 ≤ e) then cond_Zopp s (Z.pos m) * 2 ^ e
            else cond_Zopp s (Z.pos m) `div` 2 ^ (- e))
  | _ => None
  end.

Definition SFceil (x : spec_float) : option Z := Z.opp <$> SFfloor (SFopp x).

(** The conversion to [int] of the result of [floor] or [ceil].  For an
    infinity, a NaN or an integer outside the range of [int] the conversion
    is undefined in C; the value taken here is the one the conversion
    instructions of x86-64 return, [INT_MIN]. *)
Definition to_int (v : option Z) : Z :=
  match v with
  | Some n => if decide (- 2 ^ 31 ≤ n < 2 ^ 31) then n else - 2 ^ 31
  | None => - 2 ^ 31
  end.

(** [(std::min)(a, b)] is [b < a ? b : a], [(std::max)(a, b)] is
    [a < b ? b : a]. *)
Definition fmin (a b : spec_float) : spec_float := if SFltb b a then b else a.
Definition fmax (a b : spec_float) : spec_float := if SFltb a b then b else a.

Record bounds := {
  xmin : spec_float; xmax : spec_float;
  ymin : spec_float; ymax : spec_float
}.

(** One pass of the loop over the four corners; [c] and [s] are the values
    of [cos(rad)] and [sin(rad)] as stored in the [float] variables. *)
Definition rotate_corner (c s icx icy : spec_float) (b : bounds)
    (p : spec_float * spec_float) : bounds :=
  let px := B32.sub (fst p) icx in
  let py := B32.sub (snd p) icy in
  let nx := B32.sub (B32.mul px c) (B32.mul py s) in
  let ny := B32.add (B32.mul px s) (B32.mul py c) in
  {| xmin := fmin (xmin b) nx; xmax := fmax (xmax b) nx;
     ymin := fmin (ymin b) ny; ymax := fmax (ymax b) ny |}.

(** [float icx = iwidth / 2.0]: a [double] quotient stored in a [float]. *)
Definition rotate_centre (i : Z) : spec_float :=
  B32.of_double (B64.div (B64.of_int i) (B64.of_int 2)).

(** The bounding box of the rotated corners.  [xmin] starts from the
    integer [0x7f800000] converted to [float] (the bit pattern of infinity,
    written as a number), [xmax] from its negation. *)
Definition rotate_bounds (c s : spec_float) (iwidth iheight : Z) : bounds :=
  let z := B32.of_int 0 in
  let w := B32.of_int iwidth in
  let h := B32.of_int iheight in
  foldl (rotate_corner c s (rotate_centre iwidth) (rotate_centre iheight))
    {| xmin := B32.of_int 2139095040; xmax := B32.of_int (-2139095040);
       ymin := B32.of_int 2139095040; ymax := B32.of_int (-2139095040) |}
    [(z, z); (w, z); (w, h); (z, h)].

(** [int owidth = ceil(xmax-xmin), oheight = ceil(ymax - ymin)] *)
Definition rotate_dims (c s : spec_float) (iwidth iheight : Z) : Z * Z :=
  let b := rotate_bounds c s iwidth iheight in
  (to_int (SFceil (B32.sub (xmax b) (xmin b))),
   to_int (SFceil (B32.sub (ymax b) (ymin b)))).

(** [float sx = ox - owidth / 2.0 + .5]: computed in [double], stored in a
    [float]. *)
Definition sample_centre (o osize : Z) : spec_float :=
  B32.of_double
    (B64.add (B64.sub (B64.of_int o) (B64.div (B64.of_int osize) (B64.of_int 2)))
       (S754_finite false 4503599627370496 (-53))).

(** [ix = floor(sx*c + sy*s + icx)] and [iy = floor(-sx*s + sy*c + icy)] *)
Definition rotate_source (c s : spec_float) (iwidth iheight owidth oheight ox oy : Z)
    : Z * Z :=
  let sx := sample_centre ox owidth in
  let sy := sample_centre oy oheight in
  (to_int (SFfloor (B32.add (B32.add (B32.mul sx c) (B32.mul sy s))
                      (rotate_centre iwidth))),
   to_int (SFfloor (B32.add (B32.add (B32.mul (SFopp sx) s) (B32.mul sy c))
                      (rotate_centre iheight)))).

(** What the floating-point side hands to the integer side. *)
Definition rotate_projection (c s : spec_float) (iwidth iheight : Z) : rotation :=
  let '(owidth, oheight) := rotate_dims c s iwidth iheight in
  {| rot_width := owidth; rot_height := oheight;
     rot_source := rotate_source c s iwidth iheight owidth oheight |}.

(** [image_u8_rotate(in, rad, pad)], given the values [c] of [cos(-rad)] and
    [s] of [sin(-rad)] as they are stored in the [float] variables ([cos]
    and [sin] are functions of the mathematical library). *)
Definition image_u8_rotate_angle (im : image_u8_t) (c s : spec_float) (pad : Z)
    : res image_u8_t :=
  image_u8_rotate im (rotate_projection c s (width im) (height im)) pad.

(** For [rad = 0] the negated angle is [-0.0]; [cos] returns exactly 1 at a
    zero of either sign and [sin] returns the zero it is given, so [c] is
    [1.0f] and [s] is [-0.0f] (and [+0.0f] for [rad = -0.0]). *)
Definition f32_one : spec_float := S754_finite false 8388608 (-23).

(** *** Floats that hold half-integers (specification side)

    [half prec emax k] is the float of precision [prec] whose value is
    [k / 2]; [shift_left m j] is [m * 2^j]. *)
Definition shift_left (m : positive) (j : Z) : positive :=
  match j with
  | Zpos p => Pos.iter xO m p
  | _ => m
  end.

Definition exact_record (m : Z) : shr_record :=
  {| shr_m := m; shr_r := false; shr_s := false |}.

Definition half_shift (prec k : Z) : Z :=
  prec - Z.pos (digits2_pos (Z.to_pos (Z.abs k))).

Definition half (prec emax k : Z) : spec_float :=
  binary_normalize prec emax k (-1) false.

Definition float_one (prec : Z) : spec_float :=
  S754_finite false (shift_left 1 (prec - 1)) (1 - prec).

Definition float_two (prec : Z) : spec_float :=
  S754_finite false (shift_left 1 (prec - 1)) (2 - prec).

Abbreviation h32 := (half 24 128).
Abbreviation h64 := (half 53 1024).

(** ** Format codec: decoding *)

(** Modelled from the spec: the decoded file as the reader of the portable
    formats hands it over ([common/pnm.h] is not part of the sources): the
    format, the dimensions, the maximum sample value and the raw samples. *)
Inductive pnm_format :=
| PNM_FORMAT_BINARY
| PNM_FORMAT_GRAY
| PNM_FORMAT_RGB
| PNM_FORMAT_OTHER.

Record pnm_t := {
  pnm_format_of : pnm_format;
  pnm_width : Z;
  pnm_height : Z;
  pnm_max : Z;
  pnm_buf : list Z
}.

(** Writing the bytes [vs] to an array from index [i] on. *)
Definition store_range (r : region) (m : list Z) (i : Z) (vs : list Z) : res (list Z) :=
  if decide (0 ≤ i ∧ i + Z.of_nat (length vs) ≤ Z.of_nat (length m))
  then Ok (take (Z.to_nat i) m ++ vs ++ drop (Z.to_nat i + length vs) m)
  else Fault (Out_of_bounds r (i + Z.of_nat (length vs))).

(** [im->buf[y*im->stride + x] = v] *)
Definition store_pixel (im : image_u8_t) (y x v : Z) (b : list Z) : res (list Z) :=
  store Dest b (s32 (s32 (y * stride im) + x)) (u8 v).

(** [memcpy(&im->buf[y*im->stride], &pnm->buf[y*im->width], im->width)] *)
Definition decode_gray8_row (p : pnm_t) (im : image_u8_t) (y : Z) (b : list Z)
    : res (list Z) :=
  row ← load_range Src (pnm_buf p) (s32 (y * width im)) (width im);
  store_range Dest b (s32 (y * stride im)) row.

Definition decode_gray16_pixel (p : pnm_t) (im : image_u8_t) (y x : Z) (b : list Z)
    : res (list Z) :=
  v ← load Src (pnm_buf p) (s32 (2 * s32 (s32 (y * width im) + x)));
  store_pixel im y x v b.

Definition decode_rgb8_pixel (p : pnm_t) (im : image_u8_t) (y x : Z) (b : list Z)
    : res (list Z) :=
  let base := s32 (s32 (s32 (y * width im) * 3) + s32 (3 * x)) in
  r ← load Src (pnm_buf p) (s32 (base + 0));
  g ← load Src (pnm_buf p) (s32 (base + 1));
  g' ← load Src (pnm_buf p) (s32 (base + 1));
  bl ← load Src (pnm_buf p) (s32 (base + 2));
  store_pixel im y x ((r + g + g' + bl) `quot` 4) b.

Definition decode_rgb16_pixel (p : pnm_t) (im : image_u8_t) (y x : Z) (b : list Z)
    : res (list Z) :=
  let base := s32 (6 * s32 (s32 (y * width im) + x)) in
  r ← load Src (pnm_buf p) (s32 (base + 0));
  g ← load Src (pnm_buf p) (s32 (base + 2));
  bl ← load Src (pnm_buf p) (s32 (base + 4));
  store_pixel im y x ((r + g + g + bl) `quot` 4) b.

Definition decode_binary_pixel (p : pnm_t) (im : image_u8_t) (pbmstride : Z)
    (y x : Z) (b : list Z) : res (list Z) :=
  let byteidx := s32 (s32 (y * pbmstride) + x `quot` 8) in
  let bitidx := s32 (7 - Z.land x 7) in
  byte ← load Src (pnm_buf p) byteidx;
  if bool_decide (Z.land (byte ≫ bitidx) 1 ≠ 0) then store_pixel im y x 0 b
  else store_pixel im y x 255 b.

(** [file] is what [pnm_create_from_file] returned: [None] for [NULL].  The
    result is [None] when the function returns [NULL]. *)
Definition image_u8_create_from_pnm_alignment (file : option pnm_t) (alignment : Z)
    : res (option image_u8_t) :=
  match file with
  | None => Ok None
  | Some p =>
      match pnm_format_of p with
      | PNM_FORMAT_GRAY =>
          im ← image_u8_create_alignment (u32 (pnm_width p)) (u32 (pnm_height p))
                 (u32 alignment);
          if decide (pnm_max p = 255) then
            b ← for_upto (height im) (decode_gray8_row p im) (buf im);
            Ok (Some (set_buf im b))
          else if decide (pnm_max p = 65535) then
            b ← for_upto (height im)
                  (λ y, for_upto (width im) (decode_gray16_pixel p im y)) (buf im);
            Ok (Some (set_buf im b))
          else Fault Assertion_failed
      | PNM_FORMAT_RGB =>
          im ← image_u8_create_alignment (u32 (pnm_width p)) (u32 (pnm_height p))
                 (u32 alignment);
          if decide (pnm_max p = 255) then
            b ← for_upto (height im)
                  (λ y, for_upto (width im) (decode_rgb8_pixel p im y)) (buf im);
            Ok (Some (set_buf im b))
          else if decide (pnm_max p = 65535) then
            b ← for_upto (height im)
                  (λ y, for_upto (width im) (decode_rgb16_pixel p im y)) (buf im);
            Ok (Some (set_buf im b))
          else Fault Assertion_failed
      | PNM_FORMAT_BINARY =>
          im ← image_u8_create_alignment (u32 (pnm_width p)) (u32 (pnm_height p))
                 (u32 alignment);
          let pbmstride := s32 (s32 (width im + 7) `quot` 8) in
          b ← for_upto (height im)
                (λ y, for_upto (width im) (decode_binary_pixel p im pbmstride y))
                (buf im);
          Ok (Some (set_buf im b))
      | PNM_FORMAT_OTHER => Ok None
      end
  end.

Definition image_u8_create_from_pnm (file : option pnm_t) : res (option image_u8_t) :=
  image_u8_create_from_pnm_alignment file DEFAULT_ALIGNMENT_U8.















(** ** Decimator: factor 1.5 *)





(** ** Convolution (specification side) *)

(** What one pass leaves at position [p] of a line [x] of [sz] bytes: the
    filtered value in the interior, the source byte near both ends. *)
Definition convolved (k x : list Z) (sz ksz p : Z) : Z :=
  if decide (ksz `quot` 2 ≤ p < sz - ksz + ksz `quot` 2)
  then u8 (u32 (weighted_sum k x (p - ksz `quot` 2) (Z.to_nat ksz)) ≫ 8)
  else elem x p.

(** ** Convolution: the two passes over a Buffer *)

(** [convolve(x, &buf[off], sz, k, ksz)]: the destination is the array from
    index [off] on. *)
Definition convolve_into (x b : list Z) (off sz : Z) (k : list Z) (ksz : Z)
    : res (list Z) :=
  if decide (0 ≤ off ≤ Z.of_nat (length b)) then
    tail ← convolve x (drop (Z.to_nat off) b) sz k ksz;
    Ok (take (Z.to_nat off) b ++ tail)
  else Fault (Out_of_bounds Dest off).

(** One pass of the first loop: row [y] is copied, [stride] bytes, to the
    scratch line [x] and filtered back in place. *)
Definition convolve_row (im : image_u8_t) (k : list Z) (ksz : Z) (y : Z) (b : list Z)
    : res (list Z) :=
  let off := s32 (y * stride im) in
  x ← load_range Dest b off (stride im);
  convolve_into x b off (width im) k ksz.

(** One pass of the second loop: column [x] is gathered into [xb], filtered
    into [yb] and scattered back.  The scratch lines start out as zeros. *)
Definition convolve_column (im : image_u8_t) (k : list Z) (ksz : Z) (x : Z) (b : list Z)
    : res (list Z) :=
  if decide (height im < 0) then Fault (Bad_array_size (height im))
  else
    xb ← for_upto (height im)
           (λ y xb, v ← load Dest b (s32 (s32 (y * stride im) + x));
                    store Scratch xb y v)
           (replicate (Z.to_nat (height im)) 0);
    yb ← convolve xb (replicate (Z.to_nat (height im)) 0) (height im) k ksz;
    for_upto (height im)
      (λ y b, v ← load Scratch yb y;
              store Dest b (s32 (s32 (y * stride im) + x)) v)
      b.

Definition image_u8_convolve_2D (im : image_u8_t) (k : list Z) (ksz : Z)
    : res image_u8_t :=
  if bool_decide (Z.land ksz 1 = 1) then
    b ← for_upto (height im) (convolve_row im k ksz) (buf im);
    b ← for_upto (width im) (convolve_column im k ksz) b;
    Ok (set_buf im b)
  else Fault Assertion_failed.

(** Pixel [(x, y)] after the first loop: row [y] of the source, filtered. *)
Definition row_pass (im : image_u8_t) (k : list Z) (ksz : Z) (x y : Z) : Z :=
  convolved k (drop (Z.to_nat (y * stride im)) (buf im)) (width im) ksz x.

(** Pixel [(x, y)] after both loops: column [x] of the filtered rows,
    filtered. *)
Definition convolved_2D (im : image_u8_t) (k : list Z) (ksz : Z) (x y : Z) : Z :=
  convolved k (row_pass im k ksz x <$> seqZ 0 (height im)) (height im) ksz y.

Definition ramp : image_u8_t :=
  {| width := 4; height := 4; stride := 5;
     buf := [ 10;  20;  30; 200; 7;
              40;  50;  60;  70; 7;
              80;  90; 100; 110; 7;
             120; 130; 140; 150; 7 ] |}.

(** A stream that takes one byte of the second row and everything else. *)
Definition short_at_row_1 : io_env :=
  {| fopen_succeeds := true;
     accepts := λ k, if decide (k = 2%nat) then 1%nat else 100%nat;
     flushed := λ l, l |}.

Definition second_lut : image_u8_lut_t := {| nvalues := 2; values := [90; 30] |}.

Definition second_fill : line_fill :=
  {| fill_x0 := 0; fill_x1 := 1; fill_y0 := 1; fill_y1 := 3;
     fill_index := λ x y, x |}.

(** A table the integer side can use: at least [nvalues] entries, all
    bytes. *)
Definition lut_ok (lut : image_u8_lut_t) : Prop :=
  0 ≤ nvalues lut ≤ Z.of_nat (length (values lut)) ∧
  Forall (λ b, 0 ≤ b < 256) (values lut).

(** * Properties *)

(** ** Facts about the integer conversions *)

Ltac pow_consts :=
  change (2 ^ 32) with 4294967296 in *;
  change (2 ^ 31) with 2147483648 in *;
  change INT_MAX with 2147483647 in *.

Section cint_facts.

Lemma u8_small z : 0 ≤ z < 256 → u8 z = z.
Proof. intros. unfold u8. apply Z.mod_small. lia. Qed.

Lemma u32_small z : 0 ≤ z < 2 ^ 32 → u32 z = z.
Proof. intros. unfold u32. apply Z.mod_small. lia. Qed.

Lemma s32_small z : - 2 ^ 31 ≤ z < 2 ^ 31 → s32 z = z.
Proof. intros. unfold s32. rewrite Z.mod_small; lia. Qed.

End cint_facts.

(** ** Buffer manager *)

Lemma aligned_stride_exact w a :
  0 ≤ w → 0 < a → w + a ≤ 2 ^ 31 →
  aligned_stride w a = (if decide (w `mod` a = 0) then w else w + (a - w `mod` a)).
Proof.
  intros Hw Ha Hsum. unfold aligned_stride.
  assert (Hr : 0 ≤ w `mod` a < a) by (apply Z.mod_pos_bound; lia).
  rewrite (s32_small w) by lia. rewrite (u32_small w) by lia.
  destruct (decide (w `mod` a ≠ 0)) as [Hne|He].
  - rewrite decide_False by done.
    rewrite (u32_small (a - _)) by lia.
    rewrite u32_small by lia. apply s32_small. lia.
  - rewrite decide_True; [done|]. destruct (decide (w `mod` a = 0)); [done|contradiction].
Qed.

Lemma aligned_stride_least w a :
  0 ≤ w → 0 < a → w + a ≤ 2 ^ 31 →
  (a | aligned_stride w a) ∧ w ≤ aligned_stride w a < w + a ∧
  ∀ m, (a | m) → w ≤ m → aligned_stride w a ≤ m.
Proof.
  intros Hw Ha Hsum. rewrite aligned_stride_exact by done.
  assert (Hr : 0 ≤ w `mod` a < a) by (apply Z.mod_pos_bound; lia).
  pose proof (Z.div_mod w a ltac:(lia)) as Hdm.
  destruct (decide (w `mod` a = 0)) as [He|Hne].
  - split; [|split; [lia|intros; lia]].
    exists (w `div` a). lia.
  - split; [|split; [lia|]].
    + exists (w `div` a + 1). lia.
    + intros m [k ->] Hle.
      assert (w `div` a < k) by nia. nia.
Qed.

(** C3 (as stated) fails once the byte count leaves [unsigned int]: for a
    65536 x 65536 request the stride is 65568 and [calloc] is handed
    [65536*65568] reduced modulo [2^32], so the array has 2097152 bytes
    and not [stride*height]. *)
Lemma C3_counterexample :
  ¬ ∃ im, image_u8_create_alignment 65536 65536 96 = Ok im ∧
          Z.of_nat (length (buf im)) = stride im * 65536.
Proof.
  intros (im & Him & Hlen).
  unfold image_u8_create_alignment in Him.
  rewrite decide_False in Him by done.
  injection Him as <-. revert Hlen.
  rewrite aligned_stride_exact by (change (2 ^ 31) with 2147483648; lia).
  unfold image_u8_create_stride. cbn [buf stride].
  rewrite length_replicate.
  change (65536 `mod` 96) with 64. rewrite decide_False by done.
  change (u32 (65536 + (96 - 64))) with 65568.
  change (s32 65568) with 65568.
  change (u32 (65536 * 65568)) with 2097152.
  lia.
Qed.

(** C3 (amended): for every width, height and positive alignment with
    [width + alignment <= 2^31], [create_with_alignment] returns a Buffer of
    the requested width whose stride is the smallest multiple of the
    alignment that is at least the width and whose content is entirely zero;
    its backing array has [stride*height] bytes whenever that product is
    below [2^32]; [create] is [create_with_alignment] at alignment 96. *)
Theorem C3_create_alignment w h a :
  0 ≤ w → 0 ≤ h → 0 < a → w + a ≤ 2 ^ 31 →
  ∃ im, image_u8_create_alignment w h a = Ok im ∧
        width im = w ∧
        (a | stride im) ∧ w ≤ stride im ∧
        (∀ m, (a | m) → w ≤ m → stride im ≤ m) ∧
        Forall (λ b, b = 0) (buf im) ∧
        (stride im * h < 2 ^ 32 → Z.of_nat (length (buf im)) = stride im * h) ∧
        image_u8_create w h = image_u8_create_alignment w h 96.
Proof.
  intros Hw Hh Ha Hsum.
  destruct (aligned_stride_least w a Hw Ha Hsum) as (Hdiv & Hrange & Hleast).
  pose proof (s32_small w) as Hsw. pose proof (s32_small (aligned_stride w a)) as Hss.
  pose proof (u32_small (aligned_stride w a)) as Hus.
  pose proof (u32_small (h * aligned_stride w a)) as Hprod.
  pow_consts.
  exists (image_u8_create_stride w h (u32 (aligned_stride w a))).
  cbn [image_u8_create_stride width stride buf].
  rewrite Hus, Hss, Hsw by lia.
  split_and!; try done; try lia.
  - unfold image_u8_create_alignment. rewrite decide_False by lia.
    by rewrite Hus by lia.
  - apply Forall_forall. intros b Hb. by apply elem_of_replicate in Hb as [-> _].
  - intros Hlt. rewrite length_replicate, Hprod by nia.
    rewrite Z2Nat.id by nia. ring.
Qed.

Lemma C3_create_alignment_witness :
  ∃ im, image_u8_create_alignment 100 3 96 = Ok im ∧
        width im = 100 ∧
        (96 | stride im) ∧ 100 ≤ stride im ∧
        (∀ m, (96 | m) → 100 ≤ m → stride im ≤ m) ∧
        Forall (λ b, b = 0) (buf im) ∧
        (stride im * 3 < 2 ^ 32 → Z.of_nat (length (buf im)) = stride im * 3) ∧
        image_u8_create 100 3 = image_u8_create_alignment 100 3 96.
Proof. apply (C3_create_alignment 100 3 96); lia. Defined.

(** ** Loops and checked accesses *)

Lemma iterate_invariant {S : Type} (P : nat → S → Prop) (body : Z → S → res S)
    (n : nat) (start step : Z) (s : S) :
  P O s →
  (∀ k s, (k < n)%nat → P k s →
     ∃ s', body (start + Z.of_nat k * step) s = Ok s' ∧ P (Datatypes.S k) s') →
  ∃ s', iterate n start step body s = Ok s' ∧ P n s'.
Proof.
  revert P start s. induction n as [|n IH]; intros P start s H0 Hstep.
  - by exists s.
  - destruct (Hstep O s ltac:(lia) H0) as (s1 & Hb & H1).
    replace (start + Z.of_nat 0 * step) with start in Hb by lia.
    destruct (IH (λ k, P (Datatypes.S k)) (start + step) s1 H1) as (s2 & Hit & H2).
    { intros k s' Hk HP. destruct (Hstep (Datatypes.S k) s' ltac:(lia) HP) as (s'' & Hb' & HP').
      exists s''. split; [|done]. rewrite <- Hb'. f_equal. lia. }
    exists s2. split; [|done]. cbn [iterate]. rewrite Hb. exact Hit.
Qed.

Lemma for_upto_invariant {S : Type} (P : Z → S → Prop) (body : Z → S → res S)
    (n : Z) (s : S) :
  0 ≤ n → P 0 s →
  (∀ i s, 0 ≤ i < n → P i s → ∃ s', body i s = Ok s' ∧ P (i + 1) s') →
  ∃ s', for_upto n body s = Ok s' ∧ P n s'.
Proof.
  intros Hn H0 Hstep. unfold for_upto.
  destruct (iterate_invariant (λ k, P (Z.of_nat k)) body (Z.to_nat n) 0 1 s H0)
    as (s' & Hit & HP).
  - intros k s' Hk HP. destruct (Hstep (Z.of_nat k) s' ltac:(lia) HP) as (s'' & Hb & HP').
    exists s''. split.
    + rewrite <- Hb. f_equal. lia.
    + by replace (Z.of_nat (Datatypes.S k)) with (Z.of_nat k + 1) by lia.
  - exists s'. split; [done|]. by rewrite Z2Nat.id in HP.
Qed.

Lemma bind_Ok {A B : Type} (m : res A) (a : A) (k : A → res B) :
  m = Ok a → (m ≫= k) = k a.
Proof. by intros ->. Qed.

Lemma load_Ok r (m : list Z) i v :
  0 ≤ i → m !! Z.to_nat i = Some v → load r m i = Ok v.
Proof. intros Hi Hv. unfold load. rewrite decide_True by done. by rewrite Hv. Qed.

Lemma store_Ok r (m : list Z) i v :
  0 ≤ i < Z.of_nat (length m) → store r m i v = Ok (<[Z.to_nat i := v]> m).
Proof. intros Hi. unfold store. by rewrite decide_True. Qed.

Lemma lookup_insert_Z (l : list Z) i j v :
  0 ≤ i < Z.of_nat (length l) → 0 ≤ j →
  <[Z.to_nat i := v]> l !! Z.to_nat j = if decide (i = j) then Some v else l !! Z.to_nat j.
Proof.
  intros Hi Hj. case_decide as E.
  - subst. apply list_lookup_insert_eq. lia.
  - apply list_lookup_insert_ne. lia.
Qed.

(** Row-major indexing: a pixel index is inside the array and distinct pixels
    have distinct indices. *)
Lemma index_in_range st h x y :
  0 ≤ x < st → 0 ≤ y < h → 0 ≤ y * st + x < st * h.
Proof. intros Hx Hy. assert (y * st ≤ (h - 1) * st) by nia. nia. Qed.

Lemma index_inj st x y x' y' :
  0 ≤ x < st → 0 ≤ x' < st → 0 ≤ y → 0 ≤ y' →
  y * st + x = y' * st + x' → x = x' ∧ y = y'.
Proof.
  intros Hx Hx' Hy Hy' E.
  assert (y = y') as ->; [|lia].
  destruct (Z.lt_trichotomy y y') as [Hlt|[?|Hgt]]; [|done|].
  - assert ((y + 1) * st ≤ y' * st) by nia. lia.
  - assert ((y' + 1) * st ≤ y * st) by nia. lia.
Qed.

(** ** Raster scans

    Several primitives run two nested loops over a rectangle of pixel
    coordinates and, at each coordinate inside the image, replace the byte
    stored there by a function of its old value.  The result of such a scan is
    described pixel by pixel. *)

Section scanned_facts.
Variables (w st h : Z) (b0 : list Z).
Hypothesis Hw : 0 ≤ w ≤ st.
Hypothesis Hlen : Z.of_nat (length b0) = st * h.
Variable upd : Z → Z → Z → Z.
Variables (x0 y0 : Z) (nx : nat).

Lemma scanned_start : scanned w st h b0 upd x0 y0 nx 0 0 b0.
Proof.
  split; [done|]. intros px py Hpx Hpy.
  rewrite decide_False; [done|]. unfold visited. lia.
Qed.

Lemma scanned_next_row ky b :
  scanned w st h b0 upd x0 y0 nx ky nx b →
  scanned w st h b0 upd x0 y0 nx (S ky) 0 b.
Proof.
  intros [Hl Hb]. split; [done|]. intros px py Hpx Hpy. rewrite Hb by done.
  apply decide_ext. unfold visited. lia.
Qed.

(** The next pixel of the scan lies in the image and receives [upd] of the
    byte it held. *)
Lemma scanned_store ky kx b x y :
  x = x0 + Z.of_nat kx → y = y0 + Z.of_nat ky → in_image w h x y →
  scanned w st h b0 upd x0 y0 nx ky kx b →
  ∃ v, b !! Z.to_nat (y * st + x) = Some v ∧
       0 ≤ y * st + x < Z.of_nat (length b) ∧
       scanned w st h b0 upd x0 y0 nx ky (S kx)
         (<[Z.to_nat (y * st + x) := upd x y v]> b).
Proof.
  intros Ex Ey [Hx Hy] [Hl Hb].
  pose proof (index_in_range st h x y ltac:(lia) Hy) as Hi.
  specialize (Hb x y ltac:(lia) Hy) as Hxy.
  rewrite decide_False in Hxy by (unfold visited; lia).
  destruct (lookup_lt_is_Some_2 b0 (Z.to_nat (y * st + x)) ltac:(lia)) as [v Hv].
  rewrite Hv in Hxy. exists v. split_and!; [done|lia|lia|].
  split; [by rewrite length_insert|].
  intros px py Hpx Hpy.
  destruct (decide (py * st + px = y * st + x)) as [E|NE].
  - apply index_inj in E as [-> ->]; try lia.
    rewrite list_lookup_insert_eq by lia.
    rewrite decide_True by (unfold visited; lia). by rewrite Hv.
  - pose proof (index_in_range st h px py Hpx Hpy).
    rewrite list_lookup_insert_ne by lia. rewrite Hb by done.
    apply decide_ext. unfold visited.
    assert (¬ (px = x ∧ py = y)) by (intros [-> ->]; done). lia.
Qed.

(** The next pixel of the scan lies outside the image and nothing is stored. *)
Lemma scanned_skip ky kx b :
  ¬ in_image w h (x0 + Z.of_nat kx) (y0 + Z.of_nat ky) →
  scanned w st h b0 upd x0 y0 nx ky kx b →
  scanned w st h b0 upd x0 y0 nx ky (S kx) b.
Proof.
  intros Hout [Hl Hb]. split; [done|]. intros px py Hpx Hpy. rewrite Hb by done.
  apply decide_ext. unfold visited.
  assert (¬ (px < w ∧ px = x0 + Z.of_nat kx ∧ py = y0 + Z.of_nat ky)).
  { intros (? & -> & ->). apply Hout. split; lia. }
  lia.
Qed.

Lemma scanned_all ny b :
  scanned w st h b0 upd x0 y0 nx ny 0 b →
  length b = length b0 ∧
  ∀ px py, 0 ≤ px < st → 0 ≤ py < h →
    b !! Z.to_nat (py * st + px) =
      if decide (px < w ∧ x0 ≤ px < x0 + Z.of_nat nx ∧ y0 ≤ py < y0 + Z.of_nat ny)
      then upd px py <$> b0 !! Z.to_nat (py * st + px)
      else b0 !! Z.to_nat (py * st + px).
Proof.
  intros [Hl Hb]. split; [done|].
  intros px py Hpx Hpy. rewrite Hb by done. apply decide_ext. unfold visited. lia.
Qed.
End scanned_facts.

Section raster_scan.
Variables (w st h : Z) (b0 : list Z).
Hypothesis Hw : 0 ≤ w ≤ st.
Hypothesis Hlen : Z.of_nat (length b0) = st * h.
Variable upd : Z → Z → Z → Z.
Variable body : Z → Z → list Z → res (list Z).
Variables (x0 y0 : Z) (nx ny : nat).

Hypothesis body_inside : ∀ b x y v,
  x0 ≤ x < x0 + Z.of_nat nx → y0 ≤ y < y0 + Z.of_nat ny → in_image w h x y →
  length b = length b0 → b !! Z.to_nat (y * st + x) = Some v →
  body y x b = Ok (<[Z.to_nat (y * st + x) := upd x y v]> b).
Hypothesis body_outside : ∀ b x y,
  x0 ≤ x < x0 + Z.of_nat nx → y0 ≤ y < y0 + Z.of_nat ny → ¬ in_image w h x y →
  body y x b = Ok b.

Lemma scan_pixel ky kx b :
  (ky < ny)%nat → (kx < nx)%nat → scanned w st h b0 upd x0 y0 nx ky kx b →
  ∃ b', body (y0 + Z.of_nat ky * 1) (x0 + Z.of_nat kx * 1) b = Ok b' ∧
        scanned w st h b0 upd x0 y0 nx ky (S kx) b'.
Proof.
  intros Hky Hkx Hsc. rewrite !Z.mul_1_r.
  destruct (decide (in_image w h (x0 + Z.of_nat kx) (y0 + Z.of_nat ky))) as [Hin|Hout].
  - destruct (scanned_store w st h b0 Hw Hlen upd x0 y0 nx ky kx b _ _
                eq_refl eq_refl Hin Hsc) as (v & Hv & Hi & Hsc').
    eexists. split; [|exact Hsc'].
    apply body_inside; try done; try lia. by destruct Hsc.
  - exists b. split; [apply body_outside; (done || lia)|].
    by apply scanned_skip.
Qed.

Lemma scan_rows :
  ∃ b, iterate ny y0 1 (λ y, iterate nx x0 1 (body y)) b0 = Ok b ∧
       scanned w st h b0 upd x0 y0 nx ny 0 b.
Proof.
  apply (iterate_invariant (λ ky, scanned w st h b0 upd x0 y0 nx ky 0));
    [by apply scanned_start|].
  intros ky b Hky Hsc.
  destruct (iterate_invariant (scanned w st h b0 upd x0 y0 nx ky)
              (body (y0 + Z.of_nat ky * 1)) nx x0 1 b Hsc) as (b' & Hit & Hb').
  { intros kx b1 Hkx Hb1. by apply scan_pixel. }
  exists b'. split; [done|]. by apply scanned_next_row.
Qed.

(** The scan as a whole: inside the scanned rectangle and the image every
    byte is mapped by [upd]; every other byte of the array is unchanged. *)
Lemma scan_result :
  ∃ b, iterate ny y0 1 (λ y, iterate nx x0 1 (body y)) b0 = Ok b ∧
       length b = length b0 ∧
       ∀ px py, 0 ≤ px < st → 0 ≤ py < h →
         b !! Z.to_nat (py * st + px) =
           if decide (px < w ∧ x0 ≤ px < x0 + Z.of_nat nx ∧ y0 ≤ py < y0 + Z.of_nat ny)
           then upd px py <$> b0 !! Z.to_nat (py * st + px)
           else b0 !! Z.to_nat (py * st + px).
Proof.
  destruct scan_rows as (b & Hit & Hsc). exists b. split; [done|].
  by apply scanned_all.
Qed.
End raster_scan.

(** ** darken *)

Lemma wf_index im x y :
  wf_image im → 0 ≤ x < stride im → 0 ≤ y < height im →
  0 ≤ y * stride im + x < Z.of_nat (length (buf im)) ∧
  s32 (s32 (stride im * y) + x) = y * stride im + x ∧
  s32 (s32 (y * stride im) + x) = y * stride im + x.
Proof.
  intros [] Hx Hy.
  pose proof (index_in_range (stride im) (height im) x y Hx Hy) as Hi.
  assert (0 ≤ y * stride im ≤ y * stride im + x) by nia.
  pose proof (s32_small (y * stride im)) as H1.
  pose proof (s32_small (y * stride im + x)) as H2.
  pow_consts. replace (stride im * y) with (y * stride im) by ring.
  rewrite H1, H2 by lia. lia.
Qed.

(** C10: [darken] succeeds on every well-formed Buffer; afterwards every
    pixel in [0,width) x [0,height) holds its old value divided by 2
    (truncating), the width, height and stride fields are the same, and every
    padding byte at a row offset in [width, stride) is unchanged. *)
Theorem C10_darken_frame im :
  wf_image im →
  ∃ im', image_u8_darken im = Ok im' ∧
         width im' = width im ∧ height im' = height im ∧
         stride im' = stride im ∧ length (buf im') = length (buf im) ∧
         ∀ x y, 0 ≤ x < stride im → 0 ≤ y < height im →
           pixel im' x y =
             if decide (x < width im) then (λ v, v `quot` 2) <$> pixel im x y
             else pixel im x y.
Proof.
  intros Hwf.
  destruct (scan_result (width im) (stride im) (height im) (buf im)
              ltac:(destruct Hwf; lia) ltac:(by destruct Hwf)
              (λ _ _ v, u8 (v `quot` 2)) (darken_pixel im)
              0 0 (Z.to_nat (width im)) (Z.to_nat (height im)))
    as (b & Hrun & Hl & Hb).
  - intros b x y v Hx Hy [Hxi Hyi] Hlen Hv.
    destruct (wf_index im x y Hwf ltac:(destruct Hwf; lia) Hyi) as (Hi & Hs & _).
    unfold darken_pixel. rewrite Hs.
    rewrite (load_Ok _ _ _ v) by (done || lia). cbn.
    apply store_Ok. rewrite Hlen. lia.
  - intros b x y Hx Hy Hout. exfalso. apply Hout.
    destruct Hwf. unfold in_image. lia.
  - exists (set_buf im b). split_and!; try done.
    { assert (for_upto (height im) (λ y, for_upto (width im) (darken_pixel im y))
                (buf im) = Ok b) as Hrun' by exact Hrun.
      unfold image_u8_darken. by rewrite Hrun'. }
    intros x y Hx Hy. unfold pixel. cbn [set_buf buf stride].
    rewrite Hb by done. destruct Hwf as [Hw0 Hh0 ? ? ? Hbytes ?].
    destruct (decide (x < width im)) as [Hlt|Hge].
    + rewrite decide_True by lia.
      destruct (buf im !! Z.to_nat (y * stride im + x)) as [v|] eqn:E; [|done].
      cbn. f_equal. apply u8_small.
      assert (0 ≤ v < 256) by (eapply (Forall_lookup_1 (λ b, 0 ≤ b < 256)); eauto).
      Z.to_euclidean_division_equations; lia.
    + by rewrite decide_False by lia.
Qed.

Ltac concrete_wf :=
  split;
  [ first [ vm_compute; reflexivity
          | vm_compute; discriminate
          | vm_compute; split; discriminate
          | cbn; repeat constructor; lia ] .. ].

Lemma sample_image_wf : wf_image sample_image.
Proof. concrete_wf. Defined.

Lemma C10_darken_frame_witness :
  ∃ im', image_u8_darken sample_image = Ok im' ∧
         width im' = 2 ∧ height im' = 2 ∧ stride im' = 3 ∧
         length (buf im') = 6%nat ∧
         ∀ x y, 0 ≤ x < 3 → 0 ≤ y < 2 →
           pixel im' x y =
             if decide (x < 2) then (λ v, v `quot` 2) <$> pixel sample_image x y
             else pixel sample_image x y.
Proof. exact (C10_darken_frame sample_image sample_image_wf). Defined.

(** ** draw_circle *)

(** X2: [draw_circle] never leaves the array.  For every scan whose loops
    end, whatever rectangle they cover and whichever coordinates pass the
    distance test, no store falls outside the array, and at the end of the
    scan the pixels set to the value are those that pass the test inside
    both the rectangle and the image; every other byte is as before. *)
Lemma draw_circle_clipped im c v :
  wf_image im →
  ∃ im', image_u8_draw_circle im c v = Ok im' ∧
         width im' = width im ∧ height im' = height im ∧
         stride im' = stride im ∧ length (buf im') = length (buf im) ∧
         ∀ x y, 0 ≤ x < stride im → 0 ≤ y < height im →
           pixel im' x y =
             if decide (x < width im ∧
                        circle_x c ≤ x < circle_x c + Z.of_nat (circle_nx c) ∧
                        circle_y c ≤ y < circle_y c + Z.of_nat (circle_ny c))
             then (λ old, if circle_inside c x y then u8 v else old) <$> pixel im x y
             else pixel im x y.
Proof.
  intros Hwf.
  destruct (scan_result (width im) (stride im) (height im) (buf im)
              ltac:(destruct Hwf; lia) ltac:(by destruct Hwf)
              (λ x y old, if circle_inside c x y then u8 v else old)
              (draw_circle_pixel im c v)
              (circle_x c) (circle_y c) (circle_nx c) (circle_ny c))
    as (b & Hrun & Hl & Hb).
  - intros b x y old Hx Hy [Hxi Hyi] Hlen Hold.
    destruct (wf_index im x y Hwf ltac:(destruct Hwf; lia) Hyi) as (Hi & _ & Hs).
    unfold draw_circle_pixel. destruct (circle_inside c x y); cbn [negb].
    + rewrite bool_decide_eq_true_2 by lia. rewrite Hs.
      apply store_Ok. rewrite Hlen. lia.
    + by rewrite list_insert_id.
  - intros b x y Hx Hy Hout. unfold draw_circle_pixel.
    destruct (circle_inside c x y); cbn [negb]; [|done].
    rewrite bool_decide_eq_false_2; [done|]. unfold in_image in Hout. lia.
  - exists (set_buf im b). split_and!; try done.
    unfold image_u8_draw_circle. by rewrite Hrun.
Qed.

(** ** draw_line *)

Lemma for_each_invariant {A S : Type} (P : S → Prop) (body : S → A → res S)
    (l : list A) (s : S) :
  P s → (∀ s a, P s → ∃ s', body s a = Ok s' ∧ P s') →
  ∃ s', for_each body l s = Ok s' ∧ P s'.
Proof.
  intros Hs Hstep. revert s Hs. induction l as [|a l IH]; intros s Hs.
  - by exists s.
  - destruct (Hstep s a Hs) as (s1 & Hb & H1).
    destruct (IH s1 H1) as (s2 & Hrun & H2).
    exists s2. split; [|done]. cbn [for_each]. by rewrite Hb.
Qed.

(** With [width <= 1] every walk is clipped to the image. *)
Lemma draw_line_thin_clipped im walk v lwidth :
  wf_image im → lwidth ≤ 1 →
  ∃ im', image_u8_draw_line im walk v lwidth = Ok im' ∧
         length (buf im') = length (buf im).
Proof.
  intros Hwf Hthin.
  destruct (for_each_invariant (λ b, length b = length (buf im))
              (draw_line_point im v lwidth) walk (buf im) eq_refl)
    as (b & Hrun & Hl).
  - intros b [x y] Hlen. unfold draw_line_point.
    case_bool_decide as Hg; [by exists b|].
    destruct (wf_index im x y Hwf ltac:(destruct Hwf; lia) ltac:(lia)) as (Hi & _ & Hs).
    rewrite Hs, store_Ok by (rewrite Hlen; lia). cbn.
    rewrite bool_decide_eq_false_2 by lia.
    eexists; split; [done|]. by rewrite length_insert.
  - exists (set_buf im b). split; [|done].
    unfold image_u8_draw_line. by rewrite Hrun.
Qed.

(** C6: on a blank 2 x 2 Buffer, the line from (0,1) to (1,1) drawn with
    width 3 starts its walk at pixel (1,1), which passes the bounds test; the
    thickening then stores at index 4 of a 4-byte array. *)
Theorem C6_draw_line_thick_escapes :
  wf_image (blank 2 2 2) ∧
  image_u8_draw_line (blank 2 2 2) [(1, 1); (0, 1); (0, 1)] 255 3
    = Fault (Out_of_bounds Dest 4).
Proof.
  split; [concrete_wf|reflexivity].
Qed.

(** C7 (as stated) fails: on a blank 3 x 3 Buffer the step at pixel (0,0)
    with width 2 also sets the diagonal pixel (1,1), which is neither the
    nearest pixel nor its right or below neighbour. *)
Lemma C7_counterexample :
  ¬ ∃ b', draw_line_point (blank 3 3 3) 255 2 (buf (blank 3 3 3)) (0, 0) = Ok b' ∧
          ∀ px py, 0 ≤ px < 3 → 0 ≤ py < 3 →
            b' !! Z.to_nat (py * 3 + px) =
              if decide ((px = 0 ∧ py = 0) ∨ (px = 1 ∧ py = 0) ∨ (px = 0 ∧ py = 1))
              then Some 255
              else buf (blank 3 3 3) !! Z.to_nat (py * 3 + px).
Proof.
  intros (b' & Hrun & Hb). vm_compute in Hrun. injection Hrun as <-.
  specialize (Hb 1 1 ltac:(lia) ltac:(lia)). vm_compute in Hb. discriminate.
Qed.

(** C7 (amended): a step of the walk whose nearest pixel lies outside the
    image writes nothing; with [width > 1], a step whose nearest pixel
    [(x, y)] lies inside the image with [x + 1 < width] and [y + 1 < height]
    sets exactly the four pixels of the 2 x 2 block [(x, y)], [(x+1, y)],
    [(x, y+1)], [(x+1, y+1)] to the value (as a byte) and leaves every other
    byte of the array as it was. *)
Theorem C7_draw_line_thick_point im b v lwidth x y :
  wf_image im → length b = length (buf im) → 1 < lwidth →
  (¬ (0 ≤ x < width im ∧ 0 ≤ y < height im) →
     draw_line_point im v lwidth b (x, y) = Ok b) ∧
  (0 ≤ x → x + 1 < width im → 0 ≤ y → y + 1 < height im →
     ∃ b', draw_line_point im v lwidth b (x, y) = Ok b' ∧
           length b' = length b ∧
           ∀ px py, 0 ≤ px < stride im → 0 ≤ py < height im →
             b' !! Z.to_nat (py * stride im + px) =
               if decide ((px = x ∨ px = x + 1) ∧ (py = y ∨ py = y + 1))
               then Some (u8 v)
               else b !! Z.to_nat (py * stride im + px)).
Proof.
  intros Hwf Hlen Hthick. split.
  - intros Hout. unfold draw_line_point. rewrite bool_decide_eq_true_2; [done|lia].
  - intros Hx0 Hx1 Hy0 Hy1.
    assert (width im ≤ stride im) as Hst by (by destruct Hwf).
    destruct (wf_index im x y Hwf ltac:(lia) ltac:(lia)) as (Hi & _ & Hs).
    destruct (wf_index im (x + 1) (y + 1) Hwf ltac:(lia) ltac:(lia)) as (Hj & _ & _).
    assert (Z.of_nat (length (buf im)) ≤ INT_MAX) as Hmax by (destruct Hwf; lia).
    clear Hwf.
    remember (y * stride im + x) as i eqn:Ei.
    replace ((y + 1) * stride im + (x + 1)) with (i + 1 + stride im) in Hj
      by (subst i; ring).
    assert (s32 (i + 1) = i + 1) as S1 by (apply s32_small; pow_consts; lia).
    assert (s32 (i + stride im) = i + stride im) as S2
      by (apply s32_small; pow_consts; lia).
    assert (s32 (i + 1 + stride im) = i + 1 + stride im) as S3
      by (apply s32_small; pow_consts; lia).
    clear Hmax.
    unfold draw_line_point.
    rewrite bool_decide_eq_false_2 by lia. rewrite Hs.
    rewrite store_Ok by lia. cbn [mbind res_bind].
    rewrite bool_decide_eq_true_2 by done.
    rewrite S1, store_Ok by (rewrite length_insert; lia). cbn [mbind res_bind].
    rewrite S2, store_Ok by (rewrite !length_insert; lia). cbn [mbind res_bind].
    rewrite S3, store_Ok by (rewrite !length_insert; lia).
    eexists; split; [done|]. split; [by rewrite !length_insert|].
    clear Hs S1 S2 S3.
    intros px py Hpx Hpy.
    pose proof (index_in_range (stride im) (height im) px py Hpx Hpy) as Hp.
    remember (py * stride im + px) as j eqn:Ej.
    assert (i = j ↔ px = x ∧ py = y) as C00.
    { subst i j. split; [intros E|intros [-> ->]; ring].
      symmetry in E. apply (index_inj (stride im)); lia. }
    assert (i + 1 = j ↔ px = x + 1 ∧ py = y) as C10.
    { subst i j. split; [intros E|intros [-> ->]; ring].
      apply (index_inj (stride im)); lia. }
    assert (i + stride im = j ↔ px = x ∧ py = y + 1) as C01.
    { subst i j. split; [intros E|intros [-> ->]; ring].
      apply (index_inj (stride im)); lia. }
    assert (i + 1 + stride im = j ↔ px = x + 1 ∧ py = y + 1) as C11.
    { subst i j. split; [intros E|intros [-> ->]; ring].
      apply (index_inj (stride im)); lia. }
    do 4 (rewrite lookup_insert_Z by (rewrite ?length_insert; clear C00 C10 C01 C11; lia)).
    rewrite (decide_ext _ _ _ _ C11), (decide_ext _ _ _ _ C01),
      (decide_ext _ _ _ _ C10), (decide_ext _ _ _ _ C00).
    clear - Hx0 Hy0.
    repeat case_decide; try done; exfalso; lia.
Qed.

Lemma blank_3_wf : wf_image (blank 3 3 3).
Proof. concrete_wf. Defined.

Lemma C7_draw_line_thick_point_witness :
  (¬ (0 ≤ 0 < 3 ∧ 0 ≤ 0 < 3) →
     draw_line_point (blank 3 3 3) 255 2 (buf (blank 3 3 3)) (0, 0)
       = Ok (buf (blank 3 3 3))) ∧
  (0 ≤ 0 → 0 + 1 < 3 → 0 ≤ 0 → 0 + 1 < 3 →
     ∃ b', draw_line_point (blank 3 3 3) 255 2 (buf (blank 3 3 3)) (0, 0) = Ok b' ∧
           length b' = length (buf (blank 3 3 3)) ∧
           ∀ px py, 0 ≤ px < 3 → 0 ≤ py < 3 →
             b' !! Z.to_nat (py * 3 + px) =
               if decide ((px = 0 ∨ px = 0 + 1) ∧ (py = 0 ∨ py = 0 + 1))
               then Some (u8 255)
               else buf (blank 3 3 3) !! Z.to_nat (py * 3 + px)).
Proof.
  apply (C7_draw_line_thick_point (blank 3 3 3) (buf (blank 3 3 3)) 255 2 0 0
           blank_3_wf eq_refl).
  lia.
Defined.

(** ** fill_line_max *)

(** C8 (as stated) fails for "every Buffer, lookup table, and segment".
    The bounding box is clamped to [0, width-1] x [0, height-1], which on
    the empty Buffer that [image_u8_create 0 0] returns still leaves column 0
    of row 0: a pixel there whose index is below [nvalues] is read at
    [buf[0]] of an array without bytes.  And the index is only tested from
    above ([idx >= nvalues]), so a negative index is looked up before the
    start of the table. *)
Lemma C8_counterexample :
  image_u8_create 0 0 = Ok (blank 0 0 0) ∧ wf_image (blank 0 0 0) ∧
  image_u8_fill_line_max (blank 0 0 0) sample_lut sample_fill
    = Fault (Out_of_bounds Dest 0) ∧
  image_u8_fill_line_max sample_image sample_lut far_fill
    = Fault (Out_of_bounds Table (-2147483648)).
Proof.
  split_and!; [reflexivity|concrete_wf|reflexivity|reflexivity].
Qed.

(** C8 (amended): on a non-empty well-formed Buffer, with a table of at
    least [nvalues] entries and non-negative squared-distance indices,
    [fill_line_max] returns and no byte decreases: a pixel of the scanned
    box whose index is below [nvalues] ends as the maximum of its old value
    and the table entry, and every other byte (index at or above [nvalues],
    outside the box, padding) is unchanged. *)
Theorem C8_fill_line_max_monotone im lut g :
  wf_image im → 0 < width im → 0 < height im →
  0 ≤ nvalues lut ≤ Z.of_nat (length (values lut)) →
  (∀ x y, 0 ≤ x < width im → 0 ≤ y < height im → 0 ≤ fill_index g x y) →
  ∃ im', image_u8_fill_line_max im lut g = Ok im' ∧
         width im' = width im ∧ height im' = height im ∧
         stride im' = stride im ∧ length (buf im') = length (buf im) ∧
         ∀ x y, 0 ≤ x < stride im → 0 ≤ y < height im →
           ∃ old new, pixel im x y = Some old ∧ pixel im' x y = Some new ∧
             old ≤ new ∧
             new = if decide (fill_box im g x y ∧ fill_index g x y < nvalues lut)
                   then Z.max old (lut_at lut (fill_index g x y))
                   else old.
Proof.
  intros Hwf Hwpos Hhpos Hlut Hidx.
  assert (Hsw : s32 (width im - 1) = width im - 1).
  { destruct Hwf. apply s32_small. pow_consts. nia. }
  assert (Hsh : s32 (height im - 1) = height im - 1).
  { destruct Hwf. apply s32_small. pow_consts. nia. }
  set (ix0 := iclamp (fill_x0 g) 0 (s32 (width im - 1))).
  set (ix1 := iclamp (fill_x1 g) 0 (s32 (width im - 1))).
  set (iy0 := iclamp (fill_y0 g) 0 (s32 (height im - 1))).
  set (iy1 := iclamp (fill_y1 g) 0 (s32 (height im - 1))).
  assert (Hbx : 0 ≤ ix0 < width im ∧ 0 ≤ ix1 < width im)
    by (unfold ix0, ix1, iclamp; rewrite Hsw; lia).
  assert (Hby : 0 ≤ iy0 < height im ∧ 0 ≤ iy1 < height im)
    by (unfold iy0, iy1, iclamp; rewrite Hsh; lia).
  set (upd := λ x y old : Z,
         if decide (fill_index g x y < nvalues lut)
         then Z.max old (lut_at lut (fill_index g x y)) else old).
  destruct (scan_result (width im) (stride im) (height im) (buf im)
              ltac:(destruct Hwf; lia) ltac:(by destruct Hwf)
              upd (fill_line_max_pixel im lut g)
              ix0 iy0 (Z.to_nat (ix1 - ix0 + 1)) (Z.to_nat (iy1 - iy0 + 1)))
    as (b & Hrun & Hl & Hb).
  - intros b x y old Hx Hy [Hxi Hyi] Hlen Hold.
    destruct (wf_index im x y Hwf ltac:(destruct Hwf; lia) Hyi) as (Hi & _ & Hs).
    unfold fill_line_max_pixel, upd. rewrite Hs.
    specialize (Hidx x y Hxi Hyi).
    case_bool_decide as Hn.
    { rewrite decide_False by lia. by rewrite list_insert_id. }
    rewrite decide_True by lia.
    destruct (lookup_lt_is_Some_2 (values lut) (Z.to_nat (fill_index g x y))
                ltac:(lia)) as [lv Hlv].
    rewrite (load_Ok Table (values lut) _ lv) by done. cbn [mbind res_bind].
    rewrite (load_Ok Dest b _ old) by (done || lia). cbn [mbind res_bind].
    unfold lut_at. rewrite Hlv. cbn [default from_option]. unfold id.
    case_bool_decide as Hgt.
    + rewrite store_Ok by (rewrite Hlen; lia). by rewrite Z.max_r by lia.
    + rewrite Z.max_l by lia. by rewrite list_insert_id.
  - intros b x y Hx Hy Hout. exfalso. apply Hout. unfold in_image. lia.
  - exists (set_buf im b). split_and!; try done.
    { unfold image_u8_fill_line_max. fold ix0 ix1 iy0 iy1. by rewrite Hrun. }
    intros x y Hx Hy. unfold pixel. cbn [set_buf buf stride].
    rewrite Hb by done.
    pose proof (index_in_range (stride im) (height im) x y Hx Hy) as Hi.
    destruct (lookup_lt_is_Some_2 (buf im) (Z.to_nat (y * stride im + x)))
      as [old Hold]; [destruct Hwf; lia|].
    rewrite Hold. exists old. unfold upd, fill_box.
    fold ix0 ix1 iy0 iy1.
    repeat case_decide; cbn [fmap option_fmap option_map];
      eexists; split_and!; try done; try lia.
Qed.

Lemma C8_fill_line_max_monotone_witness :
  ∃ im', image_u8_fill_line_max sample_image sample_lut sample_fill = Ok im' ∧
         width im' = 2 ∧ height im' = 2 ∧ stride im' = 3 ∧
         length (buf im') = 6%nat ∧
         ∀ x y, 0 ≤ x < 3 → 0 ≤ y < 2 →
           ∃ old new, pixel sample_image x y = Some old ∧ pixel im' x y = Some new ∧
             old ≤ new ∧
             new = if decide (fill_box sample_image sample_fill x y ∧ x + 2 * y < 3)
                   then Z.max old (lut_at sample_lut (x + 2 * y))
                   else old.
Proof.
  apply (C8_fill_line_max_monotone sample_image sample_lut sample_fill sample_image_wf);
    cbn; lia.
Defined.

(** ** convolve *)

(** A loop that stores one cell per iteration. *)
Lemma iterate_fill (f : Z → Z) (body : Z → list Z → res (list Z))
    (n : nat) (start off : Z) (y : list Z) :
  0 ≤ start + off → start + off + Z.of_nat n ≤ Z.of_nat (length y) →
  (∀ i y1, start ≤ i < start + Z.of_nat n → length y1 = length y →
     body i y1 = Ok (<[Z.to_nat (off + i) := f i]> y1)) →
  ∃ y', iterate n start 1 body y = Ok y' ∧ length y' = length y ∧
        ∀ p, 0 ≤ p →
          y' !! Z.to_nat p =
            if decide (start + off ≤ p < start + off + Z.of_nat n)
            then Some (f (p - off)) else y !! Z.to_nat p.
Proof.
  intros Hlo Hhi Hbody.
  destruct (iterate_invariant (λ (m : nat) (y1 : list Z), length y1 = length y ∧
           ∀ p, 0 ≤ p → y1 !! Z.to_nat p =
             if decide (start + off ≤ p < start + off + Z.of_nat m)
             then Some (f (p - off)) else y !! Z.to_nat p) body n start 1 y)
    as (y' & Hrun & Hl & Hy').
  - split; [done|]. intros p Hp. by rewrite decide_False by lia.
  - intros m y1 Hm [Hl Hy1]. eexists. split; [apply Hbody; [lia|done]|].
    split; [by rewrite length_insert|]. intros p Hp.
    rewrite lookup_insert_Z by lia. rewrite Hy1 by done.
    repeat case_decide; try done; try (exfalso; lia).
    do 2 f_equal. lia.
  - by exists y'.
Qed.

Lemma convolve_acc_sum (x k : list Z) (i ksz : Z) :
  0 ≤ i → 0 ≤ ksz → i + ksz ≤ Z.of_nat (length x) → ksz ≤ Z.of_nat (length k) →
  for_upto ksz (convolve_acc x k i) 0 = Ok (u32 (weighted_sum k x i (Z.to_nat ksz))).
Proof.
  intros Hi Hksz Hx Hk.
  destruct (iterate_invariant
              (λ m acc, acc = u32 (weighted_sum k x i m))
              (convolve_acc x k i) (Z.to_nat ksz) 0 1 0) as (acc & Hrun & ->).
  - done.
  - intros m acc Hm ->. eexists. split; [|reflexivity].
    replace (0 + Z.of_nat m * 1) with (Z.of_nat m) by lia.
    destruct (lookup_lt_is_Some_2 k (Z.to_nat (Z.of_nat m)) ltac:(lia)) as [kj Hkj].
    destruct (lookup_lt_is_Some_2 x (Z.to_nat (i + Z.of_nat m)) ltac:(lia)) as [xv Hxv].
    unfold convolve_acc.
    rewrite (load_Ok Table k _ kj) by (done || lia). cbn [mbind res_bind].
    rewrite (load_Ok Src x _ xv) by (done || lia). cbn [mbind res_bind].
    cbn [weighted_sum]. unfold elem. rewrite Hkj, Hxv. cbn [default from_option]. unfold id.
    f_equal. unfold u32. by rewrite Zplus_mod_idemp_l.
  - exact Hrun.
Qed.

Lemma copy_cell (x y : list Z) (i : Z) :
  0 ≤ i < Z.of_nat (length x) → i < Z.of_nat (length y) →
  (v ← load Src x i; store Dest y i v) = Ok (<[Z.to_nat (0 + i) := elem x i]> y).
Proof.
  intros Hi Hl.
  destruct (lookup_lt_is_Some_2 x (Z.to_nat i) ltac:(lia)) as [v Hv].
  rewrite (load_Ok Src x i v) by (done || lia). cbn [mbind res_bind].
  rewrite store_Ok by lia. unfold elem. rewrite Hv. done.
Qed.

Lemma elem_lookup (x : list Z) (p : Z) :
  0 ≤ p < Z.of_nat (length x) → Some (elem x p) = x !! Z.to_nat p.
Proof.
  intros Hp. destruct (lookup_lt_is_Some_2 x (Z.to_nat p) ltac:(lia)) as [v Hv].
  unfold elem. by rewrite Hv.
Qed.

Lemma odd_half ksz : 0 ≤ ksz → Z.land ksz 1 = 1 → ksz = 2 * (ksz `quot` 2) + 1.
Proof.
  intros Hk Hodd. change 1 with (Z.ones 1) in Hodd at 1.
  rewrite Z.land_ones in Hodd by lia. change (2 ^ 1) with 2 in Hodd.
  rewrite Z.quot_div_nonneg by lia.
  pose proof (Z.div_mod ksz 2 ltac:(lia)). lia.
Qed.

(** C4 (as stated) fails, twice over.  With [n = 4], [k = 3], every source
    byte 255 and every weight 255, the interior index 0 has the sum
    [3 * 255 * 255 = 195075], and [195075 >> 8 = 762]; the destination is a
    byte and receives 250.  And position 2 is neither among the first
    [k/2 = 1] or last [k/2 = 1] positions nor of the form [i + k/2] with [i]
    in [0, n-k) = {0}: the pass copies it from the source. *)
Lemma C4_counterexample :
  ¬ ∃ y', convolve [255; 255; 255; 255] [0; 0; 0; 0] 4 [255; 255; 255] 3 = Ok y' ∧
          ∀ p, 0 ≤ p < 4 →
            ((p < 1 ∨ 4 - 1 ≤ p) ∧
               y' !! Z.to_nat p = [255; 255; 255; 255] !! Z.to_nat p) ∨
            (∃ i, 0 ≤ i < 4 - 3 ∧ p = i + 1 ∧
                  y' !! Z.to_nat p =
                    Some (weighted_sum [255; 255; 255] [255; 255; 255; 255] i 3 ≫ 8)).
Proof.
  intros (y' & Hrun & Hy'). vm_compute in Hrun. injection Hrun as <-.
  destruct (Hy' 1 ltac:(lia)) as [[Hpos _]|(i & Hi & Hp & Hv)]; [lia|].
  assert (i = 0) as -> by lia. vm_compute in Hv. discriminate.
Qed.

Example convolve_truncates :
  convolve [255; 255; 255; 255] [0; 0; 0; 0] 4 [255; 255; 255] 3
    = Ok [255; 250; 255; 255] ∧
  weighted_sum [255; 255; 255] [255; 255; 255; 255] 0 3 ≫ 8 = 762.
Proof. split; reflexivity. Qed.

Example convolve_copies_tail :
  convolve [10; 20; 30; 200] [0; 0; 0; 0] 4 [64; 128; 64] 3 = Ok [10; 20; 30; 200] ∧
  weighted_sum [64; 128; 64] [10; 20; 30; 200] 1 3 ≫ 8 = 70.
Proof. split; reflexivity. Qed.

(** C4 (amended): for every source sequence of length [n] and odd kernel
    of length [k] with [k/2 < n], the pass returns; it copies the first [k/2]
    and the last [k/2 + 1] positions unchanged from the source, and for every
    interior index [i] in [0, n-k) stores at destination index [i + k/2] the
    low 8 bits of [sum(kernel[j] * source[i+j] for j in [0,k)) >> 8] (the sum
    held in 32 bits); every destination position is written as one of these
    two cases, and nothing is written past position [n]. *)
Theorem C4_convolve_pass (x y k : list Z) (sz ksz : Z) :
  0 ≤ sz ≤ Z.of_nat (length x) → sz ≤ Z.of_nat (length y) →
  ksz = Z.of_nat (length k) → Z.land ksz 1 = 1 → ksz `quot` 2 < sz →
  ∃ y', convolve x y sz k ksz = Ok y' ∧ length y' = length y ∧
        (∀ p, 0 ≤ p < sz →
          ((p < ksz `quot` 2 ∨ sz - (ksz `quot` 2 + 1) ≤ p) ∧
             y' !! Z.to_nat p = x !! Z.to_nat p) ∨
          (∃ i, 0 ≤ i < sz - ksz ∧ p = i + ksz `quot` 2 ∧
                y' !! Z.to_nat p =
                  Some (u8 (u32 (weighted_sum k x i (Z.to_nat ksz)) ≫ 8)))) ∧
        (∀ p, sz ≤ p → y' !! Z.to_nat p = y !! Z.to_nat p).
Proof.
  intros Hsz Hly Hksz Hodd Hhalf.
  pose proof (odd_half ksz ltac:(lia) Hodd) as Hk.
  set (h := ksz `quot` 2) in *.
  assert (0 ≤ h) as Hh by lia.
  unfold convolve. rewrite bool_decide_eq_true_2 by done. fold h.
  (* the first k/2 positions *)
  destruct (iterate_fill (elem x) (λ i y, v ← load Src x i; store Dest y i v)
              (Z.to_nat (Z.min h sz)) 0 0 y) as (y1 & Run1 & L1 & P1);
    [lia|lia|intros; apply copy_cell; lia|].
  erewrite bind_Ok by exact Run1.
  (* the filtered positions *)
  destruct (iterate_fill
              (λ i, u8 (u32 (weighted_sum k x i (Z.to_nat ksz)) ≫ 8))
              (λ i y, acc ← for_upto ksz (convolve_acc x k i) 0;
                      store Dest y (h + i) (u8 (acc ≫ 8)))
              (Z.to_nat (sz - ksz)) 0 h y1) as (y2 & Run2 & L2 & P2);
    [lia|lia| |].
  { intros i y' Hi Hl. rewrite convolve_acc_sum by lia. cbn [mbind res_bind].
    apply store_Ok. lia. }
  erewrite bind_Ok by exact Run2.
  (* the last k/2 + 1 positions *)
  destruct (iterate_fill (elem x) (λ i y, v ← load Src x i; store Dest y i v)
              (Z.to_nat (sz - (sz - ksz + h))) (sz - ksz + h) 0 y2)
    as (y3 & Run3 & L3 & P3);
    [lia|lia|intros; apply copy_cell; lia|].
  exists y3. split; [done|]. split; [congruence|]. split.
  - intros p Hp. rewrite P3, P2, P1 by lia.
    destruct (decide (sz - ksz + h + 0 ≤ p <
                      sz - ksz + h + 0 + Z.of_nat (Z.to_nat (sz - (sz - ksz + h)))))
      as [Hlast|Hnlast].
    { left. split; [lia|]. rewrite Z.sub_0_r. apply elem_lookup. lia. }
    destruct (decide (0 + h ≤ p < 0 + h + Z.of_nat (Z.to_nat (sz - ksz)))) as [Hmid|Hnmid].
    { right. exists (p - h). split_and!; [lia|lia|lia|done]. }
    left. split; [lia|]. rewrite decide_True by lia.
    rewrite Z.sub_0_r. apply elem_lookup. lia.
  - intros p Hp. rewrite P3, P2, P1 by lia.
    by rewrite !decide_False by lia.
Qed.

Lemma C4_convolve_pass_witness :
  ∃ y', convolve [10; 20; 30; 200] [0; 0; 0; 0] 4 [64; 128; 64] 3 = Ok y' ∧
        length y' = 4%nat ∧
        (∀ p, 0 ≤ p < 4 →
          ((p < 3 `quot` 2 ∨ 4 - (3 `quot` 2 + 1) ≤ p) ∧
             y' !! Z.to_nat p = [10; 20; 30; 200] !! Z.to_nat p) ∨
          (∃ i, 0 ≤ i < 4 - 3 ∧ p = i + 3 `quot` 2 ∧
                y' !! Z.to_nat p =
                  Some (u8 (u32 (weighted_sum [64; 128; 64] [10; 20; 30; 200] i
                                   (Z.to_nat 3)) ≫ 8)))) ∧
        (∀ p, 4 ≤ p → y' !! Z.to_nat p = [0; 0; 0; 0] !! Z.to_nat p).
Proof.
  apply (C4_convolve_pass [10; 20; 30; 200] [0; 0; 0; 0] [64; 128; 64] 4 3);
    (reflexivity || (cbn; lia)).
Defined.

(** ** write_pnm *)

Example pnm_header_640_480 :
  pnm_header 640 480 = [80; 53; 10; 54; 52; 48; 32; 52; 56; 48; 10; 50; 53; 53; 10].
Proof. reflexivity. Qed.

Lemma load_row im y :
  wf_image im → 0 ≤ y < height im →
  load_range Src (buf im) (s32 (y * stride im)) (width im) = Ok (image_row im y) ∧
  length (image_row im y) = Z.to_nat (width im).
Proof.
  intros Hwf Hy.
  destruct Hwf as [Hw Hh Hst Hlen Hmax _ _].
  assert ((y + 1) * stride im ≤ stride im * height im) as Hrow by nia.
  assert (0 ≤ y * stride im) as Hi by nia.
  assert (s32 (y * stride im) = y * stride im) as ->
    by (apply s32_small; pow_consts; nia).
  unfold load_range, image_row. rewrite decide_True by lia. split; [done|].
  rewrite length_take, length_drop. lia.
Qed.

Lemma rows_from_shape im n y :
  wf_image im → 0 ≤ y → y + Z.of_nat n ≤ height im →
  length (rows_from im n y) = n ∧
  Forall (λ r, length r = Z.to_nat (width im)) (rows_from im n y).
Proof.
  intros Hwf. revert y. induction n as [|n IH]; intros y Hy Hn; cbn [rows_from].
  - by split.
  - destruct (IH (y + 1) ltac:(lia) ltac:(lia)) as [Hl Hall].
    destruct (load_row im y Hwf ltac:(lia)) as [_ Hrow].
    split; [cbn; by rewrite Hl|]. by constructor.
Qed.

Lemma write_rows_spec env im n y f :
  wf_image im → 0 ≤ y → y + Z.of_nat n ≤ height im →
  ∃ status f', write_rows env im n y f = Ok (status, f') ∧
    (status = 0 ∨ status = -2) ∧
    ((∃ j, j < n ∧ accepts env (calls f + j) < Z.to_nat (width im))%nat → status = -2) ∧
    ((∀ j, j < n → Z.to_nat (width im) ≤ accepts env (calls f + j))%nat →
       status = 0 ∧ content f' = content f ++ concat (rows_from im n y)).
Proof.
  intros Hwf. revert y f. induction n as [|n IH]; intros y f Hy Hn.
  - exists 0, f. cbn [write_rows rows_from concat]. split_and!; try done; [by left| |].
    + intros (j & Hj & _). lia.
    + intros _. by rewrite app_nil_r.
  - destruct (load_row im y Hwf ltac:(lia)) as [Hload Hrow].
    assert (0 ≤ width im) as Hw by (by destruct Hwf).
    cbn [write_rows rows_from concat]. rewrite Hload. cbn [mbind res_bind fwrite].
    destruct (decide (accepts env (calls f) < Z.to_nat (width im))%nat) as [Hshort|Hfull].
    + rewrite bool_decide_eq_true_2 by lia.
      eexists _, _. split_and!; try done; [by right|].
      intros Hall. specialize (Hall O ltac:(lia)). rewrite Nat.add_0_r in Hall. lia.
    + rewrite bool_decide_eq_false_2 by lia.
      rewrite Nat.min_l by lia. rewrite firstn_all.
      destruct (IH (y + 1) {| calls := S (calls f);
                              content := content f ++ image_row im y |}
                  ltac:(lia) ltac:(lia)) as (status & f' & Hrun & Hst & Hshort & Hdone).
      exists status, f'. cbn [calls content] in *. split_and!; try done.
      * intros (j & Hj & Hlt). destruct j as [|j].
        { rewrite Nat.add_0_r in Hlt. lia. }
        apply Hshort. exists j. split; [lia|].
        by replace (S (calls f) + j)%nat with (calls f + S j)%nat by lia.
      * intros Hall. destruct Hdone as [-> Hc].
        { intros j Hj. specialize (Hall (S j) ltac:(lia)).
          by replace (S (calls f) + j)%nat with (calls f + S j)%nat by lia. }
        split; [done|]. by rewrite Hc, <- app_assoc.
Qed.

(** The bytes of the header. *)
Lemma bytes_of_app (s t : string) : bytes_of (s ++ t) = bytes_of s ++ bytes_of t.
Proof.
  unfold bytes_of. induction s as [|c s IH]; [done|].
  cbn [append list_ascii_of_string fmap list_fmap app]. cbn. f_equal. exact IH.
Qed.

Lemma pnm_header_bytes w h :
  pnm_header w h =
    [80; 53; 10] ++ bytes_of (decimal w) ++ [32] ++ bytes_of (decimal h)
      ++ [10; 50; 53; 53; 10].
Proof. unfold pnm_header. rewrite !bytes_of_app. reflexivity. Qed.

Lemma uint_digits (d : Decimal.uint) :
  Forall (λ b, 48 ≤ b ≤ 57) (bytes_of (NilEmpty.string_of_uint d)).
Proof. induction d; cbn; constructor; try done; lia. Qed.

Lemma uint_value_acc (d : Decimal.uint) (acc : positive) :
  foldl (λ acc d, 10 * acc + (d - 48)) (Z.pos acc)
    (bytes_of (NilEmpty.string_of_uint d))
    = Z.pos (Pos.of_uint_acc d acc).
Proof.
  revert acc. induction d; intros acc; [done|..];
    cbn [NilEmpty.string_of_uint Pos.of_uint_acc];
    change (bytes_of (String ?c ?s)) with (Z.of_N (N_of_ascii c) :: bytes_of s);
    cbn [foldl]; rewrite <- IHd; f_equal; simpl (Z.of_N (N_of_ascii _)); lia.
Qed.

Lemma uint_value (d : Decimal.uint) :
  digits_value (bytes_of (NilEmpty.string_of_uint d)) = Z.of_N (Pos.of_uint d).
Proof.
  unfold digits_value. induction d; [done|..];
    cbn [NilEmpty.string_of_uint Pos.of_uint];
    change (bytes_of (String ?c ?s)) with (Z.of_N (N_of_ascii c) :: bytes_of s);
    cbn [foldl]; [exact IHd|..];
    apply (uint_value_acc d).
Qed.

Lemma to_uint_head (p : positive) d : Pos.to_uint p ≠ Decimal.D0 d.
Proof.
  pose proof (DecimalPos.Unsigned.to_of (Pos.to_uint p)) as H.
  rewrite DecimalPos.Unsigned.of_to in H. cbn [N.to_uint] in H.
  intros E.
  assert (Decimal.nzhead (Pos.to_uint p) ≠ Decimal.Nil) as Hnz.
  { intros Hn. apply (DecimalPos.Unsigned.to_uint_nonzero p). rewrite H.
    by apply DecimalFacts.unorm_0. }
  rewrite (DecimalFacts.unorm_nzhead _ Hnz) in H.
  apply (DecimalFacts.nzhead_nonzero (Pos.to_uint p) d). by rewrite <- H.
Qed.

(** What [decimal] prints for a non-negative number is its numeral. *)
Lemma decimal_numeral_decimal (z : Z) :
  0 ≤ z → decimal_numeral (bytes_of (decimal z)) z.
Proof.
  intros Hz. unfold decimal. destruct z as [|p|p]; [|clear Hz|lia].
  - split_and!; [done|by repeat constructor|done|done].
  - cbn [Z.to_int NilZero.string_of_int].
    pose proof (DecimalPos.Unsigned.to_uint_nonnil p) as Hnil.
    pose proof (to_uint_head p) as Hhead.
    pose proof (uint_value (Pos.to_uint p)) as Hval.
    rewrite DecimalPos.Unsigned.of_to in Hval.
    pose proof (uint_digits (Pos.to_uint p)) as Hdig.
    unfold NilZero.string_of_uint.
    destruct (Pos.to_uint p) as [|d|d|d|d|d|d|d|d|d|d] eqn:E; [done|..];
      try (by exfalso; eapply Hhead);
      (split_and!; [done|exact Hdig|by intros [=]|exact Hval]).
Qed.

(** C5: for a well-formed Buffer, encoding returns -1 (and opens nothing)
    when the destination cannot be opened, -2 when some row is written
    short, and 0 when every row is written whole; these are the only
    statuses.  When no output call is cut short the bytes handed to the
    stream are the three-line header (the line [P5], the line of the width
    and the height as decimal numerals separated by one space, the line
    [255], each ended by a line feed) followed by the rows, of which there
    are [height], each of [width] bytes taken from the start of a Buffer
    row (the padding is never written).  The file [fclose] leaves is what
    the medium kept of these bytes: all of them on a medium that loses
    nothing. *)
Theorem C5_write_pnm env im :
  wf_image im →
  ∃ status out, image_u8_write_pnm env im = Ok (status, out) ∧
    (status = -1 ∨ status = -2 ∨ status = 0) ∧
    (fopen_succeeds env = false → status = -1 ∧ out = None) ∧
    (fopen_succeeds env = true →
       (∃ y, 0 ≤ y < height im ∧
             (accepts env (S (Z.to_nat y)) < Z.to_nat (width im))%nat) →
       status = -2) ∧
    (fopen_succeeds env = true →
       (∀ y, 0 ≤ y < height im →
             (Z.to_nat (width im) ≤ accepts env (S (Z.to_nat y)))%nat) →
       status = 0 ∧
       ((length (pnm_header (width im) (height im)) ≤ accepts env 0)%nat →
        ∃ F file W H,
          out = Some (F, file) ∧
          decimal_numeral W (width im) ∧ decimal_numeral H (height im) ∧
          content F = [80; 53; 10] ++ W ++ [32] ++ H ++ [10; 50; 53; 53; 10]
                        ++ concat (image_rows im) ∧
          file = flushed env (content F) ∧
          (reliable env → file = content F))) ∧
    length (image_rows im) = Z.to_nat (height im) ∧
    Forall (λ r, length r = Z.to_nat (width im)) (image_rows im).
Proof.
  intros Hwf.
  assert (0 ≤ width im ∧ 0 ≤ height im) as [Hw Hh] by (destruct Hwf; lia).
  destruct (rows_from_shape im (Z.to_nat (height im)) 0 Hwf) as [Hn Hrows]; [lia..|].
  unfold image_u8_write_pnm. destruct (fopen_succeeds env) eqn:Hopen.
  - cbn [fwrite calls content].
    set (f0 := {| calls := 1; content := _ |}).
    destruct (write_rows_spec env im (Z.to_nat (height im)) 0 f0 Hwf)
      as (status & f' & Hrun & Hst & Hshort & Hdone); [lia..|].
    rewrite Hrun. cbn [mbind res_bind]. exists status, (Some (f', fclose env f')).
    split_and!; try done; [lia| |].
    + intros _ (y & Hy & Hlt). apply Hshort. exists (Z.to_nat y). split; [lia|done].
    + intros _ Hall. destruct Hdone as [-> Hc].
      { intros j Hj. specialize (Hall (Z.of_nat j) ltac:(lia)).
        by rewrite Nat2Z.id in Hall. }
      split; [done|]. intros Hhdr.
      exists f', (fclose env f'), (bytes_of (decimal (width im))),
        (bytes_of (decimal (height im))).
      split_and!; [done|by apply decimal_numeral_decimal
                  |by apply decimal_numeral_decimal| |done|].
      * rewrite Hc. unfold f0. cbn [content app].
        rewrite Nat.min_l by done. rewrite firstn_all.
        rewrite pnm_header_bytes. by rewrite <- !app_assoc.
      * intros Hrel. apply Hrel.
  - exists (-1), None. split_and!; try done; auto.
Qed.

Lemma C5_write_pnm_witness :
  ∃ status out, image_u8_write_pnm always_open sample_image = Ok (status, out) ∧
    (status = -1 ∨ status = -2 ∨ status = 0) ∧
    (fopen_succeeds always_open = false → status = -1 ∧ out = None) ∧
    (fopen_succeeds always_open = true →
       (∃ y, 0 ≤ y < 2 ∧ (accepts always_open (S (Z.to_nat y)) < Z.to_nat 2)%nat) →
       status = -2) ∧
    (fopen_succeeds always_open = true →
       (∀ y, 0 ≤ y < 2 → (Z.to_nat 2 ≤ accepts always_open (S (Z.to_nat y)))%nat) →
       status = 0 ∧
       ((length (pnm_header 2 2) ≤ accepts always_open 0)%nat →
        ∃ F file W H,
          out = Some (F, file) ∧
          decimal_numeral W 2 ∧ decimal_numeral H 2 ∧
          content F = [80; 53; 10] ++ W ++ [32] ++ H ++ [10; 50; 53; 53; 10]
                        ++ concat (image_rows sample_image) ∧
          file = flushed always_open (content F) ∧
          (reliable always_open → file = content F))) ∧
    length (image_rows sample_image) = Z.to_nat 2 ∧
    Forall (λ r, length r = Z.to_nat 2) (image_rows sample_image).
Proof. exact (C5_write_pnm always_open sample_image sample_image_wf). Defined.

Example write_pnm_sample :
  image_u8_write_pnm always_open sample_image
    = Ok (0, Some ({| calls := 3;
                      content := [80; 53; 10; 50; 32; 50; 10; 50; 53; 53; 10;
                                  10; 21; 255; 0] |},
                   [80; 53; 10; 50; 32; 50; 10; 50; 53; 53; 10; 10; 21; 255; 0])).
Proof. reflexivity. Qed.

(** The status is 0 although the file lacks its last two bytes: the stream
    took every byte and the loss happened behind it. *)
Example write_pnm_lossy :
  image_u8_write_pnm lossy_medium sample_image
    = Ok (0, Some ({| calls := 3;
                      content := [80; 53; 10; 50; 32; 50; 10; 50; 53; 53; 10;
                                  10; 21; 255; 0] |},
                   [80; 53; 10; 50; 32; 50; 10; 50; 53; 53; 10; 10; 21])).
Proof. reflexivity. Qed.

Example write_pnm_short :
  fst <$> (match image_u8_write_pnm short_at_row_1 sample_image with
           | Ok r => Some r | Fault _ => None end) = Some (-2).
Proof. reflexivity. Qed.

(** ** decimate *)

Example decimate2_sample :
  pixels <$> (match image_u8_decimate (uniform 4 4 5 200 7) 2 with
              | Ok d => Some d | Fault _ => None end)
    = Some [[200; 200]; [200; 200]].
Proof. vm_compute. reflexivity. Qed.

(** *** The unrolled paths on a uniform Buffer *)

Lemma sum_loads_uniform im factor offsets v bx by_ :
  wf_image im → uniform_pixels im v →
  Forall (block_offset im factor) offsets →
  0 ≤ bx → bx + factor ≤ width im → 0 ≤ by_ → by_ + factor ≤ height im →
  sum_loads im (by_ * stride im + bx) offsets = Ok (Z.of_nat (length offsets) * v).
Proof.
  intros Hwf Hu Hoffs Hbx0 Hbx1 Hby0 Hby1.
  induction Hoffs as [|o offs (dx & dy & Hdx & Hdy & ->) _ IH]; [done|].
  cbn [sum_loads length]. rewrite IH.
  assert (width im ≤ stride im) as Hst by (by destruct Hwf).
  destruct (wf_index im (bx + dx) (by_ + dy) Hwf ltac:(lia) ltac:(lia)) as (Hi & _ & Hs).
  replace (by_ * stride im + bx + (dy * stride im + dx))
    with ((by_ + dy) * stride im + (bx + dx)) by ring.
  assert (s32 ((by_ + dy) * stride im + (bx + dx)) = (by_ + dy) * stride im + (bx + dx))
    as -> by (destruct Hwf; apply s32_small; pow_consts; lia).
  rewrite (load_Ok Src (buf im) _ v); [|lia|apply Hu; lia].
  cbn [mbind res_bind]. f_equal. lia.
Qed.

Lemma decimate_unrolled_uniform im decim factor offsets shift v :
  wf_image im → uniform_pixels im v → wf_image decim →
  1 ≤ factor → Forall (block_offset im factor) offsets →
  width decim = width im `quot` factor →
  height decim = height im `quot` factor →
  ∃ d, decimate_unrolled im decim (width decim) (height decim) offsets shift factor
         = Ok d ∧
       length d = length (buf decim) ∧
       ∀ x y, 0 ≤ x < stride decim → 0 ≤ y < height decim →
         d !! Z.to_nat (y * stride decim + x) =
           if decide (x < width decim)
           then Some (u8 (u32 (Z.of_nat (length offsets) * v) ≫ shift))
           else buf decim !! Z.to_nat (y * stride decim + x).
Proof.
  intros Hwf Hu Hwfd Hf Hoffs Hdw Hdh.
  set (c := u8 (u32 (Z.of_nat (length offsets) * v) ≫ shift)).
  set (dw := width decim) in *. set (dh := height decim) in *.
  set (ds := stride decim) in *.
  assert (0 ≤ dw ≤ ds ∧ 0 ≤ dh ∧ Z.of_nat (length (buf decim)) = ds * dh ∧
          ds * dh ≤ INT_MAX) as (Hdw0 & Hdh0 & Hdlen & Hdmax)
    by (destruct Hwfd; unfold dw, dh, ds; lia).
  assert (0 ≤ width im ≤ stride im ∧ 0 ≤ height im ≤ INT_MAX ∧
          stride im * height im ≤ INT_MAX) as (Hw0 & Hh0 & Hmax)
    by (destruct Hwf; lia).
  assert (dw * factor ≤ width im ∧ dh * factor ≤ height im) as [Hcols Hrows].
  { rewrite Hdw, Hdh. rewrite !Z.quot_div_nonneg by lia.
    split; rewrite Z.mul_comm; apply Z.mul_div_le; lia. }
  set (inv := scanned dw ds dh (buf decim) (λ _ _ _, c) 0 0 (Z.to_nat dw)).
  destruct (iterate_invariant (λ ky, inv ky O)
              (λ sy d,
                 let sidx := s32 (sy * ds) in
                 let idx := s32 (s32 (sy * factor) * stride im) in
                 s ← for_upto dw (λ _, decimate_pixel im offsets shift factor)
                       (idx, sidx, d);
                 Ok (snd s))
              (Z.to_nat dh) 0 1 (buf decim)) as (d & Hrun & Hd).
  { apply scanned_start. }
  { intros ky d Hky Hsc. replace (0 + Z.of_nat ky * 1) with (Z.of_nat ky) by lia.
    set (y := Z.of_nat ky).
    assert (0 ≤ y ∧ y + 1 ≤ dh) as [Hy0 Hy1] by lia.
    assert (y * factor + factor ≤ height im) as Hband by nia.
    assert (0 ≤ y * factor * stride im ∧
            (y * factor + 1) * stride im ≤ stride im * height im) as [Hb0 Hb1] by nia.
    assert (0 ≤ y * ds ∧ (y + 1) * ds ≤ ds * dh) as [Hs0 Hs1] by nia.
    assert (s32 (y * factor) = y * factor) as -> by (apply s32_small; pow_consts; nia).
    assert (s32 (y * factor * stride im) = y * factor * stride im) as ->
      by (apply s32_small; pow_consts; nia).
    assert (s32 (y * ds) = y * ds) as -> by (apply s32_small; pow_consts; nia).
    cbn zeta.
    destruct (iterate_invariant
                (λ kx (s : Z * Z * list Z),
                   s.1.1 = y * factor * stride im + Z.of_nat kx * factor ∧
                   s.1.2 = y * ds + Z.of_nat kx ∧ inv ky kx s.2)
                (λ _, decimate_pixel im offsets shift factor)
                (Z.to_nat dw) 0 1 (y * factor * stride im, y * ds, d))
      as (s' & Hrow & _ & _ & Hs').
    { cbn. split_and!; [lia|lia|done]. }
    { intros kx [[idx sidx] d1] Hkx (Hidx & Hsidx & Hinv). cbn in Hidx, Hsidx, Hinv.
      set (x := Z.of_nat kx). assert (0 ≤ x ∧ x + 1 ≤ dw) as [Hx0 Hx1] by lia.
      assert (x * factor + factor ≤ width im) as Hblock by nia.
      destruct (scanned_store dw ds dh (buf decim) ltac:(lia) Hdlen (λ _ _ _, c)
                  0 0 (Z.to_nat dw) ky kx d1 x y ltac:(lia) ltac:(lia)
                  ltac:(unfold in_image; lia) Hinv) as (old & _ & Hi & Hnext).
      unfold decimate_pixel.
      replace idx with ((y * factor) * stride im + x * factor) by lia.
      rewrite (sum_loads_uniform im factor offsets v) by (done || nia).
      cbn [mbind res_bind]. fold c.
      rewrite Hsidx. fold x. rewrite store_Ok by lia. cbn [mbind res_bind].
      eexists. split; [reflexivity|]. cbn.
      assert (y * factor * stride im + x * factor + factor
              ≤ stride im * height im) by nia.
      split_and!.
      - rewrite s32_small by (pow_consts; nia). lia.
      - rewrite s32_small by (pow_consts; nia). lia.
      - exact Hnext. }
    unfold for_upto. rewrite Hrow. cbn [mbind res_bind].
    exists s'.2. split; [done|]. by apply scanned_next_row. }
  exists d. split; [exact Hrun|].
  destruct (scanned_all dw ds dh (buf decim) (λ _ _ _, c) 0 0 (Z.to_nat dw)
              (Z.to_nat dh) d Hd) as [Hl Hpix].
  split; [done|]. intros x y Hx Hy. rewrite Hpix by done.
  pose proof (index_in_range ds dh x y Hx Hy) as Hi.
  destruct (lookup_lt_is_Some_2 (buf decim) (Z.to_nat (y * ds + x)) ltac:(lia))
    as [old Hold].
  rewrite Hold. cbn. repeat case_decide; try done; lia.
Qed.

Lemma image_u8_create_wf w h :
  0 ≤ w → 0 ≤ h ≤ INT_MAX → w + 96 ≤ 2 ^ 31 → aligned_stride w 96 * h ≤ INT_MAX →
  ∃ d, image_u8_create (u32 w) (u32 h) = Ok d ∧ wf_image d ∧
       width d = w ∧ height d = h.
Proof.
  intros Hw Hh Hsum Hsize.
  destruct (aligned_stride_least w 96 Hw ltac:(lia) Hsum) as (_ & Hrange & _).
  pose proof (u32_small w) as Uw. pose proof (u32_small h) as Uh.
  pose proof (s32_small w) as Sw. pose proof (s32_small h) as Sh.
  pose proof (u32_small (aligned_stride w 96)) as Us.
  pose proof (s32_small (aligned_stride w 96)) as Ss.
  pose proof (u32_small (h * aligned_stride w 96)) as Up.
  pow_consts. rewrite Uw, Uh by lia.
  unfold image_u8_create, image_u8_create_alignment.
  rewrite decide_False by done. eexists. split; [reflexivity|].
  unfold image_u8_create_stride. change DEFAULT_ALIGNMENT_U8 with 96.
  rewrite Us, Ss, Sw, Sh, Up by nia.
  split; [|done]. split; cbn [width height stride buf]; try lia.
  - rewrite length_replicate. nia.
  - pow_consts. lia.
  - apply Forall_forall. intros b Hb. apply elem_of_replicate in Hb as [-> _]. lia.
  - pow_consts. nia.
Qed.

Ltac block_offsets :=
  repeat constructor;
  first [ exists 0, 0; lia | exists 1, 0; lia | exists 2, 0; lia | exists 3, 0; lia
        | exists 0, 1; lia | exists 1, 1; lia | exists 2, 1; lia | exists 3, 1; lia
        | exists 0, 2; lia | exists 1, 2; lia | exists 2, 2; lia | exists 3, 2; lia ].

(** Factors 2, 3 and 4 on a uniform Buffer of any size: the destination has
    the floor dimensions and is uniform; its value is the source value for
    factors 2 and 3, and [(12 * v) >> 4] for factor 4. *)
Lemma decimate_unrolled_paths_uniform im factor v :
  wf_image im → uniform_pixels im v → 0 ≤ v < 256 →
  factor = 2 ∨ factor = 3 ∨ factor = 4 →
  aligned_stride (width im `quot` factor) 96 * (height im `quot` factor) ≤ INT_MAX →
  ∃ d, image_u8_decimate im factor = Ok d ∧
       width d = width im `quot` factor ∧ height d = height im `quot` factor ∧
       uniform_pixels d (if decide (factor = 4) then (12 * v) ≫ 4 else v).
Proof.
  intros Hwf Hu Hv Hf Hsize.
  assert (0 ≤ width im ≤ INT_MAX ∧ 0 ≤ height im ≤ INT_MAX) as [Hw Hh]
    by (destruct Hwf; lia).
  assert (2 ≤ factor ≤ 4) as Hrange by lia.
  assert (0 ≤ 2 * (width im `quot` factor) ≤ width im ∧
          0 ≤ 2 * (height im `quot` factor) ≤ height im) as [Hsw Hsh].
  { destruct Hf as [-> | [-> | ->]]; Z.to_euclidean_division_equations; lia. }
  destruct (image_u8_create_wf (width im `quot` factor) (height im `quot` factor))
    as (decim & Hcreate & Hwfd & Hdw & Hdh); [lia|lia|pow_consts; lia|done|].
  unfold image_u8_decimate. rewrite decide_False by lia.
  cbn zeta. rewrite Hcreate. cbn [mbind res_bind]. rewrite <- Hdw, <- Hdh.
  assert (∀ offsets shift,
            Forall (block_offset im factor) offsets →
            u8 (u32 (Z.of_nat (length offsets) * v) ≫ shift)
              = (if decide (factor = 4) then (12 * v) ≫ 4 else v) →
            ∃ d, decimate_unrolled im decim (width decim) (height decim)
                   offsets shift factor = Ok d ∧
                 uniform_pixels (set_buf decim d)
                   (if decide (factor = 4) then (12 * v) ≫ 4 else v)) as Hpath.
  { intros offsets shift Hoffs Hval.
    destruct (decimate_unrolled_uniform im decim factor offsets shift v)
      as (d & Hrun & _ & Hd); try done; [lia|].
    exists d. split; [done|]. intros x y Hx Hy. unfold pixel.
    cbn [set_buf buf stride width height] in *.
    rewrite Hd by (destruct Hwfd; lia). by rewrite decide_True, Hval by lia. }
  assert (∀ n s, 0 ≤ s → 0 ≤ n * v < 2 ^ 32 → 0 ≤ (n * v) `div` 2 ^ s < 256 →
                 u8 (u32 (n * v) ≫ s) = (n * v) `div` 2 ^ s) as Hbyte.
  { intros n s Hs H1 H2. by rewrite u32_small, Z.shiftr_div_pow2, u8_small. }
  destruct Hf as [-> | [-> | ->]].
  - rewrite decide_True by done.
    destruct (Hpath (offsets2 (stride im)) 2) as (d & -> & Hd);
      [unfold offsets2; block_offsets| |by exists (set_buf decim d)].
    cbn [length offsets2]. rewrite decide_False by done.
    rewrite Hbyte; pow_consts; change (2 ^ 2) with 4;
      Z.to_euclidean_division_equations; lia.
  - rewrite decide_False, decide_True by done.
    destruct (Hpath (offsets3 (stride im)) 3) as (d & -> & Hd);
      [unfold offsets3; block_offsets| |by exists (set_buf decim d)].
    cbn [length offsets3]. rewrite decide_False by done.
    rewrite Hbyte; pow_consts; change (2 ^ 3) with 8;
      Z.to_euclidean_division_equations; lia.
  - rewrite !decide_False, decide_True by done.
    destruct (Hpath (offsets4 (stride im)) 4) as (d & -> & Hd);
      [unfold offsets4; block_offsets| |by exists (set_buf decim d)].
    cbn [length offsets4]. rewrite decide_True by done.
    rewrite Hbyte, Z.shiftr_div_pow2; pow_consts; change (2 ^ 4) with 16;
      Z.to_euclidean_division_equations; lia.
Qed.

(** *** The generic path on a uniform Buffer whose size is a multiple of the factor *)

(** After [dy] whole source rows and [x] bytes of the next one, accumulator
    cell [c] has received [dy * factor] bytes plus those of the columns
    [c * factor ..] below [x]. *)
Lemma decimate_accumulate_uniform im factor v y swidth :
  wf_image im → uniform_pixels im v → 0 ≤ v < 256 →
  1 ≤ factor → 0 ≤ swidth → width im = swidth * factor →
  0 ≤ y → y + factor ≤ height im → 255 * (factor * factor) < 2 ^ 32 →
  ∃ row, for_upto factor
           (λ dy, for_upto (width im) (decimate_accumulate im factor y dy))
           (replicate (Z.to_nat swidth) 0) = Ok row ∧
         length row = Z.to_nat swidth ∧
         ∀ c, 0 ≤ c < swidth → row !! Z.to_nat c = Some (v * (factor * factor)).
Proof.
  intros Hwf Hu Hv Hf Hsw Hw Hy0 Hy1 Hacc.
  set (cells := λ (n : Z → Z) (row : list Z),
         length row = Z.to_nat swidth ∧
         ∀ c, 0 ≤ c < swidth → row !! Z.to_nat c = Some (v * n c)).
  destruct (for_upto_invariant
              (λ dy, cells (λ _, dy * factor))
              (λ dy, for_upto (width im) (decimate_accumulate im factor y dy))
              factor (replicate (Z.to_nat swidth) 0)) as (row & Hrun & Hl & Hrow).
  - lia.
  - split; [by rewrite length_replicate|]. intros c Hc.
    rewrite Z.mul_0_l, Z.mul_0_r. apply lookup_replicate. split; [done|lia].
  - intros dy row Hdy [Hl Hrow].
    destruct (for_upto_invariant
                (λ x, cells (λ c, dy * factor + Z.min factor (Z.max 0 (x - c * factor))))
                (decimate_accumulate im factor y dy) (width im) row)
      as (row' & Hrun & Hl' & Hrow').
    + destruct Hwf; lia.
    + split; [done|]. intros c Hc. rewrite Hrow by done. do 2 f_equal. nia.
    + intros x r [Hx0 Hx1] [Hrl Hr].
      set (cx := x `quot` factor).
      assert (0 ≤ cx < swidth ∧ cx * factor ≤ x < cx * factor + factor) as [Hcx Hin].
      { unfold cx. rewrite Z.quot_div_nonneg by lia.
        pose proof (Z.div_mod x factor ltac:(lia)).
        pose proof (Z.mod_pos_bound x factor ltac:(lia)).
        split; [split; [apply Z.div_pos; lia|apply Z.div_lt_upper_bound; lia]|nia]. }
      assert (width im ≤ stride im) as Hst by (by destruct Hwf).
      destruct (wf_index im x (y + dy) Hwf ltac:(lia) ltac:(lia)) as (Hi & _ & Hs).
      assert (s32 (y + dy) = y + dy) as Hyd
        by (destruct Hwf; apply s32_small; pow_consts; lia).
      unfold decimate_accumulate. fold cx. rewrite Hyd, Hs.
      rewrite (load_Ok Scratch r cx _ ltac:(lia) (Hr cx Hcx)). cbn [mbind res_bind].
      rewrite (load_Ok Src (buf im) _ v); [|lia|apply Hu; lia]. cbn [mbind res_bind].
      rewrite store_Ok by lia. eexists. split; [reflexivity|].
      split; [by rewrite length_insert|]. intros c Hc.
      rewrite lookup_insert_Z by lia. case_decide as Ec.
      * subst c. f_equal.
        rewrite !Z.max_r by lia. rewrite !Z.min_r by lia.
        set (k := dy * factor + (x - cx * factor)).
        assert (0 ≤ k ∧ k + 1 ≤ factor * factor) as [Hk0 Hk1] by (unfold k; nia).
        assert (0 ≤ v * k ∧ v * (k + 1) ≤ 255 * (factor * factor)) as [Hv0 Hv1] by nia.
        rewrite u32_small by (pow_consts; lia). unfold k. lia.
      * rewrite Hr by done. do 2 f_equal.
        assert (c < cx ∨ cx < c) as [Hlt|Hgt] by lia.
        -- assert ((c + 1) * factor ≤ cx * factor) by nia. lia.
        -- assert ((cx + 1) * factor ≤ c * factor) by nia. lia.
    + exists row'. split; [done|]. split; [done|]. intros c Hc.
      rewrite Hrow' by done. do 2 f_equal.
      assert ((c + 1) * factor ≤ swidth * factor) by nia. lia.
  - exists row. split; [done|]. split; [done|]. intros c Hc. by rewrite Hrow.
Qed.

(** The generic path, for any factor outside 2, 3, 4: when both dimensions
    are multiples of the factor and [255 * factor^2] fits the accumulator,
    every access is in bounds and a uniform Buffer stays uniform. *)
Lemma decimate_generic_path_uniform im factor v :
  wf_image im → uniform_pixels im v → 0 ≤ v < 256 →
  1 ≤ factor → factor ≠ 2 → factor ≠ 3 → factor ≠ 4 →
  (factor | width im) → (factor | height im) →
  255 * (factor * factor) < 2 ^ 32 →
  width im `quot` factor + 96 ≤ 2 ^ 31 →
  aligned_stride (width im `quot` factor) 96 * (height im `quot` factor) ≤ INT_MAX →
  ∃ d, image_u8_decimate im factor = Ok d ∧
       width d = width im `quot` factor ∧ height d = height im `quot` factor ∧
       uniform_pixels d v.
Proof.
  intros Hwf Hu Hv Hf H2 H3 H4 [sw Hsw] [sh Hsh] Hacc Hfit Hsize.
  assert (0 ≤ width im ≤ INT_MAX ∧ 0 ≤ height im ≤ INT_MAX) as [Hw Hh]
    by (destruct Hwf; lia).
  assert (width im `quot` factor = sw ∧ height im `quot` factor = sh) as [Eqw Eqh].
  { rewrite Hsw, Hsh. rewrite !Z.quot_mul by lia. done. }
  rewrite Eqw, Eqh in *.
  assert (0 ≤ sw ∧ 0 ≤ sh ≤ INT_MAX) as [Hsw0 Hsh0] by nia.
  destruct (image_u8_create_wf sw sh) as (decim & Hcreate & Hwfd & Hdw & Hdh);
    [lia|lia|lia|done|].
  unfold image_u8_decimate. rewrite decide_False by lia.
  cbn zeta. rewrite Eqw, Eqh, Hcreate. cbn [mbind res_bind].
  rewrite !decide_False by done.
  set (ds := stride decim).
  assert (sw ≤ ds ∧ Z.of_nat (length (buf decim)) = ds * sh ∧ ds * sh ≤ INT_MAX)
    as (Hds & Hdlen & Hdmax) by (destruct Hwfd; unfold ds; lia).
  set (inv := scanned sw ds sh (buf decim) (λ _ _ _, v) 0 0 (Z.to_nat sw)).
  unfold decimate_generic. rewrite decide_False by lia.
  unfold for_step.
  replace (Z.to_nat ((height im + factor - 1) `div` factor)) with (Z.to_nat sh).
  2:{ f_equal. apply Z.div_unique with (factor - 1); lia. }
  destruct (iterate_invariant (λ ky, inv ky O)
              (λ y d,
                 let row := replicate (Z.to_nat sw) 0 in
                 row ← for_upto factor
                         (λ dy, for_upto (width im) (decimate_accumulate im factor y dy))
                         row;
                 for_upto sw (decimate_emit decim factor y row) d)
              (Z.to_nat sh) 0 factor (buf decim)) as (d & Hrun & Hd).
  { apply scanned_start. }
  { intros ky d0 Hky Hsc. set (y := 0 + Z.of_nat ky * factor).
    assert (0 ≤ Z.of_nat ky < sh) as Hk by lia.
    assert (0 ≤ y ∧ y + factor ≤ height im) as [Hy0 Hy1] by (unfold y; nia).
    destruct (decimate_accumulate_uniform im factor v y sw)
      as (row & Hacc_run & Hrl & Hrow); [done || lia ..|].
    cbn zeta. rewrite Hacc_run. cbn [mbind res_bind].
    assert (y `quot` factor = Z.of_nat ky) as Hq
      by (unfold y; rewrite Z.add_0_l, Z.quot_mul by lia; done).
    destruct (for_upto_invariant (λ x d1, inv ky (Z.to_nat x) d1)
                (decimate_emit decim factor y row) sw d0) as (d1 & Hemit & Hd1);
      [lia|done| |].
    - intros x d1 Hx Hinv. pose proof (proj1 Hinv) as Hl1.
      destruct (scanned_store sw ds sh (buf decim) ltac:(lia) Hdlen (λ _ _ _, v)
                  0 0 (Z.to_nat sw) ky (Z.to_nat x) d1 x (Z.of_nat ky)
                  ltac:(lia) ltac:(lia) ltac:(unfold in_image; lia) Hinv)
        as (old & _ & Hi & Hnext).
      unfold decimate_emit. rewrite (load_Ok Scratch row x _ ltac:(lia) (Hrow x Hx)).
      cbn [mbind res_bind]. rewrite Hq. fold ds.
      assert (0 ≤ Z.of_nat ky * ds ≤ Z.of_nat ky * ds + x) by nia.
      rewrite (s32_small (Z.of_nat ky * ds)) by (pow_consts; lia).
      rewrite s32_small by (pow_consts; lia).
      rewrite store_Ok by lia. eexists. split; [reflexivity|].
      replace (Z.to_nat (x + 1)) with (S (Z.to_nat x)) by lia.
      replace (u8 ((v * (factor * factor)) `quot` sq factor)) with v; [done|].
      unfold sq. rewrite Z.quot_mul by nia. by rewrite u8_small.
    - exists d1. split; [done|]. by apply scanned_next_row. }
  erewrite bind_Ok by exact Hrun.
  exists (set_buf decim d). split_and!; try done.
  destruct (scanned_all sw ds sh (buf decim) (λ _ _ _, v) 0 0 (Z.to_nat sw)
              (Z.to_nat sh) d Hd) as [Hl Hpix].
  intros x y Hx Hy. unfold pixel. cbn [set_buf buf stride width height] in *.
  fold ds. rewrite Hpix by lia.
  pose proof (index_in_range ds sh x y ltac:(lia) ltac:(lia)) as Hi.
  destruct (lookup_lt_is_Some_2 (buf decim) (Z.to_nat (y * ds + x)) ltac:(lia))
    as [old Hold].
  rewrite Hold. by rewrite decide_True by lia.
Qed.

Ltac small_cases x lo hi :=
  let rec go n k :=
    lazymatch k with
    | O => exfalso; lia
    | S ?k' =>
        let E := fresh in
        destruct (decide (x = n)) as [E|E];
        [subst x|let n' := eval compute in (n + 1) in go n' k']
    end in
  let k := eval compute in (Z.to_nat (hi - lo)) in go lo k.

Lemma uniform_10_5_pixels : uniform_pixels (uniform 10 5 12 200 7) 200.
Proof.
  intros x y Hx Hy. cbn [width height uniform] in Hx, Hy.
  small_cases y 0 5; small_cases x 0 10; reflexivity.
Qed.

Lemma uniform_8_4_pixels : uniform_pixels (uniform 8 4 9 200 7) 200.
Proof.
  intros x y Hx Hy. cbn [width height uniform] in Hx, Hy.
  small_cases y 0 4; small_cases x 0 8; reflexivity.
Qed.

Example decimate_generic_5 :
  ∃ d, image_u8_decimate (uniform 10 5 12 200 7) 5 = Ok d ∧
       width d = 2 ∧ height d = 1 ∧ uniform_pixels d 200.
Proof.
  apply (decimate_generic_path_uniform (uniform 10 5 12 200 7) 5 200);
    try (by apply uniform_10_5_pixels); try concrete_wf; try done;
    try (vm_compute; discriminate).
  by exists 2.
Qed.

Example decimate_unrolled_2 :
  ∃ d, image_u8_decimate (uniform 8 4 9 200 7) 2 = Ok d ∧
       width d = 4 ∧ height d = 2 ∧ uniform_pixels d 200.
Proof.
  apply (decimate_unrolled_paths_uniform (uniform 8 4 9 200 7) 2 200);
    try (by apply uniform_8_4_pixels); try concrete_wf; try done;
    try (vm_compute; discriminate). by left.
Qed.

Example decimate_unrolled_4 :
  ∃ d, image_u8_decimate (uniform 8 4 9 200 7) 4 = Ok d ∧
       width d = 2 ∧ height d = 1 ∧ uniform_pixels d 150.
Proof.
  apply (decimate_unrolled_paths_uniform (uniform 8 4 9 200 7) 4 200);
    try (by apply uniform_8_4_pixels); try concrete_wf; try done;
    try (vm_compute; discriminate). by right; right.
Qed.

(** C1: decimating the 4 x 4 Buffer whose every pixel is 255 by factor 4
    yields the 1 x 1 Buffer whose pixel is 191, not 255. *)
Theorem C1_decimate4_uniform_darkens :
  wf_image (uniform 4 4 4 255 0) ∧
  outcome (image_u8_decimate (uniform 4 4 4 255 0) 4) = Some (1, 1, [[191]]).
Proof. split; [concrete_wf|vm_compute; reflexivity]. Qed.

(** C2: on the generic path a width that is not a multiple of the factor
    sends the remainder columns to [row[swidth]], one past the scratch
    accumulator; a height that is not a multiple of the factor makes the last
    band read source rows past the end of the array. *)
Theorem C2_decimate_generic_escapes :
  wf_image (uniform 6 5 6 255 0) ∧
  image_u8_decimate (uniform 6 5 6 255 0) 5 = Fault (Out_of_bounds Scratch 1) ∧
  wf_image (uniform 5 6 5 255 0) ∧
  image_u8_decimate (uniform 5 6 5 255 0) 5 = Fault (Out_of_bounds Src 30).
Proof. split_and!; try concrete_wf; vm_compute; reflexivity. Qed.

(** * Further properties of the code *)

(** ** copy *)

(** X1: the copy of a well-formed Buffer is that Buffer: the same width,
    height and stride and the same bytes, padding included. *)
Theorem copy_is_identical im :
  wf_image im → image_u8_copy im = Ok im.
Proof.
  intros Hwf. unfold image_u8_copy.
  assert (s32 (height im * stride im) = Z.of_nat (length (buf im))) as ->.
  { destruct Hwf as [? ? ? Hlen ? ? ?]. rewrite Hlen, (Z.mul_comm (height im)).
    apply s32_small. pow_consts. nia. }
  rewrite decide_False by lia. unfold load_range.
  rewrite decide_True by lia. cbn [mbind res_bind].
  rewrite Nat2Z.id, drop_0, firstn_all. by destruct im.
Qed.

Lemma copy_is_identical_witness : image_u8_copy sample_image = Ok sample_image.
Proof. exact (copy_is_identical sample_image sample_image_wf). Defined.

(** ** Loops that fault *)

Lemma iterate_preserves {S : Type} (P : S → Prop) (body : Z → S → res S)
    (n : nat) (start step : Z) (s s' : S) :
  (∀ i s s', P s → body i s = Ok s' → P s') →
  P s → iterate n start step body s = Ok s' → P s'.
Proof.
  intros Hpres. revert start s. induction n as [|n IH]; intros start s Hs; cbn [iterate].
  - by intros [= <-].
  - destruct (body start s) as [s1|f] eqn:Hb; [|done]. cbn [mbind res_bind].
    apply IH. by eapply Hpres.
Qed.

Lemma iterate_faults {S : Type} (P : S → Prop) (body : Z → S → res S)
    (n k : nat) (start step : Z) (s : S) :
  (k < n)%nat →
  (∀ i s s', P s → body i s = Ok s' → P s') →
  (∀ s, P s → ∃ f, body (start + Z.of_nat k * step) s = Fault f) →
  P s → ∃ f, iterate n start step body s = Fault f.
Proof.
  intros Hk Hpres. revert k start s Hk.
  induction n as [|n IH]; intros k start s Hk Hbad Hs; [lia|].
  cbn [iterate]. destruct k as [|k].
  - destruct (Hbad s Hs) as [f Hf].
    replace (start + Z.of_nat 0 * step) with start in Hf by lia.
    rewrite Hf. by exists f.
  - destruct (body start s) as [s1|f] eqn:Hb; [|by exists f]. cbn [mbind res_bind].
    apply (IH k); [lia| |by eapply Hpres].
    intros s2 Hs2. destruct (Hbad s2 Hs2) as [f Hf]. exists f.
    rewrite <- Hf. f_equal. lia.
Qed.

(** The exact fault of a loop: the iterations before the [k]-th return and
    the [k]-th stops with [f]. *)
Lemma iterate_fault_at {S : Type} (P : S → Prop) (body : Z → S → res S)
    (n k : nat) (start step : Z) (s : S) (f : fault) :
  (k < n)%nat →
  (∀ j s, (j < k)%nat → P s →
     ∃ s', body (start + Z.of_nat j * step) s = Ok s' ∧ P s') →
  (∀ s, P s → body (start + Z.of_nat k * step) s = Fault f) →
  P s → iterate n start step body s = Fault f.
Proof.
  revert k start s. induction n as [|n IH]; intros k start s Hk Hpre Hbad Hs; [lia|].
  cbn [iterate]. destruct k as [|k].
  - specialize (Hbad s Hs).
    replace (start + Z.of_nat 0 * step) with start in Hbad by lia.
    by rewrite Hbad.
  - destruct (Hpre O s ltac:(lia) Hs) as (s1 & Hb & Hs1).
    replace (start + Z.of_nat 0 * step) with start in Hb by lia.
    rewrite Hb. cbn [mbind res_bind].
    apply (IH k); [lia| | |done].
    + intros j s2 Hj Hs2.
      destruct (Hpre (Datatypes.S j) s2 ltac:(lia) Hs2) as (s3 & Hb3 & Hs3).
      exists s3. split; [|done]. rewrite <- Hb3. f_equal. lia.
    + intros s2 Hs2. rewrite <- (Hbad s2 Hs2). f_equal. lia.
Qed.

(** ** draw_circle and draw_annulus *)

Lemma sample_circle_drawn :
  ∃ im', image_u8_draw_circle sample_image sample_ring 9 = Ok im' ∧
         width im' = width sample_image ∧ height im' = height sample_image ∧
         stride im' = stride sample_image ∧
         length (buf im') = length (buf sample_image) ∧
         ∀ x y, 0 ≤ x < stride sample_image → 0 ≤ y < height sample_image →
           pixel im' x y =
             if decide (x < width sample_image ∧
                        circle_x sample_ring ≤ x
                          < circle_x sample_ring + Z.of_nat (circle_nx sample_ring) ∧
                        circle_y sample_ring ≤ y
                          < circle_y sample_ring + Z.of_nat (circle_ny sample_ring))
             then (λ old, if circle_inside sample_ring x y then u8 9 else old)
                    <$> pixel sample_image x y
             else pixel sample_image x y.
Proof. exact (draw_circle_clipped sample_image sample_ring 9 sample_image_wf). Defined.

(** X3: when the rectangle the loops scan lies inside the image,
    [draw_annulus] returns and sets exactly the scanned pixels that pass the
    ring test; every other byte is unchanged. *)
Theorem draw_annulus_inside im c v :
  wf_image im →
  0 ≤ circle_x c → circle_x c + Z.of_nat (circle_nx c) ≤ width im →
  0 ≤ circle_y c → circle_y c + Z.of_nat (circle_ny c) ≤ height im →
  ∃ im', image_u8_draw_annulus im true c v = Ok im' ∧
         width im' = width im ∧ height im' = height im ∧
         stride im' = stride im ∧ length (buf im') = length (buf im) ∧
         ∀ x y, 0 ≤ x < stride im → 0 ≤ y < height im →
           pixel im' x y =
             if decide (circle_x c ≤ x < circle_x c + Z.of_nat (circle_nx c) ∧
                        circle_y c ≤ y < circle_y c + Z.of_nat (circle_ny c) ∧
                        circle_inside c x y = true)
             then Some (u8 v)
             else pixel im x y.
Proof.
  intros Hwf Hx0 Hx1 Hy0 Hy1.
  destruct (scan_result (width im) (stride im) (height im) (buf im)
              ltac:(destruct Hwf; lia) ltac:(by destruct Hwf)
              (λ x y old, if circle_inside c x y then u8 v else old)
              (draw_annulus_pixel im c v)
              (circle_x c) (circle_y c) (circle_nx c) (circle_ny c))
    as (b & Hrun & Hl & Hb).
  - intros b x y old Hx Hy [Hxi Hyi] Hlen Hold.
    destruct (wf_index im x y Hwf ltac:(destruct Hwf; lia) Hyi) as (Hi & _ & Hs).
    unfold draw_annulus_pixel. destruct (circle_inside c x y); cbn [negb].
    + rewrite Hs. apply store_Ok. rewrite Hlen. lia.
    + by rewrite list_insert_id.
  - intros b x y Hx Hy Hout. exfalso. apply Hout. unfold in_image. lia.
  - exists (set_buf im b). split_and!; try done.
    { unfold image_u8_draw_annulus. by rewrite Hrun. }
    intros x y Hx Hy. unfold pixel. cbn [set_buf buf stride]. rewrite Hb by done.
    pose proof (index_in_range (stride im) (height im) x y Hx Hy) as Hi.
    destruct (lookup_lt_is_Some_2 (buf im) (Z.to_nat (y * stride im + x)))
      as [old Hold]; [destruct Hwf; lia|].
    rewrite Hold. cbn. destruct (circle_inside c x y) eqn:E;
      repeat case_decide; try done; exfalso; lia.
Qed.

Lemma draw_annulus_inside_witness :
  ∃ im', image_u8_draw_annulus sample_image true sample_ring 9 = Ok im' ∧
         width im' = width sample_image ∧ height im' = height sample_image ∧
         stride im' = stride sample_image ∧
         length (buf im') = length (buf sample_image) ∧
         ∀ x y, 0 ≤ x < stride sample_image → 0 ≤ y < height sample_image →
           pixel im' x y =
             if decide (circle_x sample_ring ≤ x
                          < circle_x sample_ring + Z.of_nat (circle_nx sample_ring) ∧
                        circle_y sample_ring ≤ y
                          < circle_y sample_ring + Z.of_nat (circle_ny sample_ring) ∧
                        circle_inside sample_ring x y = true)
             then Some (u8 9)
             else pixel sample_image x y.
Proof.
  apply (draw_annulus_inside sample_image sample_ring 9 sample_image_wf); cbn; lia.
Defined.

(** X4: [draw_annulus] has no bounds test.  At the first scanned coordinate
    (rows from the top, each from the left) that passes the ring test and
    whose index [y*stride + x] lies outside the array, the call stores
    outside the array: the run stops with an out-of-bounds access to the
    destination at exactly that index. *)
Theorem draw_annulus_unclipped im c v (kx ky : nat) :
  (kx < circle_nx c)%nat → (ky < circle_ny c)%nat →
  circle_inside c (circle_x c + Z.of_nat kx) (circle_y c + Z.of_nat ky) = true →
  ¬ (0 ≤ s32 (s32 ((circle_y c + Z.of_nat ky) * stride im) + (circle_x c + Z.of_nat kx))
       < Z.of_nat (length (buf im))) →
  (∀ jx jy : nat,
     (jx < circle_nx c)%nat → (jy < ky ∨ jy = ky ∧ jx < kx)%nat →
     circle_inside c (circle_x c + Z.of_nat jx) (circle_y c + Z.of_nat jy) = true →
     0 ≤ s32 (s32 ((circle_y c + Z.of_nat jy) * stride im) + (circle_x c + Z.of_nat jx))
       < Z.of_nat (length (buf im))) →
  image_u8_draw_annulus im true c v =
    Fault (Out_of_bounds Dest
             (s32 (s32 ((circle_y c + Z.of_nat ky) * stride im)
                   + (circle_x c + Z.of_nat kx)))).
Proof.
  intros Hkx Hky Hring Hbad Hfirst.
  set (P := λ b : list Z, length b = length (buf im)).
  assert (∀ (jx jy : nat) b,
            (jx < circle_nx c)%nat → (jy < ky ∨ jy = ky ∧ jx < kx)%nat → P b →
            ∃ b', draw_annulus_pixel im c v (circle_y c + Z.of_nat jy * 1)
                    (circle_x c + Z.of_nat jx * 1) b = Ok b' ∧ P b') as Hok.
  { intros jx jy b Hjx Hj Hb. rewrite !Z.mul_1_r. unfold draw_annulus_pixel.
    destruct (circle_inside c (circle_x c + Z.of_nat jx) (circle_y c + Z.of_nat jy))
      eqn:E; cbn [negb]; [|by exists b].
    rewrite store_Ok by (unfold P in Hb; rewrite Hb; by apply Hfirst).
    eexists. split; [done|]. unfold P. by rewrite length_insert. }
  unfold image_u8_draw_annulus.
  rewrite (iterate_fault_at P _ _ ky _ _ _
             (Out_of_bounds Dest
                (s32 (s32 ((circle_y c + Z.of_nat ky) * stride im)
                      + (circle_x c + Z.of_nat kx))))); try done.
  - intros jy b Hjy Hb.
    destruct (iterate_invariant (λ _, P)
                (draw_annulus_pixel im c v (circle_y c + Z.of_nat jy * 1))
                (circle_nx c) (circle_x c) 1 b Hb) as (b' & Hrun & Hb').
    { intros jx b1 Hjx Hb1. apply Hok; [done|lia|done]. }
    by exists b'.
  - intros b Hb. apply (iterate_fault_at P _ _ kx); try done.
    + intros jx b1 Hjx Hb1. apply Hok; [lia|lia|done].
    + intros b1 Hb1. rewrite !Z.mul_1_r. unfold draw_annulus_pixel.
      rewrite Hring. cbn [negb]. unfold store. rewrite Hb1.
      by rewrite decide_False.
Qed.

Lemma draw_annulus_unclipped_witness :
  image_u8_draw_annulus sample_image true stray_ring 9 = Fault (Out_of_bounds Dest 7).
Proof.
  apply (draw_annulus_unclipped sample_image stray_ring 9 1 1).
  - cbn. lia.
  - cbn. lia.
  - reflexivity.
  - vm_compute. intros [H1 H2]. discriminate.
  - intros jx jy Hjx Hj Hring. cbn in Hjx.
    destruct jx as [|[|jx]]; [discriminate Hring| |lia].
    destruct jy as [|jy]; [vm_compute; split; [discriminate|reflexivity]|lia].
Defined.

(** ** draw_line, width at most 1 *)

Lemma draw_line_thin_point im v lwidth b px py :
  wf_image im → lwidth ≤ 1 → length b = length (buf im) →
  draw_line_point im v lwidth b (px, py) =
    Ok (if decide (0 ≤ px < width im ∧ 0 ≤ py < height im)
        then <[Z.to_nat (py * stride im + px) := u8 v]> b else b).
Proof.
  intros Hwf Hthin Hlen. unfold draw_line_point.
  case_bool_decide as Hg.
  - rewrite decide_False by lia. done.
  - rewrite decide_True by lia.
    destruct (wf_index im px py Hwf ltac:(destruct Hwf; lia) ltac:(lia))
      as (Hi & _ & Hs).
    rewrite Hs, store_Ok by (rewrite Hlen; lia). cbn [mbind res_bind].
    by rewrite bool_decide_eq_false_2 by lia.
Qed.

Lemma draw_line_thin_run im v lwidth walk b :
  wf_image im → lwidth ≤ 1 → length b = length (buf im) →
  ∃ b', for_each (draw_line_point im v lwidth) walk b = Ok b' ∧
        length b' = length (buf im) ∧
        ∀ x y, 0 ≤ x < stride im → 0 ≤ y < height im →
          b' !! Z.to_nat (y * stride im + x) =
            if decide (x < width im ∧ (x, y) ∈ walk) then Some (u8 v)
            else b !! Z.to_nat (y * stride im + x).
Proof.
  intros Hwf Hthin. revert b. induction walk as [|[px py] walk IH]; intros b Hlen.
  - exists b. split_and!; try done. intros x y Hx Hy.
    rewrite decide_False; [done|]. intros [_ H]. by apply elem_of_nil in H.
  - cbn [for_each]. rewrite draw_line_thin_point by done. cbn [mbind res_bind].
    case_decide as Hg.
    + destruct (wf_index im px py Hwf ltac:(destruct Hwf; lia) ltac:(lia))
        as (Hi & _ & Hs).
      destruct (IH (<[Z.to_nat (py * stride im + px) := u8 v]> b)
                  ltac:(by rewrite length_insert)) as (b' & Hrun & Hl & Hb).
      exists b'. split_and!; [exact Hrun|done|]. intros x y Hx Hy. rewrite Hb by done.
      destruct (decide (x = px ∧ y = py)) as [[-> ->]|Hne].
      * rewrite list_lookup_insert_eq by lia.
        rewrite (decide_True (P := _ ∧ (px, py) ∈ (px, py) :: walk))
          by (split; [lia|apply list_elem_of_here]).
        by case_decide.
      * rewrite list_lookup_insert_ne.
        { apply decide_ext. rewrite elem_of_cons. split; [tauto|].
          intros [Hw [[= -> ->]|Hin]]; [exfalso; by apply Hne|done]. }
        intros Heq. apply Hne.
        pose proof (index_in_range (stride im) (height im) x y Hx Hy).
        destruct (index_inj (stride im) px py x y) as [-> ->];
          [destruct Hwf; lia|lia|lia|lia|lia|done].
    + destruct (IH b Hlen) as (b' & Hrun & Hl & Hb).
      exists b'. split_and!; [exact Hrun|done|]. intros x y Hx Hy. rewrite Hb by done.
      apply decide_ext. rewrite elem_of_cons. split; [tauto|].
      intros [Hw [[= -> ->]|Hin]]; [exfalso; lia|done].
Qed.

(** X5: with [width <= 1], for every walk that ends, [draw_line] stays
    inside the array and sets exactly the pixels of the walk that lie in the
    image; steps outside the image are skipped and every other byte, padding
    included, is unchanged. *)
Theorem draw_line_thin_exact im walk v lwidth :
  wf_image im → lwidth ≤ 1 →
  ∃ im', image_u8_draw_line im walk v lwidth = Ok im' ∧
         width im' = width im ∧ height im' = height im ∧
         stride im' = stride im ∧ length (buf im') = length (buf im) ∧
         ∀ x y, 0 ≤ x < stride im → 0 ≤ y < height im →
           pixel im' x y =
             if decide (x < width im ∧ (x, y) ∈ walk) then Some (u8 v)
             else pixel im x y.
Proof.
  intros Hwf Hthin.
  destruct (draw_line_thin_run im v lwidth walk (buf im) Hwf Hthin eq_refl)
    as (b & Hrun & Hl & Hb).
  exists (set_buf im b). split_and!; try done.
  unfold image_u8_draw_line. by rewrite Hrun.
Qed.

Lemma draw_line_thin_exact_witness :
  ∃ im', image_u8_draw_line sample_image [(0, 0); (1, 1); (2, 2)] 300 1 = Ok im' ∧
         width im' = width sample_image ∧ height im' = height sample_image ∧
         stride im' = stride sample_image ∧
         length (buf im') = length (buf sample_image) ∧
         ∀ x y, 0 ≤ x < stride sample_image → 0 ≤ y < height sample_image →
           pixel im' x y =
             if decide (x < width sample_image ∧ (x, y) ∈ [(0, 0); (1, 1); (2, 2)])
             then Some (u8 300)
             else pixel sample_image x y.
Proof.
  apply (draw_line_thin_exact sample_image _ 300 1 sample_image_wf). lia.
Defined.

(** ** decimate: the unrolled paths on any content *)

Lemma elem_byte im i :
  wf_image im → 0 ≤ elem (buf im) i < 256.
Proof.
  intros Hwf. unfold elem.
  destruct (buf im !! Z.to_nat i) as [v|] eqn:Hv; cbn; [|lia].
  destruct Hwf as [_ _ _ _ _ Hb _].
  exact (Forall_lookup_1 _ _ _ _ Hb Hv).
Qed.




Lemma Forall_by_pixels (P : Z → Prop) st h (b : list Z) :
  0 ≤ st → Z.of_nat (length b) = st * h →
  (∀ x y v, 0 ≤ x < st → 0 ≤ y < h → b !! Z.to_nat (y * st + x) = Some v → P v) →
  Forall P b.
Proof.
  intros Hst Hlen Hpix. apply Forall_lookup_2. intros i v Hv.
  pose proof (lookup_lt_Some _ _ _ Hv) as Hi.
  assert (0 < st) as Hpos by (destruct (decide (st = 0)) as [->|]; lia).
  pose proof (Z.div_mod (Z.of_nat i) st ltac:(lia)) as Hdm.
  pose proof (Z.mod_pos_bound (Z.of_nat i) st Hpos) as Hm.
  apply (Hpix (Z.of_nat i `mod` st) (Z.of_nat i `div` st)); [done| |].
  - split; [apply Z.div_pos; lia|apply Z.div_lt_upper_bound; lia].
  - replace (Z.of_nat i `div` st * st + Z.of_nat i `mod` st) with (Z.of_nat i) by lia.
    by rewrite Nat2Z.id.
Qed.

Lemma image_u8_create_zero w h d :
  image_u8_create w h = Ok d → Forall (λ b, b = 0) (buf d).
Proof.
  unfold image_u8_create, image_u8_create_alignment.
  case_decide; [done|]. intros [= <-]. cbn [buf image_u8_create_stride].
  apply Forall_forall. intros b Hb. by apply elem_of_replicate in Hb as [-> _].
Qed.













(** ** decimate: the generic path on any content *)






Lemma pixel_at_byte im x y : wf_image im → 0 ≤ pixel_at im x y ≤ 255.
Proof. intros Hwf. pose proof (elem_byte im (y * stride im + x) Hwf). unfold pixel_at. lia. Qed.









(** *** The generic path on dimensions that are not multiples *)

Lemma load_past_end r (m : list Z) i :
  Z.of_nat (length m) ≤ i → load r m i = Fault (Out_of_bounds r i).
Proof.
  intros Hi. unfold load. case_decide; [|done].
  by rewrite lookup_ge_None_2 by lia.
Qed.

Lemma res_bind_Ok {A B : Type} (a : A) (k : A → res B) : (Ok a ≫= k) = k a.
Proof. reflexivity. Qed.

Lemma res_bind_Fault {A B : Type} (f : fault) (k : A → res B) :
  (Fault f ≫= k) = Fault f.
Proof. reflexivity. Qed.

Lemma decimate_accumulate_Ok im factor y dy x row :
  wf_image im → 1 ≤ factor → 0 ≤ x < width im → 0 ≤ y + dy < height im →
  x `quot` factor < Z.of_nat (length row) →
  ∃ row', decimate_accumulate im factor y dy x row = Ok row' ∧
          length row' = length row.
Proof.
  intros Hwf Hf Hx Hy Hc.
  assert (0 ≤ x `quot` factor) as Hq by (apply Z.quot_pos; lia).
  destruct (wf_index im x (y + dy) Hwf ltac:(destruct Hwf; lia) Hy) as (Hi & _ & Hs).
  assert (s32 (y + dy) = y + dy) as Hyd
    by (destruct Hwf; apply s32_small; pow_consts; lia).
  unfold decimate_accumulate. rewrite Hyd, Hs.
  destruct (lookup_lt_is_Some_2 row (Z.to_nat (x `quot` factor)) ltac:(lia)) as [r Hr].
  rewrite (load_Ok Scratch row _ r) by done. rewrite res_bind_Ok.
  rewrite (load_Ok Src (buf im) _ (pixel_at im x (y + dy)));
    [|lia|symmetry; apply elem_lookup; lia].
  rewrite res_bind_Ok, store_Ok by lia.
  eexists. split; [done|]. by rewrite length_insert.
Qed.

Lemma decimate_row_Ok im factor y dy sw row :
  wf_image im → 1 ≤ factor → width im ≤ sw * factor → 0 ≤ y + dy < height im →
  length row = Z.to_nat sw →
  ∃ row', for_upto (width im) (decimate_accumulate im factor y dy) row = Ok row' ∧
          length row' = Z.to_nat sw.
Proof.
  intros Hwf Hf Hw Hy Hrow.
  apply (for_upto_invariant (λ _ r, length r = Z.to_nat sw));
    [by destruct Hwf|done|].
  intros x r Hx Hr.
  destruct (decimate_accumulate_Ok im factor y dy x r) as (r' & Hrun & Hl);
    try done.
  { rewrite Z.quot_div_nonneg by lia.
    assert (x `div` factor < sw) by (apply Z.div_lt_upper_bound; lia). lia. }
  exists r'. split; [done|]. by rewrite Hl.
Qed.

Lemma decimate_emit_Ok decim factor y row x d :
  0 ≤ x < Z.of_nat (length row) →
  0 ≤ s32 (s32 (y `quot` factor * stride decim) + x) < Z.of_nat (length d) →
  ∃ d', decimate_emit decim factor y row x d = Ok d' ∧ length d' = length d.
Proof.
  intros Hx Hi. unfold decimate_emit.
  destruct (lookup_lt_is_Some_2 row (Z.to_nat x) ltac:(lia)) as [r Hr].
  rewrite (load_Ok Scratch row _ r) by (lia || done). rewrite res_bind_Ok.
  rewrite store_Ok by done. eexists. split; [done|]. by rewrite length_insert.
Qed.

(** A width that is not a multiple of the factor: in the first source row
    the column [swidth * factor] is added to entry [swidth] of the scratch
    row, which has [swidth] entries. *)
Lemma decimate_ragged_width im factor :
  wf_image im → 1 ≤ height im →
  1 ≤ factor → factor ≠ 2 → factor ≠ 3 → factor ≠ 4 →
  ¬ (factor | width im) →
  image_u8_decimate im factor
    = Fault (Out_of_bounds Scratch (width im `quot` factor)).
Proof.
  intros Hwf Hh Hf H2 H3 H4 Hnd.
  assert (0 ≤ width im) as Hw by (by destruct Hwf).
  set (sw := width im `quot` factor).
  assert (0 ≤ sw ∧ sw * factor < width im) as [Hsw Hrem].
  { unfold sw. rewrite Z.quot_div_nonneg by lia.
    pose proof (Z.div_mod (width im) factor ltac:(lia)) as Hdm.
    pose proof (Z.mod_pos_bound (width im) factor ltac:(lia)) as Hm.
    assert (width im `mod` factor ≠ 0) as Hne.
    { intros E. apply Hnd. exists (width im `div` factor). lia. }
    split; [apply Z.div_pos; lia|nia]. }
  unfold image_u8_decimate. rewrite decide_False by lia. cbn zeta. fold sw.
  unfold image_u8_create, image_u8_create_alignment.
  rewrite decide_False by done. rewrite res_bind_Ok.
  rewrite !decide_False by done.
  unfold decimate_generic. rewrite decide_False by lia.
  unfold for_step, for_upto.
  rewrite (iterate_fault_at (λ _ : list Z, True) _ _ O _ _ _
             (Out_of_bounds Scratch sw)); try done.
  - assert (1 ≤ (height im + factor - 1) `div` factor)
      by (apply Z.div_le_lower_bound; lia). lia.
  - intros j d Hj. lia.
  - intros d _. cbv zeta.
    rewrite (iterate_fault_at (λ row : list Z, length row = Z.to_nat sw) _ _ O _ _ _
               (Out_of_bounds Scratch sw)); try done.
    + lia.
    + intros j row Hj. lia.
    + intros row Hrow.
      apply (iterate_fault_at (λ row : list Z, length row = Z.to_nat sw) _ _
               (Z.to_nat (sw * factor))); try done.
      * lia.
      * intros j row1 Hj Hrow1.
        destruct (decimate_accumulate_Ok im factor (0 + Z.of_nat 0 * factor)
                    (0 + Z.of_nat 0 * 1) (0 + Z.of_nat j * 1) row1)
          as (row2 & Hrun & Hl); try done; try lia.
        { rewrite Z.quot_div_nonneg by lia.
          assert ((0 + Z.of_nat j * 1) `div` factor < sw)
            by (apply Z.div_lt_upper_bound; lia). lia. }
        exists row2. split; [done|]. by rewrite Hl.
      * intros row1 Hrow1. rewrite Z2Nat.id by nia.
        replace (0 + sw * factor * 1) with (sw * factor) by lia.
        unfold decimate_accumulate. rewrite Z.quot_mul by lia.
        rewrite (load_past_end Scratch row1 sw)
          by (rewrite Hrow1, Z2Nat.id by exact Hsw; apply Z.le_refl).
        done.
    + by rewrite length_replicate.
Qed.

(** A height that is not a multiple of the factor, under a width that is:
    the bands that lie inside the source are reduced and stored, and the
    last band starts to add the source row [height], the first one beyond
    the array. *)
Lemma decimate_ragged_height im factor :
  wf_image im → 1 ≤ width im →
  1 ≤ factor → factor ≠ 2 → factor ≠ 3 → factor ≠ 4 →
  (factor | width im) → ¬ (factor | height im) →
  aligned_stride (width im `quot` factor) 96 * (height im `quot` factor) ≤ INT_MAX →
  image_u8_decimate im factor
    = Fault (Out_of_bounds Src (height im * stride im)).
Proof.
  intros Hwf Hw Hf H2 H3 H4 [sw Hsw] Hnd Hsize.
  assert (0 ≤ height im ∧ width im ≤ stride im ∧ stride im * height im ≤ INT_MAX ∧
          Z.of_nat (length (buf im)) = stride im * height im)
    as (Hh0 & Hst & Hmax & Hlen) by (destruct Hwf; lia).
  assert (factor ≠ 1) as H1.
  { intros ->. apply Hnd. apply Z.divide_1_l. }
  set (q := height im `div` factor). set (r := height im `mod` factor).
  assert (0 ≤ q ∧ 0 < r < factor ∧ height im = q * factor + r) as (Hq & Hr & Hh).
  { unfold q, r.
    pose proof (Z.div_mod (height im) factor ltac:(lia)) as Hdm.
    pose proof (Z.mod_pos_bound (height im) factor ltac:(lia)) as Hm.
    assert (height im `mod` factor ≠ 0) as Hne.
    { intros E. apply Hnd. exists (height im `div` factor). lia. }
    split_and!; [apply Z.div_pos; lia|lia|lia|lia]. }
  assert (height im `quot` factor = q) as Eqh
    by (unfold q; apply Z.quot_div_nonneg; lia).
  clearbody q r.
  assert (width im `quot` factor = sw) as Eqw by (rewrite Hsw; apply Z.quot_mul; lia).
  rewrite Eqw, Eqh in Hsize.
  assert (1 ≤ sw) as Hsw1 by nia.
  assert ((height im + factor - 1) `div` factor = q + 1) as Hcount.
  { symmetry. apply Z.div_unique with (r - 1); lia. }
  destruct (image_u8_create_wf sw q) as (decim & Hcreate & Hwfd & Hdw & Hdh);
    [lia|unfold INT_MAX in *; nia|unfold INT_MAX in *; pow_consts; nia|done|].
  unfold image_u8_decimate. rewrite decide_False by lia. cbn zeta.
  rewrite Eqw, Eqh, Hcreate, res_bind_Ok.
  rewrite !decide_False by done.
  unfold decimate_generic. rewrite decide_False by lia.
  unfold for_step. rewrite Hcount.
  rewrite (iterate_fault_at (λ d : list Z, length d = length (buf decim)) _ _
             (Z.to_nat q) _ _ _ (Out_of_bounds Src (height im * stride im)));
    try done; [lia| |].
  - intros j d Hj Hd. cbv zeta. set (y := 0 + Z.of_nat j * factor).
    assert (0 ≤ y ∧ y + factor ≤ q * factor) as [Hy0 Hy1] by (unfold y; nia).
    destruct (for_upto_invariant (λ _ row, length row = Z.to_nat sw)
                (λ dy, for_upto (width im) (decimate_accumulate im factor y dy))
                factor (replicate (Z.to_nat sw) 0)) as (row & Hrows & Hrow).
    { lia. }
    { by rewrite length_replicate. }
    { intros dy row Hdy Hrow.
      apply (decimate_row_Ok im factor y dy sw); try done; lia. }
    rewrite Hrows, res_bind_Ok.
    apply (for_upto_invariant (λ _ d, length d = length (buf decim))); [lia|done|].
    intros x d1 Hx Hd1.
    assert (y `quot` factor = Z.of_nat j) as Hyq
      by (unfold y; rewrite Z.add_0_l; apply Z.quot_mul; lia).
    destruct (wf_index decim x (Z.of_nat j) Hwfd) as (Hi & _ & Hs);
      [destruct Hwfd; lia|lia|].
    destruct (decimate_emit_Ok decim factor y row x d1) as (d2 & Hrun & Hl).
    { lia. }
    { rewrite Hyq, Hs, Hd1. lia. }
    exists d2. split; [done|]. by rewrite Hl.
  - intros d Hd. cbv zeta. rewrite Z2Nat.id by done. set (y := 0 + q * factor).
    unfold for_upto.
    rewrite (iterate_fault_at (λ row : list Z, length row = Z.to_nat sw) _ _
               (Z.to_nat r) _ _ _ (Out_of_bounds Src (height im * stride im)));
      try done; [lia| | |by rewrite length_replicate].
    + intros j row Hj Hrow.
      apply (decimate_row_Ok im factor y (0 + Z.of_nat j * 1) sw); try done;
        unfold y; lia.
    + intros row Hrow. rewrite Z2Nat.id by lia.
      destruct (Z.to_nat (width im)) as [|n] eqn:En; [lia|]. cbn [iterate].
      unfold decimate_accumulate.
      rewrite Z.quot_0_l by lia.
      destruct (lookup_lt_is_Some_2 row 0%nat ltac:(lia)) as [v Hv].
      rewrite (load_Ok Scratch row 0 v) by done. rewrite res_bind_Ok.
      replace (y + (0 + r * 1)) with (height im) by (unfold y; lia).
      rewrite (s32_small (height im)) by (unfold INT_MAX in *; pow_consts; nia).
      rewrite (s32_small (height im * stride im))
        by (unfold INT_MAX in *; pow_consts; nia).
      rewrite Z.add_0_r.
      rewrite (s32_small (height im * stride im))
        by (unfold INT_MAX in *; pow_consts; nia).
      rewrite load_past_end by lia. done.
Qed.

(** X12: on the generic path (a factor other than 2, 3 and 4) a non-empty
    Buffer whose width or height is not a multiple of the factor makes the
    call leave an array.  When the width is not a multiple, the first source
    row is added into entry [width/factor] of the scratch row, one past its
    end.  When the width is a multiple and the height is not, the complete
    bands are reduced and the last band reads the source from index
    [height*stride] on, one past its end.  The run stops at that
    out-of-bounds access. *)
Theorem decimate_generic_needs_multiples im factor :
  wf_image im → 1 ≤ width im → 1 ≤ height im →
  1 ≤ factor → factor ≠ 2 → factor ≠ 3 → factor ≠ 4 →
  ¬ ((factor | width im) ∧ (factor | height im)) →
  aligned_stride (width im `quot` factor) 96 * (height im `quot` factor) ≤ INT_MAX →
  image_u8_decimate im factor =
    Fault (if decide (width im `mod` factor = 0)
           then Out_of_bounds Src (height im * stride im)
           else Out_of_bounds Scratch (width im `quot` factor)).
Proof.
  intros Hwf Hw Hh Hf H2 H3 H4 Hnd Hsize.
  case_decide as Hdw.
  - apply Z.mod_divide in Hdw; [|lia].
    apply decimate_ragged_height; try done. intros Hdh. by apply Hnd.
  - apply decimate_ragged_width; try done.
    intros Hd. apply Hdw. apply Z.mod_divide; [lia|done].
Qed.

Lemma decimate_generic_needs_multiples_witness :
  image_u8_decimate (uniform 10 5 12 200 7) 7 = Fault (Out_of_bounds Scratch 1).
Proof.
  apply (decimate_generic_needs_multiples (uniform 10 5 12 200 7) 7);
    [concrete_wf|cbn; lia|cbn; lia|lia|lia|lia|lia| |vm_compute; discriminate].
  intros [[k Hk] _]. cbn in Hk. lia.
Defined.

Example decimate_ragged_height_5 :
  image_u8_decimate (uniform 10 7 12 200 7) 5 = Fault (Out_of_bounds Src 84).
Proof. reflexivity. Qed.

(** ** Filling a fresh Buffer pixel by pixel *)


(** A raster scan over a zeroed Buffer whose body stores [val x y] at pixel
    [(x, y)] leaves a well-formed Buffer with these pixels and zero
    padding. *)
Lemma fill_pixels (out : image_u8_t) (val : Z → Z → Z) body :
  wf_image out → Forall (λ b, b = 0) (buf out) →
  (∀ x y, 0 ≤ x < width out → 0 ≤ y < height out → 0 ≤ val x y < 256) →
  (∀ b x y, 0 ≤ x < width out → 0 ≤ y < height out →
     length b = length (buf out) →
     body y x b = Ok (<[Z.to_nat (y * stride out + x) := val x y]> b)) →
  ∃ b, for_upto (height out) (λ y, for_upto (width out) (body y)) (buf out) = Ok b ∧
       wf_image (set_buf out b) ∧
       ∀ x y, 0 ≤ x < stride out → 0 ≤ y < height out →
         pixel (set_buf out b) x y = Some (if decide (x < width out) then val x y else 0).
Proof.
  intros Hwf Hzero Hval Hbody.
  destruct (scan_result (width out) (stride out) (height out) (buf out)
              ltac:(destruct Hwf; lia) ltac:(by destruct Hwf)
              (λ x y _, val x y) body
              0 0 (Z.to_nat (width out)) (Z.to_nat (height out)))
    as (b & Hrun & Hl & Hb).
  - intros b x y old Hx Hy [Hxi Hyi] Hlen Hold. apply Hbody; try done.
  - intros b x y Hx Hy Hout. exfalso. apply Hout. unfold in_image. lia.
  - assert (∀ x y, 0 ≤ x < stride out → 0 ≤ y < height out →
              b !! Z.to_nat (y * stride out + x)
                = Some (if decide (x < width out) then val x y else 0)) as Hpix.
    { intros x y Hx Hy. rewrite Hb by done.
      pose proof (index_in_range (stride out) (height out) x y Hx Hy) as Hi.
      destruct (lookup_lt_is_Some_2 (buf out) (Z.to_nat (y * stride out + x)))
        as [old Hold]; [destruct Hwf; lia|].
      rewrite Hold. pose proof (Forall_lookup_1 _ _ _ _ Hzero Hold) as ->.
      cbn. repeat case_decide; try done; exfalso; lia. }
    exists b. split_and!; [exact Hrun| |exact Hpix].
    destruct Hwf as [? ? ? Hlen ? ? ?].
    split; cbn [set_buf width height stride buf]; try done; [by rewrite Hl|].
    apply (Forall_by_pixels _ (stride out) (height out)); [lia|by rewrite Hl|].
    intros x y v Hx Hy. rewrite Hpix by done. intros [= <-].
    case_decide; [apply Hval; lia|lia].
Qed.

(** ** rotate *)

Lemma rotate_spec im r pad :
  wf_image im →
  0 ≤ rot_width r → 0 ≤ rot_height r ≤ INT_MAX → rot_width r + 96 ≤ 2 ^ 31 →
  aligned_stride (rot_width r) 96 * rot_height r ≤ INT_MAX →
  ∃ out, image_u8_rotate im r pad = Ok out ∧ wf_image out ∧
         width out = rot_width r ∧ height out = rot_height r ∧
         ∀ ox oy, 0 ≤ ox < rot_width r → 0 ≤ oy < rot_height r →
           pixel out ox oy =
             let '(ix, iy) := rot_source r ox oy in
             if decide (0 ≤ ix < width im ∧ 0 ≤ iy < height im) then pixel im ix iy
             else Some (u8 pad).
Proof.
  intros Hwf Hw Hh Hfit Hsize.
  destruct (image_u8_create_wf (rot_width r) (rot_height r))
    as (out & Hcreate & Hwfo & Hdw & Hdh); try done.
  pose proof (image_u8_create_zero _ _ _ Hcreate) as Hzero.
  set (val := λ ox oy,
         let '(ix, iy) := rot_source r ox oy in
         if decide (0 ≤ ix < width im ∧ 0 ≤ iy < height im) then pixel_at im ix iy
         else u8 pad).
  destruct (fill_pixels out val (rotate_pixel im out r pad) Hwfo Hzero)
    as (b & Hrun & Hwfb & Hpix).
  - intros x y Hx Hy. unfold val. destruct (rot_source r x y) as [ix iy].
    case_decide.
    + pose proof (pixel_at_byte im ix iy Hwf). lia.
    + unfold u8. pose proof (Z.mod_pos_bound pad 256). lia.
  - intros b x y Hx Hy Hlen.
    destruct (wf_index out x y Hwfo ltac:(destruct Hwfo; lia) Hy) as (Hi & _ & Hs).
    unfold rotate_pixel, val. destruct (rot_source r x y) as [ix iy].
    rewrite Hs. case_bool_decide as Hin.
    + rewrite decide_True by lia.
      destruct (wf_index im ix iy Hwf ltac:(destruct Hwf; lia) ltac:(lia))
        as (Hii & _ & His).
      rewrite His.
      rewrite (load_Ok Src (buf im) _ (pixel_at im ix iy));
        [|lia|symmetry; apply elem_lookup; lia].
      cbn [mbind res_bind]. apply store_Ok. rewrite Hlen. lia.
    + rewrite decide_False by lia. apply store_Ok. rewrite Hlen. lia.
  - exists (set_buf out b). split_and!; try done.
    + unfold image_u8_rotate. rewrite Hcreate. cbn [mbind res_bind].
      rewrite <- Hdw, <- Hdh. by rewrite Hrun.
    + intros ox oy Hx Hy. rewrite Hpix by (destruct Hwfo; lia).
      rewrite decide_True by lia. unfold val.
      destruct (rot_source r ox oy) as [ix iy]. case_decide as Hin; [|done].
      unfold pixel_at, pixel. apply elem_lookup.
      pose proof (wf_index im ix iy Hwf ltac:(destruct Hwf; lia) ltac:(lia)). lia.
Qed.



(** *** Rotation by zero: exact floating-point steps *)

Lemma shift_left_succ m j : 0 ≤ j → shift_left m (Z.succ j) = xO (shift_left m j).
Proof.
  intros Hj. destruct j as [|p|p]; [done| |lia].
  unfold Z.succ. rewrite <- (Pos2Z.inj_add p 1). cbn [shift_left].
  by rewrite Pos.add_1_r, Pos.iter_succ.
Qed.

Lemma Zpos_shift_left m j : 0 ≤ j → Z.pos (shift_left m j) = Z.pos m * 2 ^ j.
Proof.
  revert j. apply natlike_ind; [cbn; lia|].
  intros j Hj IH. rewrite shift_left_succ, Pos2Z.inj_xO, IH, Z.pow_succ_r by done. lia.
Qed.

Lemma digits_shift_left m j :
  0 ≤ j → Z.pos (digits2_pos (shift_left m j)) = Z.pos (digits2_pos m) + j.
Proof.
  revert j. apply natlike_ind; [cbn; lia|].
  intros j Hj IH. rewrite shift_left_succ by done. cbn [digits2_pos].
  rewrite Pos2Z.inj_succ, IH. lia.
Qed.

Lemma shift_left_shift_left m i j : 0 ≤ i → 0 ≤ j → shift_left (shift_left m i) j = shift_left m (i + j).
Proof.
  intros Hi. revert j. apply natlike_ind; [by rewrite Z.add_0_r|].
  intros j Hj IH. rewrite Z.add_succ_r, !shift_left_succ by lia. by rewrite IH.
Qed.

Lemma digits_bound m n : 0 ≤ n → Z.pos m < 2 ^ n → Z.pos (digits2_pos m) ≤ n.
Proof.
  revert n. induction m as [m IH|m IH|]; intros n Hn Hlt; cbn [digits2_pos];
    rewrite ?Pos2Z.inj_succ.
  - destruct (decide (n = 0)) as [->|]; [cbn in Hlt; lia|].
    assert (Z.pos m < 2 ^ (n - 1)).
    { replace n with (Z.succ (n - 1)) in Hlt by lia.
      rewrite Z.pow_succ_r in Hlt by lia. lia. }
    specialize (IH (n - 1) ltac:(lia) ltac:(done)). lia.
  - destruct (decide (n = 0)) as [->|]; [cbn in Hlt; lia|].
    assert (Z.pos m < 2 ^ (n - 1)).
    { replace n with (Z.succ (n - 1)) in Hlt by lia.
      rewrite Z.pow_succ_r in Hlt by lia. lia. }
    specialize (IH (n - 1) ltac:(lia) ltac:(done)). lia.
  - destruct (decide (n = 0)) as [->|]; [cbn in Hlt; lia|lia].
Qed.

Lemma iter_pos_iter {A : Type} (f : A → A) (p : positive) (x : A) :
  SpecFloat.iter_pos f p x = Pos.iter f x p.
Proof.
  revert x. induction p as [p IH|p IH|]; intros x;
    cbn [SpecFloat.iter_pos Pos.iter]; [|by rewrite !IH|done].
  rewrite !IH. by rewrite !Pos.iter_swap.
Qed.

Lemma shr_1_shift_left m j :
  1 ≤ j → shr_1 (exact_record (Z.pos (shift_left m j))) = exact_record (Z.pos (shift_left m (j - 1))).
Proof.
  intros Hj. replace j with (Z.succ (j - 1)) at 1 by lia.
  by rewrite shift_left_succ by lia.
Qed.

Lemma iter_shr_shift_left m p j :
  Z.pos p ≤ j →
  Pos.iter shr_1 (exact_record (Z.pos (shift_left m j))) p = exact_record (Z.pos (shift_left m (j - Z.pos p))).
Proof.
  revert j. induction p as [|p IH] using Pos.peano_ind; intros j Hj.
  - cbn [Pos.iter]. by apply shr_1_shift_left.
  - rewrite Pos.iter_succ, IH by lia. rewrite shr_1_shift_left by lia.
    do 3 f_equal. lia.
Qed.

Lemma shr_shift_left m j e n :
  0 ≤ n ≤ j →
  shr (exact_record (Z.pos (shift_left m j))) e n = (exact_record (Z.pos (shift_left m (j - n))), e + n).
Proof.
  intros Hn. destruct n as [|p|p]; [| |lia].
  - by rewrite Z.sub_0_r, Z.add_0_r.
  - unfold shr. by rewrite iter_pos_iter, iter_shr_shift_left by lia.
Qed.

Section Exact.
Variables prec emax : Z.
Hypothesis Hprec : 0 < prec.

Lemma fexp_normal e : emin prec emax ≤ e - prec → fexp prec emax e = e - prec.
Proof. unfold fexp. lia. Qed.

(** A mantissa [m0 * 2^j] of at least [prec] digits, all below the first
    [prec] zero, is rounded without error. *)
Lemma round_aux_shift_left s m0 j e :
  0 ≤ j → Z.pos (digits2_pos m0) ≤ prec → prec ≤ Z.pos (digits2_pos m0) + j →
  emin prec emax ≤ e + (Z.pos (digits2_pos m0) + j - prec) ≤ emax - prec →
  binary_round_aux prec emax s (Z.pos (shift_left m0 j)) e loc_Exact
    = S754_finite s (shift_left m0 (prec - Z.pos (digits2_pos m0)))
        (e + (Z.pos (digits2_pos m0) + j - prec)).
Proof.
  intros Hj Hd Hlong He. set (d0 := Z.pos (digits2_pos m0)) in *.
  unfold binary_round_aux, shr_fexp. cbn [Zdigits2 shr_record_of_loc].
  rewrite digits_shift_left by done. fold d0.
  rewrite fexp_normal by lia.
  replace (d0 + j + e - prec - e) with (d0 + j - prec) by lia.
  change {| shr_m := Z.pos (shift_left m0 j); shr_r := false; shr_s := false |}
    with (exact_record (Z.pos (shift_left m0 j))).
  rewrite shr_shift_left by lia.
  cbn [exact_record shr_m loc_of_shr_record shr_r shr_s round_nearest_even Zdigits2
       shr_record_of_loc].
  rewrite digits_shift_left by lia. fold d0.
  rewrite fexp_normal by lia.
  replace (d0 + (j - (d0 + j - prec)) + (e + (d0 + j - prec)) - prec
           - (e + (d0 + j - prec))) with 0 by lia.
  cbn [shr shr_m].
  replace (j - (d0 + j - prec)) with (prec - d0) by lia.
  by rewrite (proj2 (Z.leb_le _ _)) by lia.
Qed.

(** Rounding [m0 * 2^j * 2^e] depends on [m0] and [e + j] only. *)
Lemma round_shift_left s m0 j e :
  0 ≤ j → Z.pos (digits2_pos m0) ≤ prec →
  emin prec emax ≤ e + j + Z.pos (digits2_pos m0) - prec ≤ emax - prec →
  binary_round prec emax s (shift_left m0 j) e
    = S754_finite s (shift_left m0 (prec - Z.pos (digits2_pos m0)))
        (e + j - (prec - Z.pos (digits2_pos m0))).
Proof.
  intros Hj Hd He. set (d0 := Z.pos (digits2_pos m0)) in *.
  unfold binary_round. rewrite digits_shift_left by done. fold d0.
  rewrite fexp_normal by lia. unfold shl_align.
  destruct (d0 + j + e - prec - e) as [|p|p] eqn:Ediff.
  - rewrite round_aux_shift_left by (fold d0; lia). fold d0. f_equal. lia.
  - rewrite round_aux_shift_left by (fold d0; lia). fold d0. f_equal. lia.
  - change (Pos.iter xO (shift_left m0 j) p) with (shift_left (shift_left m0 j) (Z.pos p)).
    rewrite shift_left_shift_left by lia.
    rewrite round_aux_shift_left by (fold d0; lia). fold d0. f_equal. lia.
Qed.


Lemma half_shift_range k : k ≠ 0 → Z.abs k < 2 ^ prec → 0 ≤ half_shift prec k < prec.
Proof.
  intros Hk Hlt. unfold half_shift.
  pose proof (digits_bound (Z.to_pos (Z.abs k)) prec ltac:(lia)
                ltac:(rewrite Z2Pos.id by lia; done)).
  lia.
Qed.

Lemma cond_Zopp_abs (k x : Z) :
  k ≠ 0 → cond_Zopp (k <? 0) (Z.pos (Z.to_pos (Z.abs k)) * x) = k * x.
Proof.
  intros Hk. rewrite Z2Pos.id by lia.
  destruct (Z.ltb_spec k 0); cbn [cond_Zopp]; lia.
Qed.

Hypothesis Hpe : prec ≤ emax.

(** The float of value [z * 2^E], for [z] of at most [prec] digits. *)
Lemma normalize_finite z E szero :
  z ≠ 0 → Z.abs z < 2 ^ prec → emin prec emax + prec - 1 ≤ E ≤ emax - prec →
  binary_normalize prec emax z E szero
    = S754_finite (z <? 0) (shift_left (Z.to_pos (Z.abs z)) (half_shift prec z)) (E - half_shift prec z).
Proof.
  intros Hz Hlt HE. pose proof (half_shift_range z Hz Hlt) as Ht. unfold half_shift in *.
  destruct z as [|a|a]; [done|..]; cbn [binary_normalize];
    [change (Z.to_pos (Z.abs (Z.pos a))) with a in *; change (Z.pos a <? 0) with false
    |change (Z.to_pos (Z.abs (Z.neg a))) with a in *; change (Z.neg a <? 0) with true].
  - pose proof (round_shift_left false a 0 E ltac:(lia) ltac:(lia) ltac:(lia)) as H.
    cbn [shift_left] in H. rewrite H. f_equal. lia.
  - pose proof (round_shift_left true a 0 E ltac:(lia) ltac:(lia) ltac:(lia)) as H.
    cbn [shift_left] in H. rewrite H. f_equal. lia.
Qed.

Lemma normalize_scaled z j E szero :
  z ≠ 0 → 0 ≤ j → Z.abs z < 2 ^ prec → emin prec emax + prec - 1 ≤ E ≤ emax - prec →
  binary_normalize prec emax (z * 2 ^ j) (E - j) szero
    = binary_normalize prec emax z E false.
Proof.
  intros Hz Hj Hlt HE. rewrite (normalize_finite z E false) by done.
  pose proof (half_shift_range z Hz Hlt) as Ht. unfold half_shift in *.
  destruct z as [|a|a]; [done|..];
    [change (Z.to_pos (Z.abs (Z.pos a))) with a in *; change (Z.pos a <? 0) with false
    |change (Z.to_pos (Z.abs (Z.neg a))) with a in *; change (Z.neg a <? 0) with true].
  - rewrite <- Zpos_shift_left by done. cbn [binary_normalize].
    rewrite round_shift_left by lia. f_equal. lia.
  - change (Z.neg a) with (- Z.pos a). rewrite Z.mul_opp_l, <- Zpos_shift_left by done.
    rewrite Pos2Z.opp_pos. cbn [binary_normalize].
    rewrite round_shift_left by lia. f_equal. lia.
Qed.

Hypothesis Hemin : emin prec emax + prec + 2 ≤ 0.

Lemma half_finite k :
  k ≠ 0 → Z.abs k < 2 ^ prec →
  half prec emax k = S754_finite (k <? 0) (shift_left (Z.to_pos (Z.abs k)) (half_shift prec k)) (-1 - half_shift prec k).
Proof. intros Hk Hlt. apply normalize_finite; [done|done|lia]. Qed.

Lemma half_opp k : k ≠ 0 → Z.abs k < 2 ^ prec → SFopp (half prec emax k) = half prec emax (- k).
Proof.
  intros Hk Hlt.
  rewrite !half_finite by lia. cbn [SFopp]. unfold half_shift. rewrite Z.abs_opp.
  f_equal. destruct (Z.ltb_spec k 0), (Z.ltb_spec (- k) 0); try done; lia.
Qed.

Lemma shl_align_fst m e e' : e' ≤ e → fst (shl_align m e e') = shift_left m (e - e').
Proof.
  intros He. unfold shl_align. destruct (e' - e) as [|p|p] eqn:E; cbn [fst].
  - by replace (e - e') with 0 by lia.
  - lia.
  - by replace (e - e') with (Z.pos p) by lia.
Qed.

Lemma aligned_half k ez :
  k ≠ 0 → Z.abs k < 2 ^ prec → ez ≤ -1 - half_shift prec k →
  cond_Zopp (k <? 0)
    (Z.pos (fst (shl_align (shift_left (Z.to_pos (Z.abs k)) (half_shift prec k)) (-1 - half_shift prec k) ez)))
    = k * 2 ^ (-1 - ez).
Proof.
  intros Hk Hlt He. pose proof (half_shift_range k Hk Hlt).
  rewrite shl_align_fst, shift_left_shift_left, Zpos_shift_left by lia.
  replace (half_shift prec k + (-1 - half_shift prec k - ez)) with (-1 - ez) by lia.
  by apply cond_Zopp_abs.
Qed.

Lemma half_scaled k j szero :
  0 ≤ j → Z.abs k < 2 ^ prec →
  binary_normalize prec emax (k * 2 ^ j) (-1 - j) szero
    = if decide (k = 0) then S754_zero szero else half prec emax k.
Proof.
  intros Hj Hlt. case_decide as Hk; [by subst|].
  apply normalize_scaled; [done|done|done|lia].
Qed.

Lemma half_add a b :
  Z.abs a < 2 ^ prec → Z.abs b < 2 ^ prec → Z.abs (a + b) < 2 ^ prec →
  SFadd prec emax (half prec emax a) (half prec emax b) = half prec emax (a + b).
Proof.
  intros Ha Hb Hab.
  destruct (decide (a = 0)) as [->|Ha0].
  { destruct (decide (b = 0)) as [->|Hb0]; [done|].
    rewrite Z.add_0_l. by rewrite (half_finite b). }
  destruct (decide (b = 0)) as [->|Hb0].
  { rewrite Z.add_0_r. by rewrite (half_finite a). }
  rewrite (half_finite a), (half_finite b) by done. cbn [SFadd].
  pose proof (half_shift_range a Ha0 Ha). pose proof (half_shift_range b Hb0 Hb).
  set (ez := Z.min (-1 - half_shift prec a) (-1 - half_shift prec b)).
  rewrite !aligned_half by (unfold ez; lia).
  rewrite <- Z.mul_add_distr_r.
  replace ez with (-1 - (-1 - ez)) at 2 by lia.
  rewrite half_scaled by (unfold ez; lia).
  by case_decide as E; [rewrite E|].
Qed.

Lemma half_sub a b :
  Z.abs a < 2 ^ prec → Z.abs b < 2 ^ prec → Z.abs (a - b) < 2 ^ prec →
  SFsub prec emax (half prec emax a) (half prec emax b) = half prec emax (a - b).
Proof.
  intros Ha Hb Hab.
  destruct (decide (b = 0)) as [->|Hb0].
  { rewrite Z.sub_0_r. destruct (decide (a = 0)) as [->|Ha0]; [done|].
    by rewrite (half_finite a). }
  destruct (decide (a = 0)) as [->|Ha0].
  { rewrite Z.sub_0_l, <- half_opp by done. by rewrite (half_finite b). }
  rewrite (half_finite a), (half_finite b) by done. cbn [SFsub].
  pose proof (half_shift_range a Ha0 Ha). pose proof (half_shift_range b Hb0 Hb).
  set (ez := Z.min (-1 - half_shift prec a) (-1 - half_shift prec b)).
  rewrite !aligned_half by (unfold ez; lia).
  rewrite <- Z.mul_sub_distr_r.
  replace ez with (-1 - (-1 - ez)) at 2 by lia.
  rewrite half_scaled by (unfold ez; lia).
  by case_decide as E; [rewrite E|].
Qed.

(** Sums with a zero of either sign. *)
Lemma half_add_zero_r a b :
  Z.abs a < 2 ^ prec → SFadd prec emax (half prec emax a) (S754_zero b) = half prec emax a.
Proof.
  intros Ha. destruct (decide (a = 0)) as [->|Ha0]; [by destruct b|].
  by rewrite (half_finite a).
Qed.

Lemma half_add_zero_l a b :
  Z.abs a < 2 ^ prec → SFadd prec emax (S754_zero b) (half prec emax a) = half prec emax a.
Proof.
  intros Ha. destruct (decide (a = 0)) as [->|Ha0]; [by destruct b|].
  by rewrite (half_finite a).
Qed.

Lemma half_sub_zero_r a b :
  Z.abs a < 2 ^ prec → SFsub prec emax (half prec emax a) (S754_zero b) = half prec emax a.
Proof.
  intros Ha. destruct (decide (a = 0)) as [->|Ha0]; [by destruct b|].
  by rewrite (half_finite a).
Qed.

Lemma half_mul_zero a b :
  Z.abs a < 2 ^ prec → ∃ b', SFmul prec emax (half prec emax a) (S754_zero b) = S754_zero b'.
Proof.
  intros Ha. destruct (decide (a = 0)) as [->|Ha0]; [by eexists|].
  rewrite (half_finite a) by done. by eexists.
Qed.

Lemma half_opp_mul_zero a b :
  Z.abs a < 2 ^ prec →
  ∃ b', SFmul prec emax (SFopp (half prec emax a)) (S754_zero b) = S754_zero b'.
Proof.
  intros Ha. destruct (decide (a = 0)) as [->|Ha0]; [by eexists|].
  rewrite (half_finite a) by done. by eexists.
Qed.

Lemma mul_shift_left (m : positive) j : 0 ≤ j → (m * shift_left 1 j)%positive = shift_left m j.
Proof.
  intros Hj. apply Pos2Z.inj. rewrite Pos2Z.inj_mul, !Zpos_shift_left by done. lia.
Qed.

Lemma half_mul_one a : Z.abs a < 2 ^ prec → SFmul prec emax (half prec emax a) (float_one prec) = half prec emax a.
Proof.
  intros Ha. destruct (decide (a = 0)) as [->|Ha0]; [done|].
  rewrite (half_finite a) by done. unfold float_one. cbn [SFmul].
  pose proof (half_shift_range a Ha0 Ha) as Ht.
  rewrite mul_shift_left by lia.
  assert (Z.pos (digits2_pos (shift_left (Z.to_pos (Z.abs a)) (half_shift prec a))) = prec) as Hd
    by (rewrite digits_shift_left by lia; unfold half_shift; lia).
  rewrite round_aux_shift_left by lia. rewrite Hd, Z.sub_diag, xorb_false_r.
  cbn [shift_left]. f_equal. lia.
Qed.

(** Conversion of an [int]. *)
Lemma of_int_half n :
  Z.abs (2 * n) < 2 ^ prec → binary_normalize prec emax n 0 false = half prec emax (2 * n).
Proof.
  intros Hn. destruct (decide (n = 0)) as [->|Hn0]; [done|].
  unfold half. rewrite (Z.mul_comm 2 n).
  rewrite <- (normalize_scaled n 1 0 false); [done|done|lia|lia|lia].
Qed.

(** Halving. *)
Lemma half_double n :
  n ≠ 0 → Z.abs (2 * n) < 2 ^ prec →
  half prec emax (2 * n) = S754_finite (n <? 0) (shift_left (Z.to_pos (Z.abs n)) (half_shift prec n)) (- half_shift prec n).
Proof.
  intros Hn0 Hn. rewrite <- of_int_half by done.
  rewrite normalize_finite by lia. done.
Qed.


Lemma div_core_two m e :
  Z.pos (digits2_pos m) = prec → emin prec emax ≤ e - 2 →
  SFdiv_core_binary prec emax (Z.pos m) e (Z.pos (shift_left 1 (prec - 1))) (2 - prec)
    = (Z.pos (shift_left m 1), e - 2, loc_Exact).
Proof.
  intros Hd He. unfold SFdiv_core_binary. cbn [Zdigits2].
  rewrite Hd, digits_shift_left by lia. cbn [digits2_pos].
  replace (Z.min (fexp prec emax (prec + e - (1 + (prec - 1) + (2 - prec))))
             (e - (2 - prec))) with (e - 2)
    by (rewrite fexp_normal by lia; lia).
  replace (e - (2 - prec) - (e - 2)) with prec by lia.
  destruct prec as [|p|p] eqn:Ep; [lia| |lia]. rewrite <- Ep.
  rewrite Z.shiftl_mul_pow2 by lia.
  assert (Z.pos (shift_left 1 (prec - 1)) = 2 ^ (prec - 1)) as ->
    by (rewrite Zpos_shift_left by lia; lia).
  assert (Z.pos m * 2 ^ prec = Z.pos (shift_left m 1) * 2 ^ (prec - 1)) as ->.
  { rewrite Zpos_shift_left by lia. replace prec with (Z.succ (prec - 1)) at 1 by lia.
    rewrite Z.pow_succ_r by lia. lia. }
  assert (0 < 2 ^ (prec - 1)) as Hpow by (apply Z.pow_pos_nonneg; lia).
  rewrite (surjective_pairing (Z.div_eucl _ _)).
  change (fst (Z.div_eucl ?a ?b)) with (a `div` b).
  change (snd (Z.div_eucl ?a ?b)) with (a `mod` b).
  rewrite Z.div_mul, Z.mod_mul by lia.
  unfold new_location, new_location_even, new_location_odd.
  by destruct (Z.even _).
Qed.

Lemma half_div_two n :
  Z.abs (2 * n) < 2 ^ prec → SFdiv prec emax (half prec emax (2 * n)) (float_two prec) = half prec emax n.
Proof.
  intros Hn. destruct (decide (n = 0)) as [->|Hn0]; [done|].
  rewrite half_double, (half_finite n) by (done || lia).
  pose proof (half_shift_range n Hn0 ltac:(lia)) as Ht.
  assert (Z.pos (digits2_pos (shift_left (Z.to_pos (Z.abs n)) (half_shift prec n))) = prec) as Hd
    by (rewrite digits_shift_left by lia; unfold half_shift; lia).
  unfold float_two. cbn [SFdiv]. rewrite div_core_two by (done || lia).
  rewrite round_aux_shift_left by lia. rewrite Hd, Z.sub_diag, xorb_false_r.
  cbn [shift_left]. f_equal. lia.
Qed.

(** Comparisons. *)
Lemma half_ltb_refl k : Z.abs k < 2 ^ prec → SFltb (half prec emax k) (half prec emax k) = false.
Proof.
  intros Hk. destruct (decide (k = 0)) as [->|Hk0]; [done|].
  rewrite half_finite by done. unfold SFltb, SFcompare.
  rewrite Z.compare_refl, Pos.compare_cont_refl. by destruct (k <? 0).
Qed.

Lemma half_ltb_neg_pos a b :
  Z.abs a < 2 ^ prec → Z.abs b < 2 ^ prec → a < 0 → 0 < b →
  SFltb (half prec emax a) (half prec emax b) = true.
Proof.
  intros Ha Hb Ha0 Hb0. rewrite (half_finite a), (half_finite b) by lia.
  rewrite (proj2 (Z.ltb_lt a 0)), (proj2 (Z.ltb_ge b 0)) by lia. done.
Qed.

Lemma half_ltb_nonneg_nonpos a b :
  Z.abs a < 2 ^ prec → Z.abs b < 2 ^ prec → 0 ≤ a → b ≤ 0 →
  SFltb (half prec emax a) (half prec emax b) = false.
Proof.
  intros Ha Hb Ha0 Hb0.
  destruct (decide (a = 0)) as [->|Hane], (decide (b = 0)) as [->|Hbne];
    rewrite ?(half_finite a), ?(half_finite b) by lia;
    rewrite ?(proj2 (Z.ltb_ge a 0)), ?(proj2 (Z.ltb_lt b 0)) by lia; done.
Qed.

Lemma half_ltb_above k mB eB :
  Z.abs k < 2 ^ prec → 0 ≤ eB →
  SFltb (half prec emax k) (S754_finite false mB eB) = true.
Proof.
  intros Hk HB. destruct (decide (k = 0)) as [->|Hk0]; [done|].
  rewrite half_finite by done. pose proof (half_shift_range k Hk0 Hk).
  unfold SFltb, SFcompare. destruct (k <? 0); [done|].
  by rewrite (proj2 (Z.compare_lt_iff _ _)) by lia.
Qed.

Lemma half_ltb_below k mB eB :
  Z.abs k < 2 ^ prec → 0 ≤ eB →
  SFltb (S754_finite true mB eB) (half prec emax k) = true.
Proof.
  intros Hk HB. destruct (decide (k = 0)) as [->|Hk0]; [done|].
  rewrite half_finite by done. pose proof (half_shift_range k Hk0 Hk).
  unfold SFltb, SFcompare. destruct (k <? 0); [|done].
  by rewrite (proj2 (Z.compare_gt_iff _ _)) by lia.
Qed.

End Exact.

Lemma half_floor prec emax k :
  0 < prec → prec ≤ emax → emin prec emax + prec + 2 ≤ 0 →
  Z.abs k < 2 ^ prec → SFfloor (half prec emax k) = Some (k `div` 2).
Proof.
  intros Hprec Hpe Hemin Hk.
  destruct (decide (k = 0)) as [->|Hk0]; [done|].
  rewrite half_finite by done. pose proof (half_shift_range prec Hprec k Hk0 Hk) as Ht.
  cbn [SFfloor]. rewrite decide_False by lia. f_equal.
  rewrite Zpos_shift_left, cond_Zopp_abs by lia.
  replace (- (-1 - half_shift prec k)) with (Z.succ (half_shift prec k)) by lia.
  rewrite Z.pow_succ_r by lia.
  rewrite Z.div_mul_cancel_r; [done|lia|].
  apply Z.pow_nonzero; lia.
Qed.

Lemma half_ceil prec emax n :
  0 < prec → prec ≤ emax → emin prec emax + prec + 2 ≤ 0 →
  Z.abs (2 * n) < 2 ^ prec → SFceil (half prec emax (2 * n)) = Some n.
Proof.
  intros Hprec Hpe Hemin Hn. unfold SFceil.
  destruct (decide (n = 0)) as [->|Hn0]; [done|].
  rewrite half_opp, half_floor by (done || lia). cbn. f_equal.
  replace (- (2 * n)) with (- n * 2) by lia. rewrite Z.div_mul by done. lia.
Qed.

Lemma b32_ok : 0 < 24 ∧ 24 ≤ 128 ∧ emin 24 128 + 24 + 2 ≤ 0.
Proof. vm_compute. split_and!; discriminate || done. Qed.

Lemma b64_ok : 0 < 53 ∧ 53 ≤ 1024 ∧ emin 53 1024 + 53 + 2 ≤ 0.
Proof. vm_compute. split_and!; discriminate || done. Qed.

Ltac b32 := first [exact (proj1 b32_ok) | exact (proj1 (proj2 b32_ok))
                  | exact (proj2 (proj2 b32_ok)) | lia].
Ltac b64 := first [exact (proj1 b64_ok) | exact (proj1 (proj2 b64_ok))
                  | exact (proj2 (proj2 b64_ok)) | lia].

Lemma b32_of_int n : Z.abs (2 * n) < 2 ^ 24 → B32.of_int n = h32 (2 * n).
Proof. intros Hn. apply (of_int_half 24 128); b32. Qed.

Lemma b64_of_int n : Z.abs (2 * n) < 2 ^ 53 → B64.of_int n = h64 (2 * n).
Proof. intros Hn. apply (of_int_half 53 1024); b64. Qed.

Lemma b32_add a b :
  Z.abs a < 2 ^ 24 → Z.abs b < 2 ^ 24 → Z.abs (a + b) < 2 ^ 24 →
  B32.add (h32 a) (h32 b) = h32 (a + b).
Proof. intros. apply (half_add 24 128); b32. Qed.

Lemma b32_sub a b :
  Z.abs a < 2 ^ 24 → Z.abs b < 2 ^ 24 → Z.abs (a - b) < 2 ^ 24 →
  B32.sub (h32 a) (h32 b) = h32 (a - b).
Proof. intros. apply (half_sub 24 128); b32. Qed.

Lemma b64_add a b :
  Z.abs a < 2 ^ 53 → Z.abs b < 2 ^ 53 → Z.abs (a + b) < 2 ^ 53 →
  B64.add (h64 a) (h64 b) = h64 (a + b).
Proof. intros. apply (half_add 53 1024); b64. Qed.

Lemma b64_sub a b :
  Z.abs a < 2 ^ 53 → Z.abs b < 2 ^ 53 → Z.abs (a - b) < 2 ^ 53 →
  B64.sub (h64 a) (h64 b) = h64 (a - b).
Proof. intros. apply (half_sub 53 1024); b64. Qed.

Lemma b64_half n :
  Z.abs (2 * n) < 2 ^ 53 → B64.div (h64 (2 * n)) (B64.of_int 2) = h64 n.
Proof. intros. apply (half_div_two 53 1024); b64. Qed.

Lemma b32_of_double k : Z.abs k < 2 ^ 24 → B32.of_double (h64 k) = h32 k.
Proof.
  intros Hk. destruct (decide (k = 0)) as [->|Hk0]; [done|].
  assert (Z.abs k < 2 ^ 53) as Hk' by (change (2 ^ 24) with 16777216 in Hk;
                                         change (2 ^ 53) with 9007199254740992; lia).
  rewrite (half_finite 53 1024) by b64.
  pose proof (half_shift_range 53 ltac:(lia) k Hk0 Hk') as Ht.
  cbn [B32.of_double]. rewrite Zpos_shift_left, cond_Zopp_abs by lia.
  unfold B32.prec, B32.emax.
  rewrite (half_scaled 24 128) by b32. by rewrite decide_False.
Qed.

Lemma b32_mul_one a : Z.abs a < 2 ^ 24 → B32.mul (h32 a) f32_one = h32 a.
Proof. intros. apply (half_mul_one 24 128); b32. Qed.

Lemma b32_mul_zero a b :
  Z.abs a < 2 ^ 24 → ∃ b', B32.mul (h32 a) (S754_zero b) = S754_zero b'.
Proof. intros. apply (half_mul_zero 24 128); b32. Qed.

Lemma b32_opp_mul_zero a b :
  Z.abs a < 2 ^ 24 → ∃ b', B32.mul (SFopp (h32 a)) (S754_zero b) = S754_zero b'.
Proof. intros. apply (half_opp_mul_zero 24 128); b32. Qed.

Lemma b32_add_zero_r a b : Z.abs a < 2 ^ 24 → B32.add (h32 a) (S754_zero b) = h32 a.
Proof. intros. apply (half_add_zero_r 24 128); b32. Qed.

Lemma b32_add_zero_l a b : Z.abs a < 2 ^ 24 → B32.add (S754_zero b) (h32 a) = h32 a.
Proof. intros. apply (half_add_zero_l 24 128); b32. Qed.

Lemma b32_sub_zero_r a b : Z.abs a < 2 ^ 24 → B32.sub (h32 a) (S754_zero b) = h32 a.
Proof. intros. apply (half_sub_zero_r 24 128); b32. Qed.

Lemma b32_floor k : Z.abs k < 2 ^ 24 → SFfloor (h32 k) = Some (k `div` 2).
Proof. intros. apply half_floor; b32. Qed.

Lemma b32_ceil n : Z.abs (2 * n) < 2 ^ 24 → SFceil (h32 (2 * n)) = Some n.
Proof. intros. apply half_ceil; b32. Qed.

Lemma to_int_Some n : - 2 ^ 31 ≤ n < 2 ^ 31 → to_int (Some n) = n.
Proof. intros Hn. unfold to_int. by rewrite decide_True. Qed.

(** The centre [iwidth / 2.0] and the sample position
    [ox - owidth / 2.0 + .5]. *)
Lemma rotate_centre_half i : 0 ≤ i < 2 ^ 23 → rotate_centre i = h32 i.
Proof.
  intros Hi. change (2 ^ 23) with 8388608 in Hi. unfold rotate_centre.
  rewrite b64_of_int, b64_half, b32_of_double;
    [done|..]; change (2 ^ 24) with 16777216;
    change (2 ^ 53) with 9007199254740992; lia.
Qed.

Lemma sample_centre_half o osize :
  0 ≤ o < osize → osize < 2 ^ 23 → sample_centre o osize = h32 (2 * o - osize + 1).
Proof.
  intros Ho Hs. change (2 ^ 23) with 8388608 in Hs. unfold sample_centre.
  change (S754_finite false 4503599627370496 (-53)) with (h64 1).
  rewrite (b64_of_int o), (b64_of_int osize), b64_half, b64_sub, b64_add,
    b32_of_double;
    [done|..]; change (2 ^ 24) with 16777216;
    change (2 ^ 53) with 9007199254740992; lia.
Qed.

Lemma fmin_above k mB eB :
  Z.abs k < 2 ^ 24 → 0 ≤ eB → fmin (S754_finite false mB eB) (h32 k) = h32 k.
Proof. intros. unfold fmin. by rewrite (half_ltb_above 24 128) by b32. Qed.

Lemma fmax_below k mB eB :
  Z.abs k < 2 ^ 24 → 0 ≤ eB → fmax (S754_finite true mB eB) (h32 k) = h32 k.
Proof. intros. unfold fmax. by rewrite (half_ltb_below 24 128) by b32. Qed.

Lemma fmin_same k : Z.abs k < 2 ^ 24 → fmin (h32 k) (h32 k) = h32 k.
Proof. intros. unfold fmin. by destruct (SFltb _ _). Qed.

Lemma fmax_same k : Z.abs k < 2 ^ 24 → fmax (h32 k) (h32 k) = h32 k.
Proof. intros. unfold fmax. by destruct (SFltb _ _). Qed.

Lemma fmin_low a b :
  Z.abs a < 2 ^ 24 → Z.abs b < 2 ^ 24 → a ≤ 0 → 0 ≤ b → fmin (h32 a) (h32 b) = h32 a.
Proof.
  intros. unfold fmin. by rewrite (half_ltb_nonneg_nonpos 24 128) by b32.
Qed.

Lemma fmax_high a b :
  Z.abs a < 2 ^ 24 → Z.abs b < 2 ^ 24 → 0 ≤ a → b ≤ 0 → fmax (h32 a) (h32 b) = h32 a.
Proof.
  intros. unfold fmax. by rewrite (half_ltb_nonneg_nonpos 24 128) by b32.
Qed.

Lemma fmax_raise a b :
  Z.abs a < 2 ^ 24 → Z.abs b < 2 ^ 24 → a ≤ 0 → 0 ≤ b → fmax (h32 a) (h32 b) = h32 b.
Proof.
  intros Ha Hb Ha0 Hb0. unfold fmax.
  destruct (decide (a = 0 ∨ b = 0)) as [Hz|Hnz].
  - destruct (SFltb _ _) eqn:E; [done|].
    destruct Hz as [->| ->].
    + destruct (decide (b = 0)) as [->|]; [done|].
      rewrite (half_finite 24 128 ltac:(b32) ltac:(b32) ltac:(b32) b) in E by done.
      rewrite (proj2 (Z.ltb_ge b 0)) in E by lia. done.
    + destruct (decide (a = 0)) as [->|]; [done|].
      rewrite (half_finite 24 128 ltac:(b32) ltac:(b32) ltac:(b32) a) in E by done.
      rewrite (proj2 (Z.ltb_lt a 0)) in E by lia. done.
  - by rewrite (half_ltb_neg_pos 24 128) by b32.
Qed.

Lemma rotate_corner_zero (b : bool) (w h X Y : Z) (bd : bounds) :
  0 ≤ w < 2 ^ 23 → 0 ≤ h < 2 ^ 23 → 0 ≤ X ≤ 2 * w → 0 ≤ Y ≤ 2 * h →
  rotate_corner f32_one (S754_zero b) (h32 w) (h32 h) bd (h32 X, h32 Y) =
    {| xmin := fmin (xmin bd) (h32 (X - w)); xmax := fmax (xmax bd) (h32 (X - w));
       ymin := fmin (ymin bd) (h32 (Y - h)); ymax := fmax (ymax bd) (h32 (Y - h)) |}.
Proof.
  intros Hw Hh HX HY. change (2 ^ 23) with 8388608 in *.
  unfold rotate_corner. cbn [fst snd].
  rewrite !b32_sub by (change (2 ^ 24) with 16777216; lia).
  rewrite !b32_mul_one by (change (2 ^ 24) with 16777216; lia).
  destruct (b32_mul_zero (Y - h) b) as [b1 ->]; [change (2 ^ 24) with 16777216; lia|].
  destruct (b32_mul_zero (X - w) b) as [b2 ->]; [change (2 ^ 24) with 16777216; lia|].
  rewrite b32_sub_zero_r, b32_add_zero_l by (change (2 ^ 24) with 16777216; lia).
  done.
Qed.

Lemma rotate_bounds_zero (b : bool) (w h : Z) :
  0 ≤ w < 2 ^ 23 → 0 ≤ h < 2 ^ 23 →
  rotate_bounds f32_one (S754_zero b) w h =
    {| xmin := h32 (- w); xmax := h32 w; ymin := h32 (- h); ymax := h32 h |}.
Proof.
  intros Hw Hh. unfold rotate_bounds. cbv zeta.
  rewrite !rotate_centre_half by done.
  change (2 ^ 23) with 8388608 in *.
  change (B32.of_int 0) with (h32 0).
  rewrite (b32_of_int w), (b32_of_int h) by (change (2 ^ 24) with 16777216; lia).
  change (B32.of_int 2139095040) with (S754_finite false 16711680 7).
  change (B32.of_int (-2139095040)) with (S754_finite true 16711680 7).
  cbn [foldl].
  rewrite !rotate_corner_zero by (change (2 ^ 23) with 8388608; lia).
  cbn [xmin xmax ymin ymax].
  replace (0 - w) with (- w) by lia. replace (0 - h) with (- h) by lia.
  replace (2 * w - w) with w by lia. replace (2 * h - h) with h by lia.
  assert (∀ k, -8388608 < k < 8388608 → Z.abs k < 2 ^ 24) as Hb
    by (intros; change (2 ^ 24) with 16777216; lia).
  rewrite !fmin_above, !fmax_below by (done || apply Hb; lia).
  rewrite (fmin_low (- w) w), (fmin_low (- w) w), (fmin_same (- w))
    by (lia || apply Hb; lia).
  rewrite (fmax_raise (- w) w), (fmax_same w), (fmax_high w (- w))
    by (lia || apply Hb; lia).
  rewrite (fmin_same (- h)), (fmin_low (- h) h), (fmin_low (- h) h)
    by (lia || apply Hb; lia).
  rewrite (fmax_same (- h)), (fmax_raise (- h) h), (fmax_same h)
    by (lia || apply Hb; lia).
  done.
Qed.

Lemma rotate_dims_zero (b : bool) (w h : Z) :
  0 ≤ w < 2 ^ 23 → 0 ≤ h < 2 ^ 23 →
  rotate_dims f32_one (S754_zero b) w h = (w, h).
Proof.
  intros Hw Hh. unfold rotate_dims. rewrite rotate_bounds_zero by done.
  change (2 ^ 23) with 8388608 in *. cbn [xmin xmax ymin ymax].
  rewrite !b32_sub by (change (2 ^ 24) with 16777216; lia).
  replace (w - - w) with (2 * w) by lia. replace (h - - h) with (2 * h) by lia.
  rewrite !b32_ceil by (change (2 ^ 24) with 16777216; lia).
  rewrite !to_int_Some by (change (2 ^ 31) with 2147483648; lia).
  done.
Qed.

Lemma rotate_source_zero (b : bool) (w h ox oy : Z) :
  w < 2 ^ 23 → h < 2 ^ 23 → 0 ≤ ox < w → 0 ≤ oy < h →
  rotate_source f32_one (S754_zero b) w h w h ox oy = (ox, oy).
Proof.
  intros Hw Hh Hx Hy. unfold rotate_source. cbv zeta.
  rewrite !rotate_centre_half, !sample_centre_half by (done || lia).
  change (2 ^ 23) with 8388608 in *.
  assert (∀ k, -16777216 < k < 16777216 → Z.abs k < 2 ^ 24) as Hb
    by (intros; change (2 ^ 24) with 16777216; lia).
  rewrite !b32_mul_one by (apply Hb; lia).
  destruct (b32_mul_zero (2 * oy - h + 1) b) as [b1 ->]; [apply Hb; lia|].
  destruct (b32_opp_mul_zero (2 * ox - w + 1) b) as [b2 ->]; [apply Hb; lia|].
  rewrite b32_add_zero_r, b32_add_zero_l by (apply Hb; lia).
  rewrite !b32_add by (apply Hb; lia).
  rewrite !b32_floor by (apply Hb; lia).
  rewrite !to_int_Some.
  - f_equal; [replace (2 * ox - w + 1 + w) with (ox * 2 + 1) by lia
             |replace (2 * oy - h + 1 + h) with (oy * 2 + 1) by lia];
      rewrite Z.div_add_l by done; change (1 `div` 2) with 0; lia.
  - replace (2 * oy - h + 1 + h) with (oy * 2 + 1) by lia.
    rewrite Z.div_add_l by done. change (1 `div` 2) with 0.
    change (2 ^ 31) with 2147483648. lia.
  - replace (2 * ox - w + 1 + w) with (ox * 2 + 1) by lia.
    rewrite Z.div_add_l by done. change (1 `div` 2) with 0.
    change (2 ^ 31) with 2147483648. lia.
Qed.


(** *** Rotation by zero *)

Lemma rotate_projection_zero (b : bool) (w h : Z) :
  0 ≤ w < 2 ^ 23 → 0 ≤ h < 2 ^ 23 →
  rot_width (rotate_projection f32_one (S754_zero b) w h) = w ∧
  rot_height (rotate_projection f32_one (S754_zero b) w h) = h ∧
  ∀ ox oy, 0 ≤ ox < w → 0 ≤ oy < h →
    rot_source (rotate_projection f32_one (S754_zero b) w h) ox oy = (ox, oy).
Proof.
  intros Hw Hh. unfold rotate_projection. rewrite rotate_dims_zero by done.
  cbn [rot_width rot_height rot_source]. split_and!; [done|done|].
  intros ox oy Hx Hy. apply rotate_source_zero; lia.
Qed.

Lemma image_u8_rotate_width im r pad out :
  image_u8_rotate im r pad = Ok out → width out = s32 (u32 (rot_width r)).
Proof.
  unfold image_u8_rotate, image_u8_create, image_u8_create_alignment.
  rewrite decide_False by done. rewrite res_bind_Ok.
  destruct (for_upto _ _ _) as [b|f]; [|by rewrite res_bind_Fault].
  rewrite res_bind_Ok. by intros [= <-].
Qed.

Lemma blank_wf w h st :
  0 ≤ w ≤ st → 0 ≤ h → st * h ≤ INT_MAX → st ≤ INT_MAX → h ≤ INT_MAX →
  wf_image (blank w h st).
Proof.
  intros Hw Hh Hmax Hst Hhm. split; cbn [blank width height stride buf]; try lia.
  - rewrite length_replicate. nia.
  - apply Forall_forall. intros v Hv. apply elem_of_replicate in Hv as [-> _]. lia.
Qed.

Lemma image_u8_rotate_angle_width im c s pad out w h :
  width im = w → height im = h →
  image_u8_rotate_angle im c s pad = Ok out →
  width out = s32 (u32 (fst (rotate_dims c s w h))).
Proof.
  intros <- <- Hrun. unfold image_u8_rotate_angle in Hrun.
  apply image_u8_rotate_width in Hrun. rewrite Hrun.
  unfold rotate_projection. by destruct (rotate_dims _ _ _ _).
Qed.

Lemma rotate_dims_16777217 :
  rotate_dims f32_one (S754_zero true) 16777217 1 = (16777216, 1).
Proof. vm_compute. reflexivity. Qed.

(** C9 (as stated) fails for "every source Buffer".  The corners are held in
    [float], which has 24 bits of precision: the width 16777217 of a
    16777217 x 1 Buffer is rounded to 16777216 on the way, and the output
    Buffer is 16777216 pixels wide. *)
Lemma C9_counterexample :
  wf_image (blank 16777217 1 16777217) ∧
  rotate_dims f32_one (S754_zero true) 16777217 1 = (16777216, 1) ∧
  ¬ ∃ out, image_u8_rotate_angle (blank 16777217 1 16777217) f32_one
             (S754_zero true) 0 = Ok out ∧
           width out = width (blank 16777217 1 16777217).
Proof.
  split_and!.
  - apply blank_wf; vm_compute; (done || split; discriminate).
  - exact rotate_dims_16777217.
  - intros (out & Hrun & Hw).
    pose proof (image_u8_rotate_angle_width (blank 16777217 1 16777217) _ _ _ _
                  16777217 1 eq_refl eq_refl Hrun) as Hwo.
    rewrite rotate_dims_16777217 in Hwo. rewrite Hwo in Hw. discriminate Hw.
Qed.

(** Between [2^23] and [2^24] the dimensions survive and the projection does
    not: [ox + .5] has no [float] of its own and is rounded to an even
    integer. *)
Example rotate_zero_wide :
  rotate_dims f32_one (S754_zero true) 8388610 1 = (8388610, 1) ∧
  rotate_source f32_one (S754_zero true) 8388610 1 8388610 1 8388609 0 = (8388610, 0).
Proof. vm_compute. done. Qed.

Example rotate_zero_dims :
  rotate_dims f32_one (S754_zero true) 4 3 = (4, 3) ∧
  rotate_dims f32_one (S754_zero true) 641 479 = (641, 479).
Proof. vm_compute. done. Qed.

(** C9 (amended): for every well-formed source Buffer whose width and height
    are below [2^23], and whose copy with the stride rounded up to a
    multiple of 96 has at most [INT_MAX] bytes, rotating by angle 0 (cosine
    1, sine a zero of either sign) yields a well-formed output Buffer whose
    width and height equal the input's and whose pixels equal the input's,
    pixel for pixel. *)
Theorem C9_rotate_zero im pad (b : bool) :
  wf_image im → width im < 2 ^ 23 → height im < 2 ^ 23 →
  aligned_stride (width im) 96 * height im ≤ INT_MAX →
  ∃ out, image_u8_rotate_angle im f32_one (S754_zero b) pad = Ok out ∧
         wf_image out ∧ width out = width im ∧ height out = height im ∧
         ∀ x y, 0 ≤ x < width im → 0 ≤ y < height im →
           pixel out x y = pixel im x y.
Proof.
  intros Hwf Hw Hh Hsize.
  assert (0 ≤ width im ∧ 0 ≤ height im) as [Hw0 Hh0] by (destruct Hwf; lia).
  destruct (rotate_projection_zero b (width im) (height im)) as (Hrw & Hrh & Hrs);
    [lia|lia|].
  change (2 ^ 23) with 8388608 in *.
  destruct (rotate_spec im (rotate_projection f32_one (S754_zero b) (width im)
                              (height im)) pad Hwf)
    as (out & Hrun & Hwfo & Hwo & Hho & Hpix); rewrite ?Hrw, ?Hrh.
  - lia.
  - unfold INT_MAX. change (2 ^ 31) with 2147483648. lia.
  - change (2 ^ 31) with 2147483648. lia.
  - done.
  - exists out. rewrite Hrw in Hwo. rewrite Hrh in Hho.
    split_and!; try done.
    intros x y Hx Hy.
    rewrite Hpix by (rewrite ?Hrw, ?Hrh; lia).
    rewrite Hrs by lia. by rewrite decide_True by lia.
Qed.

Lemma C9_rotate_zero_witness :
  ∃ out, image_u8_rotate_angle sample_image f32_one (S754_zero true) 300 = Ok out ∧
         wf_image out ∧ width out = width sample_image ∧
         height out = height sample_image ∧
         ∀ x y, 0 ≤ x < width sample_image → 0 ≤ y < height sample_image →
           pixel out x y = pixel sample_image x y.
Proof.
  apply (C9_rotate_zero sample_image 300 true sample_image_wf);
    [vm_compute; reflexivity|vm_compute; reflexivity|vm_compute; discriminate].
Defined.

(** ** Decoding *)















(** *** The 8-bit graymap: rows copied whole *)





(** *** Encoding, then decoding *)




(** *** Reading back the header *)







(** ** decimate: factor 1.5 *)














(** ** convolve: one pass as a function of the position *)

Lemma convolve_spec (x y k : list Z) (sz ksz : Z) :
  0 ≤ sz ≤ Z.of_nat (length x) → sz ≤ Z.of_nat (length y) →
  ksz = Z.of_nat (length k) → Z.land ksz 1 = 1 → ksz `quot` 2 < sz →
  ∃ y', convolve x y sz k ksz = Ok y' ∧ length y' = length y ∧
        ∀ p, 0 ≤ p →
          y' !! Z.to_nat p =
            if decide (p < sz) then Some (convolved k x sz ksz p)
            else y !! Z.to_nat p.
Proof.
  intros Hsz Hly Hksz Hodd Hhalf.
  pose proof (odd_half ksz ltac:(lia) Hodd) as Hk.
  unfold convolved.
  set (h := ksz `quot` 2) in *.
  assert (0 ≤ h) as Hh by lia.
  unfold convolve. rewrite bool_decide_eq_true_2 by done. fold h.
  destruct (iterate_fill (elem x) (λ i y, v ← load Src x i; store Dest y i v)
              (Z.to_nat (Z.min h sz)) 0 0 y) as (y1 & Run1 & L1 & P1);
    [lia|lia|intros; apply copy_cell; lia|].
  erewrite bind_Ok by exact Run1.
  destruct (iterate_fill
              (λ i, u8 (u32 (weighted_sum k x i (Z.to_nat ksz)) ≫ 8))
              (λ i y, acc ← for_upto ksz (convolve_acc x k i) 0;
                      store Dest y (h + i) (u8 (acc ≫ 8)))
              (Z.to_nat (sz - ksz)) 0 h y1) as (y2 & Run2 & L2 & P2);
    [lia|lia| |].
  { intros i y' Hi Hl. rewrite convolve_acc_sum by lia. rewrite res_bind_Ok.
    apply store_Ok. lia. }
  erewrite bind_Ok by exact Run2.
  destruct (iterate_fill (elem x) (λ i y, v ← load Src x i; store Dest y i v)
              (Z.to_nat (sz - (sz - ksz + h))) (sz - ksz + h) 0 y2)
    as (y3 & Run3 & L3 & P3);
    [lia|lia|intros; apply copy_cell; lia|].
  exists y3. split; [done|]. split; [congruence|].
  intros p Hp. rewrite P3, P2, P1 by lia. clear P1 P2 P3 Run1 Run2 Run3.
  rewrite !Z.sub_0_r.
  repeat case_decide; try done; exfalso; lia.
Qed.

Lemma elem_bound (x : list Z) (M p : Z) :
  Forall (λ b, 0 ≤ b ≤ M) x → 0 ≤ M → 0 ≤ elem x p ≤ M.
Proof.
  intros Hx HM. unfold elem.
  destruct (x !! Z.to_nat p) as [v|] eqn:Hv; cbn; [|lia].
  exact (Forall_lookup_1 _ _ _ _ Hx Hv).
Qed.

Lemma weighted_sum_bound (k x : list Z) (i M : Z) (n : nat) :
  Forall (λ b, 0 ≤ b ≤ M) x → 0 ≤ M → Forall (λ w, 0 ≤ w) k →
  0 ≤ weighted_sum k x i n ≤ M * sum_upto n (elem k).
Proof.
  intros Hx HM Hk. induction n as [|n IH]; cbn [weighted_sum sum_upto]; [lia|].
  pose proof (elem_bound x M (i + Z.of_nat n) Hx HM) as Hv.
  assert (0 ≤ elem k (Z.of_nat n)) as Hw.
  { unfold elem. destruct (k !! Z.to_nat (Z.of_nat n)) as [w|] eqn:E; cbn; [|lia].
    exact (Forall_lookup_1 _ _ _ _ Hk E). }
  nia.
Qed.

(** X22: with non-negative weights whose sum is at most 256, one pass never
    overflows or wraps: when every source byte is at most [M], so is every
    byte the pass writes. *)
Theorem convolve_bounded (x y k : list Z) (sz ksz M : Z) :
  0 ≤ sz ≤ Z.of_nat (length x) → sz ≤ Z.of_nat (length y) →
  ksz = Z.of_nat (length k) → Z.land ksz 1 = 1 → ksz `quot` 2 < sz →
  Forall (λ b, 0 ≤ b ≤ M) x → 0 ≤ M ≤ 255 →
  Forall (λ w, 0 ≤ w) k → sum_below ksz (elem k) ≤ 256 →
  ∃ y', convolve x y sz k ksz = Ok y' ∧
        ∀ p, 0 ≤ p < sz → ∃ v, y' !! Z.to_nat p = Some v ∧ 0 ≤ v ≤ M.
Proof.
  intros Hsz Hly Hksz Hodd Hhalf Hx HM Hk Hsum.
  destruct (convolve_spec x y k sz ksz Hsz Hly Hksz Hodd Hhalf) as (y' & Hrun & _ & Hy').
  exists y'. split; [done|]. intros p Hp.
  rewrite Hy' by lia. rewrite decide_True by lia. eexists. split; [reflexivity|].
  unfold convolved. case_decide; [|apply elem_bound; [done|lia]].
  pose proof (weighted_sum_bound k x (p - ksz `quot` 2) M (Z.to_nat ksz) Hx
                ltac:(lia) Hk) as Hw.
  fold (sum_below ksz (elem k)) in Hw.
  set (s := weighted_sum k x (p - ksz `quot` 2) (Z.to_nat ksz)) in *.
  assert (0 ≤ s ≤ 256 * M) as Hs by nia.
  rewrite u32_small by (pow_consts; lia).
  rewrite Z.shiftr_div_pow2 by lia. change (2 ^ 8) with 256.
  assert (0 ≤ s `div` 256 ≤ M) as Hq
    by (split; [apply Z.div_pos; lia|apply Z.div_le_upper_bound; lia]).
  rewrite u8_small by lia. done.
Qed.

Lemma convolve_bounded_witness :
  ∃ y', convolve [10; 20; 30; 200] [0; 0; 0; 0] 4 [64; 128; 64] 3 = Ok y' ∧
        ∀ p, 0 ≤ p < 4 → ∃ v, y' !! Z.to_nat p = Some v ∧ 0 ≤ v ≤ 200.
Proof.
  apply (convolve_bounded [10; 20; 30; 200] [0; 0; 0; 0] [64; 128; 64] 4 3 200);
    try (cbn; lia); try done; try (repeat constructor; lia).
Defined.

Lemma load_negative r (m : list Z) i : i < 0 → load r m i = Fault (Out_of_bounds r i).
Proof. intros Hi. unfold load. by rewrite decide_False by lia. Qed.

Lemma convolve_reads_before_start (x y k : list Z) (sz ksz : Z) :
  0 ≤ sz ≤ Z.of_nat (length x) → sz ≤ Z.of_nat (length y) →
  Z.land ksz 1 = 1 → 0 ≤ ksz → sz ≤ ksz `quot` 2 →
  convolve x y sz k ksz = Fault (Out_of_bounds Src (sz - ksz `quot` 2 - 1)).
Proof.
  intros Hsz Hly Hodd Hksz Hshort.
  pose proof (odd_half ksz Hksz Hodd) as Hk.
  set (h := ksz `quot` 2) in *.
  unfold convolve. rewrite bool_decide_eq_true_2 by done. fold h.
  destruct (iterate_fill (elem x) (λ i y, v ← load Src x i; store Dest y i v)
              (Z.to_nat (Z.min h sz)) 0 0 y) as (y1 & Run1 & L1 & P1);
    [lia|lia|intros; apply copy_cell; lia|].
  erewrite bind_Ok by exact Run1.
  unfold for_upto at 1.
  replace (Z.to_nat (sz - ksz)) with O by lia.
  cbn [iterate]. rewrite res_bind_Ok.
  replace (Z.to_nat (sz - (sz - ksz + h))) with (S (Z.to_nat h)) by lia.
  cbn [iterate]. rewrite (load_negative Src x (sz - ksz + h)) by lia.
  rewrite !res_bind_Fault. f_equal. f_equal. lia.
Qed.

(** X23: a line that is not longer than half the kernel makes the pass read
    before the start of the source: the last loop starts at the negative
    index [sz - ksz/2 - 1]. *)
Theorem convolve_short_line (x y k : list Z) (sz ksz : Z) :
  0 ≤ sz ≤ Z.of_nat (length x) → sz ≤ Z.of_nat (length y) →
  Z.land ksz 1 = 1 → 0 ≤ ksz → sz ≤ ksz `quot` 2 →
  convolve x y sz k ksz = Fault (Out_of_bounds Src (sz - ksz `quot` 2 - 1)).
Proof. apply convolve_reads_before_start. Qed.

Lemma convolve_short_line_witness :
  convolve [10; 20] [0; 0] 2 [1; 2; 3; 2; 1] 5 = Fault (Out_of_bounds Src (2 - 5 `quot` 2 - 1)).
Proof. apply convolve_short_line; cbn; (lia || done). Defined.

(** ** convolve_2D *)

Lemma weighted_sum_ext (k x1 x2 : list Z) (i : Z) (n : nat) :
  (∀ j, i ≤ j < i + Z.of_nat n → elem x1 j = elem x2 j) →
  weighted_sum k x1 i n = weighted_sum k x2 i n.
Proof.
  induction n as [|n IH]; intros Hx; cbn [weighted_sum]; [done|].
  rewrite IH by (intros; apply Hx; lia). by rewrite (Hx (i + Z.of_nat n)) by lia.
Qed.

Lemma convolved_ext (k x1 x2 : list Z) (sz ksz p : Z) :
  0 ≤ ksz → 0 ≤ p < sz → (∀ j, 0 ≤ j < sz → elem x1 j = elem x2 j) →
  convolved k x1 sz ksz p = convolved k x2 sz ksz p.
Proof.
  intros Hk Hp Hx. unfold convolved. case_decide; [|apply Hx; lia].
  do 3 f_equal. apply weighted_sum_ext. intros j Hj. apply Hx.
  assert (0 ≤ ksz `quot` 2 ∧ 2 * (ksz `quot` 2) ≤ ksz)
    by (Z.to_euclidean_division_equations; lia).
  lia.
Qed.

Lemma convolved_byte (k x : list Z) (sz ksz p : Z) :
  Forall (λ b, 0 ≤ b < 256) x → 0 ≤ convolved k x sz ksz p < 256.
Proof.
  intros Hx. unfold convolved. case_decide.
  - unfold u8. apply Z.mod_pos_bound. lia.
  - unfold elem. destruct (x !! Z.to_nat p) as [v|] eqn:Hv; cbn; [|lia].
    exact (Forall_lookup_1 _ _ _ _ Hx Hv).
Qed.

Lemma elem_drop (l : list Z) (n i : Z) :
  0 ≤ n → 0 ≤ i → elem (drop (Z.to_nat n) l) i = elem l (n + i).
Proof.
  intros Hn Hi. unfold elem. rewrite lookup_drop. do 2 f_equal. lia.
Qed.

Lemma elem_take (l : list Z) (n i : Z) :
  0 ≤ i < n → elem (take (Z.to_nat n) l) i = elem l i.
Proof. intros Hi. unfold elem. by rewrite lookup_take_lt by lia. Qed.

Lemma elem_column (f : Z → Z) (h i : Z) :
  0 ≤ i < h → elem (f <$> seqZ 0 h) i = f i.
Proof.
  intros Hi. unfold elem. rewrite list_lookup_fmap, lookup_seqZ_lt by lia.
  cbn. f_equal. lia.
Qed.

Lemma elem_Some (l : list Z) (i v : Z) : l !! Z.to_nat i = Some v → elem l i = v.
Proof. intros H. unfold elem. by rewrite H. Qed.

Lemma convolve_into_spec (x b k : list Z) (off sz ksz : Z) :
  0 ≤ off → off + sz ≤ Z.of_nat (length b) → 0 ≤ sz ≤ Z.of_nat (length x) →
  ksz = Z.of_nat (length k) → Z.land ksz 1 = 1 → ksz `quot` 2 < sz →
  ∃ b', convolve_into x b off sz k ksz = Ok b' ∧ length b' = length b ∧
        ∀ j, 0 ≤ j →
          b' !! Z.to_nat j =
            if decide (off ≤ j < off + sz) then Some (convolved k x sz ksz (j - off))
            else b !! Z.to_nat j.
Proof.
  intros Hoff Hfit Hsz Hksz Hodd Hhalf.
  assert (length (take (Z.to_nat off) b) = Z.to_nat off) as Ht
    by (rewrite length_take; lia).
  destruct (convolve_spec x (drop (Z.to_nat off) b) k sz ksz Hsz
              ltac:(rewrite length_drop; lia) Hksz Hodd Hhalf)
    as (tail & Hrun & Hl & Htail).
  exists (take (Z.to_nat off) b ++ tail). split_and!.
  - unfold convolve_into. rewrite decide_True by lia. by rewrite Hrun.
  - rewrite length_app, Ht, Hl, length_drop. lia.
  - intros j Hj. destruct (decide (j < off)) as [Hlt|Hge].
    + rewrite lookup_app_l by lia. rewrite lookup_take_lt by lia.
      by rewrite decide_False by lia.
    + rewrite lookup_app_r by lia. rewrite Ht.
      replace (Z.to_nat j - Z.to_nat off)%nat with (Z.to_nat (j - off)) by lia.
      rewrite Htail by lia. case_decide.
      * by rewrite decide_True by lia.
      * rewrite decide_False by lia. rewrite lookup_drop. f_equal. lia.
Qed.

(** After the first loop every row holds its filtered pixels; the padding
    is untouched. *)
Lemma convolve_rows_spec im k ksz :
  wf_image im → ksz = Z.of_nat (length k) → Z.land ksz 1 = 1 →
  ksz `quot` 2 < width im →
  ∃ b, for_upto (height im) (convolve_row im k ksz) (buf im) = Ok b ∧
       length b = length (buf im) ∧
       ∀ x y, 0 ≤ x < stride im → 0 ≤ y < height im →
         b !! Z.to_nat (y * stride im + x) =
           Some (if decide (x < width im) then row_pass im k ksz x y
                 else pixel_at im x y).
Proof.
  intros Hwf Hksz Hodd Hhalf.
  set (w := width im) in *. set (h := height im). set (st := stride im).
  assert (0 ≤ w ≤ st ∧ 0 ≤ h ∧ Z.of_nat (length (buf im)) = st * h ∧
          st * h ≤ INT_MAX) as (Hw & Hh & Hlen & Hmax)
    by (destruct Hwf; unfold w, h, st; lia).
  set (P := λ ky (b : list Z),
         length b = length (buf im) ∧
         ∀ x y, 0 ≤ x < st → 0 ≤ y < h →
           b !! Z.to_nat (y * st + x) =
             Some (if decide (x < w ∧ y < ky) then row_pass im k ksz x y
                   else pixel_at im x y)).
  destruct (for_upto_invariant P (convolve_row im k ksz) h (buf im))
    as (b & Hrun & Hl & Hpix); [lia| | |].
  - split; [done|]. intros x y Hx Hy.
    pose proof (index_in_range st h x y Hx Hy) as Hi.
    rewrite decide_False by lia. symmetry. apply elem_lookup. lia.
  - intros ky b Hky [Hl Hb].
    assert (0 ≤ ky * st ∧ ky * st + st ≤ st * h) as [Hd0 Hd1] by nia.
    unfold convolve_row. fold st w. cbv zeta.
    rewrite (s32_small (ky * st)) by (pow_consts; lia).
    unfold load_range. rewrite decide_True by lia. rewrite res_bind_Ok.
    set (xr := take (Z.to_nat st) (drop (Z.to_nat (ky * st)) b)).
    assert (length xr = Z.to_nat st) as Hxr
      by (unfold xr; rewrite length_take, length_drop; lia).
    destruct (convolve_into_spec xr b k (ky * st) w ksz) as (b' & Hinto & Hl' & Hb');
      try done; try lia.
    exists b'. split; [done|]. split; [by rewrite Hl'|].
    intros x y Hx Hy.
    pose proof (index_in_range st h x y Hx Hy) as Hi.
    rewrite Hb' by lia.
    assert (y < ky → (y + 1) * st ≤ ky * st)
      by (intros; apply Z.mul_le_mono_nonneg_r; lia).
    assert (ky < y → (ky + 1) * st ≤ y * st)
      by (intros; apply Z.mul_le_mono_nonneg_r; lia).
    destruct (decide (y = ky)) as [->|Hne].
    + destruct (decide (x < w)) as [Hxw|Hxw].
      * rewrite decide_True by lia. rewrite (decide_True (P := _ ∧ _)) by lia.
        f_equal. replace (ky * st + x - ky * st) with x by lia.
        unfold row_pass. fold w st. apply convolved_ext; [lia|lia|].
        intros j Hj. unfold xr.
        rewrite elem_take, !elem_drop by lia.
        apply elem_Some. rewrite (Hb j ky) by lia.
        by rewrite decide_False by lia.
      * rewrite decide_False by lia. rewrite Hb by done.
        by rewrite !(decide_False (P := _ ∧ _)) by lia.
    + rewrite decide_False by lia. rewrite Hb by done.
      f_equal. apply decide_ext. lia.
  - exists b. split; [done|]. split; [done|]. intros x y Hx Hy.
    rewrite Hpix by done. f_equal. apply decide_ext. lia.
Qed.

(** The gathering loop of the second pass. *)
Lemma column_gather im (b : list Z) (g : Z → Z) kx :
  wf_image im → length b = length (buf im) → 0 ≤ kx < stride im →
  (∀ y, 0 ≤ y < height im → b !! Z.to_nat (y * stride im + kx) = Some (g y)) →
  ∃ xb, for_upto (height im)
          (λ y xb, v ← load Dest b (s32 (s32 (y * stride im) + kx));
                   store Scratch xb y v)
          (replicate (Z.to_nat (height im)) 0) = Ok xb ∧
        length xb = Z.to_nat (height im) ∧
        ∀ y, 0 ≤ y < height im → elem xb y = g y.
Proof.
  intros Hwf Hl Hkx Hcol.
  assert (0 ≤ height im) as Hh by (by destruct Hwf).
  destruct (iterate_fill g
              (λ y xb, v ← load Dest b (s32 (s32 (y * stride im) + kx));
                       store Scratch xb y v)
              (Z.to_nat (height im)) 0 0 (replicate (Z.to_nat (height im)) 0))
    as (xb & Hrun & Hlx & Hxb).
  - lia.
  - rewrite length_replicate. lia.
  - intros y xb Hy Hlxb. rewrite length_replicate in Hlxb.
    destruct (wf_index im kx y Hwf Hkx ltac:(lia)) as (Hi & _ & Hs).
    rewrite Hs. rewrite (load_Ok Dest b _ (g y)) by (lia || apply Hcol; lia).
    rewrite res_bind_Ok. apply store_Ok. lia.
  - exists xb. split; [exact Hrun|]. rewrite length_replicate in Hlx.
    split; [done|]. intros y Hy. apply elem_Some. rewrite Hxb by lia.
    rewrite decide_True by lia. by rewrite Z.sub_0_r.
Qed.

(** One pass of the second loop replaces column [kx] by its filtered
    values and leaves every other byte. *)
Lemma convolve_column_spec im k ksz (b : list Z) (g : Z → Z) kx :
  wf_image im → length b = length (buf im) → 0 ≤ kx < stride im →
  (∀ y, 0 ≤ y < height im → b !! Z.to_nat (y * stride im + kx) = Some (g y)) →
  ksz = Z.of_nat (length k) → Z.land ksz 1 = 1 → ksz `quot` 2 < height im →
  ∃ b', convolve_column im k ksz kx b = Ok b' ∧ length b' = length b ∧
        ∀ x y, 0 ≤ x < stride im → 0 ≤ y < height im →
          b' !! Z.to_nat (y * stride im + x) =
            if decide (x = kx)
            then Some (convolved k (g <$> seqZ 0 (height im)) (height im) ksz y)
            else b !! Z.to_nat (y * stride im + x).
Proof.
  intros Hwf Hl Hkx Hcol Hksz Hodd Hhalf.
  set (h := height im) in *. set (st := stride im) in *.
  assert (0 ≤ h ∧ Z.of_nat (length (buf im)) = st * h) as [Hh Hlen]
    by (destruct Hwf; unfold h, st; lia).
  destruct (column_gather im b g kx Hwf Hl Hkx Hcol) as (xb & Hgather & Hlx & Hxb).
  fold h st in Hgather, Hlx, Hxb.
  destruct (convolve_spec xb (replicate (Z.to_nat h) 0) k h ksz)
    as (yb & Hconv & Hly & Hyb); try done; [lia|rewrite length_replicate; lia|].
  rewrite length_replicate in Hly.
  set (c := λ y, convolved k (g <$> seqZ 0 h) h ksz y).
  assert (∀ y, 0 ≤ y < h → yb !! Z.to_nat y = Some (c y)) as Hc.
  { intros y Hy. rewrite Hyb by lia. rewrite decide_True by lia. f_equal.
    unfold c. apply convolved_ext; [lia|lia|].
    intros j Hj. rewrite Hxb by done. by rewrite elem_column. }
  set (R := λ ky (b' : list Z),
         length b' = length b ∧
         ∀ x y, 0 ≤ x < st → 0 ≤ y < h →
           b' !! Z.to_nat (y * st + x) =
             if decide (x = kx ∧ y < ky) then Some (c y)
             else b !! Z.to_nat (y * st + x)).
  destruct (for_upto_invariant R
              (λ y b, v ← load Scratch yb y;
                      store Dest b (s32 (s32 (y * st) + kx)) v) h b)
    as (b' & Hscatter & Hl' & Hb'); [lia| | |].
  - split; [done|]. intros x y Hx Hy. by rewrite decide_False by lia.
  - intros ky b1 Hky [Hl1 Hb1].
    destruct (wf_index im kx ky Hwf Hkx ltac:(lia)) as (Hi & _ & Hs).
    fold st in Hi, Hs. rewrite Hs.
    rewrite (load_Ok Scratch yb ky (c ky)) by (lia || by apply Hc).
    rewrite res_bind_Ok. rewrite store_Ok by (rewrite Hl1, Hl; lia).
    eexists. split; [reflexivity|]. split; [by rewrite length_insert|].
    intros x y Hx Hy.
    pose proof (index_in_range st h x y Hx Hy) as Hj.
    rewrite lookup_insert_Z by (rewrite ?Hl1, ?Hl; lia).
    assert (ky * st + kx = y * st + x ↔ x = kx ∧ y = ky) as Hinj.
    { split; [|by intros [-> ->]]. intros E.
      destruct (index_inj st kx ky x y) as [<- <-]; try done; lia. }
    rewrite (decide_ext _ _ _ _ Hinj). rewrite Hb1 by done.
    clear Hb1 Hc Hyb Hxb Hcol Hinj.
    repeat case_decide; try done; try (exfalso; lia); destruct_and!; by subst.
  - exists b'. split_and!; [|done|].
    + unfold convolve_column. fold h st. rewrite decide_False by lia.
      erewrite bind_Ok by exact Hgather. erewrite bind_Ok by exact Hconv.
      exact Hscatter.
    + intros x y Hx Hy. rewrite Hb' by done. fold (c y).
      apply decide_ext. lia.
Qed.

Lemma row_pass_byte im k ksz x y : wf_image im → 0 ≤ row_pass im k ksz x y < 256.
Proof.
  intros Hwf. apply convolved_byte. apply Forall_drop. by destruct Hwf.
Qed.

Lemma convolved_2D_byte im k ksz x y : wf_image im → 0 ≤ convolved_2D im k ksz x y < 256.
Proof.
  intros Hwf. apply convolved_byte. apply Forall_fmap, Forall_forall.
  intros y' _. by apply row_pass_byte.
Qed.

(** Both loops: every pixel is the filtered column of the filtered rows;
    dimensions, stride and padding are unchanged. *)
Lemma convolve_2D_spec im k ksz :
  wf_image im → ksz = Z.of_nat (length k) → Z.land ksz 1 = 1 →
  ksz `quot` 2 < width im → ksz `quot` 2 < height im →
  ∃ im', image_u8_convolve_2D im k ksz = Ok im' ∧ wf_image im' ∧
         width im' = width im ∧ height im' = height im ∧ stride im' = stride im ∧
         ∀ x y, 0 ≤ x < stride im → 0 ≤ y < height im →
           pixel im' x y =
             Some (if decide (x < width im) then convolved_2D im k ksz x y
                   else pixel_at im x y).
Proof.
  intros Hwf Hksz Hodd Hhw Hhh.
  destruct (convolve_rows_spec im k ksz Hwf Hksz Hodd Hhw) as (b1 & Hrows & Hl1 & Hb1).
  set (w := width im) in *. set (h := height im) in *. set (st := stride im) in *.
  assert (0 ≤ w ≤ st ∧ 0 ≤ h ∧ Z.of_nat (length (buf im)) = st * h)
    as (Hw & Hh & Hlen) by (destruct Hwf; unfold w, h, st; lia).
  set (Q := λ kx (b : list Z),
         length b = length (buf im) ∧
         ∀ x y, 0 ≤ x < st → 0 ≤ y < h →
           b !! Z.to_nat (y * st + x) =
             Some (if decide (x < w)
                   then (if decide (x < kx) then convolved_2D im k ksz x y
                         else row_pass im k ksz x y)
                   else pixel_at im x y)).
  destruct (for_upto_invariant Q (convolve_column im k ksz) w b1)
    as (b2 & Hcols & Hl2 & Hb2); [lia| | |].
  - split; [done|]. intros x y Hx Hy. rewrite Hb1 by done.
    by rewrite (decide_False (P := x < 0)) by lia.
  - intros kx b [Hkx0 Hkx1] [Hl Hb].
    destruct (convolve_column_spec im k ksz b (row_pass im k ksz kx) kx)
      as (b' & Hrun & Hl' & Hb'); try done; [unfold st in *; lia| |].
    { intros y Hy. fold st. rewrite Hb by (unfold st in *; lia).
      by rewrite decide_True, decide_False by lia. }
    exists b'. split; [done|]. split; [by rewrite Hl'|].
    intros x y Hx Hy. fold st h in Hb'. rewrite Hb' by done.
    destruct (decide (x = kx)) as [->|Hne].
    + by rewrite decide_True, decide_True by lia.
    + rewrite Hb by done. f_equal.
      repeat case_decide; try done; exfalso; lia.
  - assert (∀ x y, 0 ≤ x < st → 0 ≤ y < h →
              b2 !! Z.to_nat (y * st + x) =
                Some (if decide (x < w) then convolved_2D im k ksz x y
                      else pixel_at im x y)) as Hres.
    { intros x y Hx Hy. rewrite Hb2 by done. f_equal.
      repeat case_decide; try done; exfalso; lia. }
    exists (set_buf im b2). split_and!; try done.
    + unfold image_u8_convolve_2D. rewrite bool_decide_eq_true_2 by done.
      erewrite bind_Ok by exact Hrows. by erewrite bind_Ok by exact Hcols.
    + pose proof Hwf as [? ? ? ? ? ? ?].
      split; cbn [set_buf width height stride buf]; try done; [by rewrite Hl2|].
      apply (Forall_by_pixels _ st h); [lia|by rewrite Hl2|].
      intros x y v Hx Hy. rewrite Hres by done. intros [= <-].
      case_decide; [by apply convolved_2D_byte|].
      pose proof (pixel_at_byte im x y Hwf). lia.
Qed.

(** X24: on a well-formed Buffer wider and higher than half the (odd)
    kernel, [convolve_2D] returns a well-formed Buffer of the same
    dimensions and stride; each pixel is its column of row-filtered pixels,
    filtered; the padding is unchanged. *)
Theorem convolve_2D_separable im k ksz :
  wf_image im → ksz = Z.of_nat (length k) → Z.land ksz 1 = 1 →
  ksz `quot` 2 < width im → ksz `quot` 2 < height im →
  ∃ im', image_u8_convolve_2D im k ksz = Ok im' ∧ wf_image im' ∧
         width im' = width im ∧ height im' = height im ∧ stride im' = stride im ∧
         ∀ x y, 0 ≤ x < stride im → 0 ≤ y < height im →
           pixel im' x y =
             Some (if decide (x < width im) then convolved_2D im k ksz x y
                   else pixel_at im x y).
Proof. apply convolve_2D_spec. Qed.

Lemma convolve_2D_separable_witness :
  ∃ im', image_u8_convolve_2D ramp [64; 128; 64] 3 = Ok im' ∧ wf_image im' ∧
         width im' = width ramp ∧ height im' = height ramp ∧
         stride im' = stride ramp ∧
         ∀ x y, 0 ≤ x < stride ramp → 0 ≤ y < height ramp →
           pixel im' x y =
             Some (if decide (x < width ramp) then convolved_2D ramp [64; 128; 64] 3 x y
                   else pixel_at ramp x y).
Proof.
  apply (convolve_2D_separable ramp [64; 128; 64] 3);
    [concrete_wf|done|done|vm_compute; reflexivity|vm_compute; reflexivity].
Defined.

(** X25: [convolve_2D] leaves the corners of the image as they are: a
    pixel within [ksz/2] columns of the left edge or [ksz/2 + 1] columns of
    the right edge, and likewise for rows, is unchanged. *)
Theorem convolve_2D_corners im k ksz :
  wf_image im → ksz = Z.of_nat (length k) → Z.land ksz 1 = 1 →
  ksz `quot` 2 < width im → ksz `quot` 2 < height im →
  ∃ im', image_u8_convolve_2D im k ksz = Ok im' ∧
         ∀ x y, 0 ≤ x < width im → 0 ≤ y < height im →
           (x < ksz `quot` 2 ∨ width im - ksz `quot` 2 - 1 ≤ x) →
           (y < ksz `quot` 2 ∨ height im - ksz `quot` 2 - 1 ≤ y) →
           pixel im' x y = pixel im x y.
Proof.
  intros Hwf Hksz Hodd Hhw Hhh.
  destruct (convolve_2D_spec im k ksz Hwf Hksz Hodd Hhw Hhh)
    as (im' & Hrun & _ & _ & _ & _ & Hpix).
  exists im'. split; [done|]. intros x y Hx Hy Hbx Hby.
  pose proof (odd_half ksz ltac:(lia) Hodd) as Hk.
  assert (0 ≤ width im ≤ stride im) as Hst by (destruct Hwf; lia).
  rewrite Hpix by lia. rewrite decide_True by lia.
  unfold convolved_2D, convolved. rewrite decide_False by lia.
  rewrite elem_column by lia.
  unfold row_pass, convolved. rewrite decide_False by lia.
  assert (0 ≤ y * stride im) by nia.
  rewrite elem_drop by lia. unfold pixel. apply elem_lookup.
  pose proof (wf_index im x y Hwf ltac:(lia) Hy). lia.
Qed.

Lemma convolve_2D_corners_witness :
  ∃ im', image_u8_convolve_2D ramp [64; 128; 64] 3 = Ok im' ∧
         ∀ x y, 0 ≤ x < width ramp → 0 ≤ y < height ramp →
           (x < 3 `quot` 2 ∨ width ramp - 3 `quot` 2 - 1 ≤ x) →
           (y < 3 `quot` 2 ∨ height ramp - 3 `quot` 2 - 1 ≤ y) →
           pixel im' x y = pixel ramp x y.
Proof.
  apply (convolve_2D_corners ramp [64; 128; 64] 3);
    [concrete_wf|done|done|vm_compute; reflexivity|vm_compute; reflexivity].
Defined.

Lemma convolve_row_narrow im k ksz :
  wf_image im → Z.land ksz 1 = 1 → 0 ≤ ksz →
  1 ≤ height im → width im ≤ ksz `quot` 2 →
  convolve_row im k ksz 0 (buf im)
    = Fault (Out_of_bounds Src (width im - ksz `quot` 2 - 1)).
Proof.
  intros Hwf Hodd Hksz Hh1 Hnarrow.
  assert (0 ≤ width im ≤ stride im ∧ Z.of_nat (length (buf im)) = stride im * height im)
    as [Hw Hlen] by (destruct Hwf; lia).
  unfold convolve_row. cbv zeta. rewrite Z.mul_0_l.
  rewrite (s32_small 0) by (pow_consts; lia).
  unfold load_range. rewrite decide_True by nia. rewrite res_bind_Ok.
  unfold convolve_into. rewrite decide_True by lia.
  rewrite convolve_reads_before_start; try done; try lia.
  - rewrite length_take, length_drop. nia.
  - rewrite length_drop. nia.
Qed.

Lemma convolve_column_short im k ksz (b : list Z) :
  wf_image im → length b = length (buf im) → Z.land ksz 1 = 1 → 0 ≤ ksz →
  1 ≤ width im → height im ≤ ksz `quot` 2 →
  convolve_column im k ksz 0 b
    = Fault (Out_of_bounds Src (height im - ksz `quot` 2 - 1)).
Proof.
  intros Hwf Hl Hodd Hksz Hw1 Hshort.
  assert (0 ≤ width im ≤ stride im ∧ 0 ≤ height im ∧
          Z.of_nat (length (buf im)) = stride im * height im)
    as (Hw & Hh & Hlen) by (destruct Hwf; lia).
  unfold convolve_column. rewrite decide_False by lia.
  destruct (column_gather im b (λ y, elem b (y * stride im + 0)) 0 Hwf Hl ltac:(lia))
    as (xb & Hgather & Hlx & _).
  { intros y Hy. symmetry. apply elem_lookup.
    pose proof (index_in_range (stride im) (height im) 0 y ltac:(lia) Hy). lia. }
  erewrite bind_Ok by exact Hgather.
  rewrite convolve_reads_before_start; try done; try lia.
  rewrite length_replicate. lia.
Qed.

(** X26: a Buffer that is not wider, or not higher, than half the kernel
    makes [convolve_2D] read before the start of a scratch line.  When
    [width <= ksz/2] the pass over row 0 reads its copy of the row at the
    negative index [width - ksz/2 - 1]; otherwise the rows are filtered and
    the pass over column 0 reads the gathered column at the negative index
    [height - ksz/2 - 1].  The run stops at that out-of-bounds read. *)
Theorem convolve_2D_small_image im k ksz :
  wf_image im → ksz = Z.of_nat (length k) → Z.land ksz 1 = 1 →
  1 ≤ height im → width im ≤ ksz `quot` 2 ∨ height im ≤ ksz `quot` 2 →
  image_u8_convolve_2D im k ksz =
    Fault (Out_of_bounds Src
             ((if decide (width im ≤ ksz `quot` 2) then width im else height im)
              - ksz `quot` 2 - 1)).
Proof.
  intros Hwf Hksz Hodd Hh1 Hsmall.
  unfold image_u8_convolve_2D. rewrite bool_decide_eq_true_2 by done.
  case_decide as Hnarrow.
  - unfold for_upto.
    destruct (Z.to_nat (height im)) as [|n] eqn:En; [lia|]. cbn [iterate].
    rewrite convolve_row_narrow; try done; lia.
  - destruct (convolve_rows_spec im k ksz Hwf Hksz Hodd ltac:(lia))
      as (b1 & Hrows & Hl1 & Hb1).
    erewrite bind_Ok by exact Hrows.
    unfold for_upto.
    destruct (Z.to_nat (width im)) as [|n] eqn:En; [lia|]. cbn [iterate].
    rewrite convolve_column_short; try done; lia.
Qed.

Lemma convolve_2D_small_image_witness :
  image_u8_convolve_2D sample_image [1; 2; 3; 2; 1] 5 =
    Fault (Out_of_bounds Src
             ((if decide (width sample_image ≤ 5 `quot` 2)
               then width sample_image else height sample_image)
              - 5 `quot` 2 - 1)).
Proof.
  apply (convolve_2D_small_image sample_image [1; 2; 3; 2; 1] 5 sample_image_wf);
    [done|done|cbn; lia|left; vm_compute; discriminate].
Defined.

(** ** A kernel whose weights sum to at most 256 *)

Lemma weighted_sum_within (k x : list Z) (i M : Z) (n : nat) :
  (∀ j, i ≤ j < i + Z.of_nat n → 0 ≤ elem x j ≤ M) → 0 ≤ M →
  Forall (λ w, 0 ≤ w) k →
  0 ≤ weighted_sum k x i n ≤ M * sum_upto n (elem k).
Proof.
  intros Hx HM Hk. induction n as [|n IH]; cbn [weighted_sum sum_upto]; [lia|].
  specialize (IH ltac:(intros; apply Hx; lia)).
  pose proof (Hx (i + Z.of_nat n) ltac:(lia)) as Hv.
  assert (0 ≤ elem k (Z.of_nat n)) as Hw.
  { unfold elem. destruct (k !! Z.to_nat (Z.of_nat n)) as [w|] eqn:E; cbn; [|lia].
    exact (Forall_lookup_1 _ _ _ _ Hk E). }
  nia.
Qed.

Lemma convolved_within (k x : list Z) (sz ksz p M : Z) :
  0 ≤ ksz → 0 ≤ p < sz → (∀ j, 0 ≤ j < sz → 0 ≤ elem x j ≤ M) → 0 ≤ M ≤ 255 →
  Forall (λ w, 0 ≤ w) k → sum_below ksz (elem k) ≤ 256 →
  0 ≤ convolved k x sz ksz p ≤ M.
Proof.
  intros Hksz Hp Hx HM Hk Hsum. unfold convolved. case_decide as Hin; [|apply Hx; lia].
  assert (0 ≤ ksz `quot` 2 ∧ 2 * (ksz `quot` 2) ≤ ksz)
    by (Z.to_euclidean_division_equations; lia).
  pose proof (weighted_sum_within k x (p - ksz `quot` 2) M (Z.to_nat ksz)
                ltac:(intros; apply Hx; lia) ltac:(lia) Hk) as Hw.
  fold (sum_below ksz (elem k)) in Hw.
  set (s := weighted_sum k x (p - ksz `quot` 2) (Z.to_nat ksz)) in *.
  assert (0 ≤ s ≤ 256 * M) as Hs by nia.
  rewrite u32_small by (pow_consts; lia).
  rewrite Z.shiftr_div_pow2 by lia. change (2 ^ 8) with 256.
  assert (0 ≤ s `div` 256 ≤ M) as Hq
    by (split; [apply Z.div_pos; lia|apply Z.div_le_upper_bound; lia]).
  by rewrite u8_small by lia.
Qed.

(** X27: with non-negative weights whose sum is at most 256 (a normalised
    kernel), [convolve_2D] never brightens: when every pixel of the Buffer
    is at most [M], so is every pixel of the result. *)
Theorem convolve_2D_bounded im k ksz M :
  wf_image im → ksz = Z.of_nat (length k) → Z.land ksz 1 = 1 →
  ksz `quot` 2 < width im → ksz `quot` 2 < height im →
  (∀ x y, 0 ≤ x < width im → 0 ≤ y < height im → pixel_at im x y ≤ M) → 0 ≤ M ≤ 255 →
  Forall (λ w, 0 ≤ w) k → sum_below ksz (elem k) ≤ 256 →
  ∃ im', image_u8_convolve_2D im k ksz = Ok im' ∧
         ∀ x y, 0 ≤ x < width im → 0 ≤ y < height im →
           ∃ v, pixel im' x y = Some v ∧ 0 ≤ v ≤ M.
Proof.
  intros Hwf Hksz Hodd Hhw Hhh Hpix HM Hk Hsum.
  destruct (convolve_2D_spec im k ksz Hwf Hksz Hodd Hhw Hhh)
    as (im' & Hrun & _ & _ & _ & _ & Hres).
  exists im'. split; [done|]. intros x y Hx Hy.
  assert (0 ≤ width im ≤ stride im ∧ 0 ≤ height im) as [Hw Hh] by (destruct Hwf; lia).
  rewrite Hres by lia. rewrite decide_True by lia. eexists. split; [reflexivity|].
  assert (∀ x' y', 0 ≤ x' < width im → 0 ≤ y' < height im →
            0 ≤ row_pass im k ksz x' y' ≤ M) as Hrow.
  { intros x' y' Hx' Hy'. apply convolved_within; try done; [lia|].
    intros j Hj. assert (0 ≤ y' * stride im) by nia.
    rewrite elem_drop by lia. fold (pixel_at im j y').
    pose proof (pixel_at_byte im j y' Hwf). specialize (Hpix j y' Hj Hy'). lia. }
  apply convolved_within; try done; [lia|].
  intros j Hj. rewrite elem_column by done. by apply Hrow.
Qed.

Lemma convolve_2D_bounded_witness :
  ∃ im', image_u8_convolve_2D ramp [64; 128; 64] 3 = Ok im' ∧
         ∀ x y, 0 ≤ x < width ramp → 0 ≤ y < height ramp →
           ∃ v, pixel im' x y = Some v ∧ 0 ≤ v ≤ 200.
Proof.
  apply (convolve_2D_bounded ramp [64; 128; 64] 3 200);
    [concrete_wf|done|done|vm_compute; reflexivity|vm_compute; reflexivity| |lia
    |repeat constructor; lia|vm_compute; discriminate].
  intros x y Hx Hy. cbn [width height ramp] in Hx, Hy.
  small_cases y 0 4; small_cases x 0 4; vm_compute; discriminate.
Defined.

(** ** write_pnm: what a short write leaves behind *)

Lemma take_min_length {A : Type} (l : list A) (n : nat) :
  take (length l `min` n) l = take n l.
Proof.
  destruct (decide (n ≤ length l)%nat) as [Hle|Hgt].
  - by rewrite Nat.min_r by done.
  - rewrite Nat.min_l by lia. by rewrite !take_ge by lia.
Qed.

Lemma write_rows_short env im (j : nat) :
  wf_image im →
  ∀ (n : nat) y f,
    0 ≤ y → y + Z.of_nat n ≤ height im → (j < n)%nat →
    (∀ i, (i < j)%nat → (Z.to_nat (width im) ≤ accepts env (calls f + i))%nat) →
    (accepts env (calls f + j) < Z.to_nat (width im))%nat →
    write_rows env im n y f =
      Ok (-2, {| calls := S (calls f + j);
                 content := content f ++ concat (rows_from im j y) ++
                            take (accepts env (calls f + j))
                              (image_row im (y + Z.of_nat j)) |}).
Proof.
  intros Hwf. induction j as [|j IH]; intros n y f Hy Hn Hj Hfull Hshort.
  - destruct n as [|n]; [lia|]. cbn [write_rows rows_from concat].
    destruct (load_row im y Hwf ltac:(lia)) as [-> Hrow]. rewrite res_bind_Ok.
    rewrite Nat.add_0_r in *. rewrite Z.add_0_r.
    unfold fwrite. rewrite Hrow. rewrite Nat.min_r by lia.
    rewrite bool_decide_eq_true_2 by lia. done.
  - destruct n as [|n]; [lia|]. cbn [write_rows rows_from concat].
    destruct (load_row im y Hwf ltac:(lia)) as [-> Hrow]. rewrite res_bind_Ok.
    pose proof (Hfull O ltac:(lia)) as H0. rewrite Nat.add_0_r in H0.
    unfold fwrite. rewrite Hrow. rewrite Nat.min_l by lia.
    assert (0 ≤ width im) as Hw by (by destruct Hwf).
    rewrite bool_decide_eq_false_2 by lia.
    rewrite (IH n (y + 1)); cbn [calls content]; try lia.
    + rewrite take_ge by lia.
      replace (S (calls f) + j)%nat with (calls f + S j)%nat by lia.
      replace (y + 1 + Z.of_nat j) with (y + Z.of_nat (S j)) by lia.
      by rewrite <- !app_assoc.
    + intros i Hi. specialize (Hfull (S i) ltac:(lia)).
      by replace (S (calls f) + i)%nat with (calls f + S i)%nat by lia.
    + by replace (S (calls f) + j)%nat with (calls f + S j)%nat by lia.
Qed.

(** X28: when the rows before row [y0] are written whole and the write of
    row [y0] is cut short, [write_pnm] returns -2 and stops.  The stream has
    then taken what it took of the header (the lines [P5], width and height
    as decimal numerals, [255]), the rows before [y0] and the bytes of row
    [y0] that it took; no later row is attempted ([y0 + 2] output calls were
    made), and the file is what the medium kept of these bytes. *)
Theorem write_pnm_short_content env im y0 :
  wf_image im → fopen_succeeds env = true → 0 ≤ y0 < height im →
  (∀ y, 0 ≤ y < y0 → (Z.to_nat (width im) ≤ accepts env (S (Z.to_nat y)))%nat) →
  (accepts env (S (Z.to_nat y0)) < Z.to_nat (width im))%nat →
  ∃ W H taken,
    decimal_numeral W (width im) ∧ decimal_numeral H (height im) ∧
    taken = take (accepts env 0)
              ([80; 53; 10] ++ W ++ [32] ++ H ++ [10; 50; 53; 53; 10]) ++
            concat (rows_from im (Z.to_nat y0) 0) ++
            take (accepts env (S (Z.to_nat y0))) (image_row im y0) ∧
    image_u8_write_pnm env im =
      Ok (-2, Some ({| calls := Z.to_nat y0 + 2; content := taken |},
                    flushed env taken)).
Proof.
  intros Hwf Hopen Hy0 Hfull Hshort.
  assert (0 ≤ width im ∧ 0 ≤ height im) as [Hw Hh] by (destruct Hwf; lia).
  eexists (bytes_of (decimal (width im))), (bytes_of (decimal (height im))), _.
  split_and!; [by apply decimal_numeral_decimal|by apply decimal_numeral_decimal
              |reflexivity|].
  unfold image_u8_write_pnm. rewrite Hopen. unfold fwrite at 1. cbn [calls content].
  rewrite (write_rows_short env im (Z.to_nat y0) Hwf); cbn [calls content]; try lia.
  - rewrite res_bind_Ok. rewrite take_min_length, app_nil_l.
    replace (0 + Z.of_nat (Z.to_nat y0)) with y0 by lia.
    replace (S (1 + Z.to_nat y0)) with (Z.to_nat y0 + 2)%nat by lia.
    unfold fclose. cbn [content]. by rewrite pnm_header_bytes.
  - intros i Hi. specialize (Hfull (Z.of_nat i) ltac:(lia)).
    by rewrite Nat2Z.id in Hfull.
  - done.
Qed.

Lemma write_pnm_short_content_witness :
  ∃ W H taken,
    decimal_numeral W (width sample_image) ∧ decimal_numeral H (height sample_image) ∧
    taken = take (accepts short_at_row_1 0)
              ([80; 53; 10] ++ W ++ [32] ++ H ++ [10; 50; 53; 53; 10]) ++
            concat (rows_from sample_image (Z.to_nat 1) 0) ++
            take (accepts short_at_row_1 (S (Z.to_nat 1))) (image_row sample_image 1) ∧
    image_u8_write_pnm short_at_row_1 sample_image =
      Ok (-2, Some ({| calls := Z.to_nat 1 + 2; content := taken |},
                    flushed short_at_row_1 taken)).
Proof.
  apply (write_pnm_short_content short_at_row_1 sample_image 1 sample_image_wf);
    [done|cbn; lia| |vm_compute; lia].
  intros y Hy. assert (y = 0) as -> by lia. vm_compute. lia.
Defined.

(** ** darken, repeated *)

Lemma darken_spec im :
  wf_image im →
  ∃ im', image_u8_darken im = Ok im' ∧ wf_image im' ∧
         width im' = width im ∧ height im' = height im ∧ stride im' = stride im ∧
         ∀ x y, 0 ≤ x < stride im → 0 ≤ y < height im →
           pixel im' x y =
             Some (if decide (x < width im) then pixel_at im x y `quot` 2
                   else pixel_at im x y).
Proof.
  intros Hwf.
  destruct (scan_result (width im) (stride im) (height im) (buf im)
              ltac:(destruct Hwf; lia) ltac:(by destruct Hwf)
              (λ _ _ v, u8 (v `quot` 2)) (darken_pixel im)
              0 0 (Z.to_nat (width im)) (Z.to_nat (height im)))
    as (b & Hrun & Hl & Hb).
  - intros b x y v Hx Hy [Hxi Hyi] Hlen Hv.
    destruct (wf_index im x y Hwf ltac:(destruct Hwf; lia) Hyi) as (Hi & Hs & _).
    unfold darken_pixel. rewrite Hs.
    rewrite (load_Ok _ _ _ v) by (done || lia). rewrite res_bind_Ok.
    apply store_Ok. rewrite Hlen. lia.
  - intros b x y Hx Hy Hout. exfalso. apply Hout.
    destruct Hwf. unfold in_image. lia.
  - assert (∀ x y, 0 ≤ x < stride im → 0 ≤ y < height im →
              b !! Z.to_nat (y * stride im + x) =
                Some (if decide (x < width im) then pixel_at im x y `quot` 2
                      else pixel_at im x y)) as Hpix.
    { intros x y Hx Hy. rewrite Hb by done.
      pose proof (index_in_range (stride im) (height im) x y Hx Hy) as Hi.
      rewrite <- (elem_lookup (buf im) (y * stride im + x)) by (destruct Hwf; lia).
      fold (pixel_at im x y). pose proof (pixel_at_byte im x y Hwf) as Hv.
      destruct (decide (x < width im)) as [Hlt|Hge].
      - rewrite decide_True by lia. cbn. f_equal. apply u8_small.
        Z.to_euclidean_division_equations; lia.
      - by rewrite decide_False by lia. }
    exists (set_buf im b). split_and!; try done.
    + assert (for_upto (height im) (λ y, for_upto (width im) (darken_pixel im y))
                (buf im) = Ok b) as Hrun' by exact Hrun.
      unfold image_u8_darken. by rewrite Hrun'.
    + pose proof Hwf as [? ? ? ? ? ? ?].
      split; cbn [set_buf width height stride buf]; try done; [by rewrite Hl|].
      apply (Forall_by_pixels _ (stride im) (height im)); [lia|by rewrite Hl|].
      intros x y v Hx Hy. rewrite Hpix by done. intros [= <-].
      pose proof (pixel_at_byte im x y Hwf) as Hv.
      case_decide; [Z.to_euclidean_division_equations; lia|lia].
Qed.

(** X29: [darken] keeps a Buffer well formed, so it can be applied again:
    darkening twice divides every pixel by 4 and still leaves the padding
    unchanged. *)
Theorem darken_twice im :
  wf_image im →
  ∃ im', (im1 ← image_u8_darken im; image_u8_darken im1) = Ok im' ∧ wf_image im' ∧
         ∀ x y, 0 ≤ x < stride im → 0 ≤ y < height im →
           pixel im' x y =
             if decide (x < width im) then (λ v, v `quot` 4) <$> pixel im x y
             else pixel im x y.
Proof.
  intros Hwf.
  destruct (darken_spec im Hwf) as (im1 & Hrun1 & Hwf1 & Hw1 & Hh1 & Hs1 & Hp1).
  destruct (darken_spec im1 Hwf1) as (im2 & Hrun2 & Hwf2 & Hw2 & Hh2 & Hs2 & Hp2).
  exists im2. split_and!; [by rewrite Hrun1|done|].
  intros x y Hx Hy. rewrite Hp2 by (rewrite ?Hs1, ?Hh1; done).
  assert (pixel_at im1 x y = if decide (x < width im) then pixel_at im x y `quot` 2
                             else pixel_at im x y) as ->.
  { apply elem_Some. exact (Hp1 x y Hx Hy). }
  pose proof (index_in_range (stride im) (height im) x y Hx Hy) as Hi.
  unfold pixel. rewrite <- (elem_lookup (buf im) (y * stride im + x))
    by (destruct Hwf; lia).
  fold (pixel_at im x y). pose proof (pixel_at_byte im x y Hwf) as Hv.
  rewrite Hw1. case_decide; [|done]. cbn. f_equal.
  Z.to_euclidean_division_equations; lia.
Qed.

Lemma darken_twice_witness :
  ∃ im', (im1 ← image_u8_darken sample_image; image_u8_darken im1) = Ok im' ∧
         wf_image im' ∧
         ∀ x y, 0 ≤ x < stride sample_image → 0 ≤ y < height sample_image →
           pixel im' x y =
             if decide (x < width sample_image)
             then (λ v, v `quot` 4) <$> pixel sample_image x y
             else pixel sample_image x y.
Proof. exact (darken_twice sample_image sample_image_wf). Defined.

(** ** fill_line_max, repeated *)

Lemma lut_at_byte lut i : lut_ok lut → 0 ≤ lut_at lut i < 256.
Proof.
  intros [_ Hb]. unfold lut_at.
  destruct (values lut !! Z.to_nat i) as [v|] eqn:Hv; cbn; [|lia].
  exact (Forall_lookup_1 _ _ _ _ Hb Hv).
Qed.

Lemma fill_line_max_spec im lut g :
  wf_image im → 0 < width im → 0 < height im → lut_ok lut →
  (∀ x y, 0 ≤ x < width im → 0 ≤ y < height im → 0 ≤ fill_index g x y) →
  ∃ im', image_u8_fill_line_max im lut g = Ok im' ∧ wf_image im' ∧
         width im' = width im ∧ height im' = height im ∧ stride im' = stride im ∧
         ∀ x y, 0 ≤ x < stride im → 0 ≤ y < height im →
           pixel im' x y =
             Some (if decide (fill_box im g x y ∧ fill_index g x y < nvalues lut)
                   then Z.max (pixel_at im x y) (lut_at lut (fill_index g x y))
                   else pixel_at im x y).
Proof.
  intros Hwf Hwpos Hhpos Hlutok Hidx. pose proof Hlutok as [Hlut _].
  assert (Hsw : s32 (width im - 1) = width im - 1).
  { destruct Hwf. apply s32_small. pow_consts. nia. }
  assert (Hsh : s32 (height im - 1) = height im - 1).
  { destruct Hwf. apply s32_small. pow_consts. nia. }
  set (ix0 := iclamp (fill_x0 g) 0 (s32 (width im - 1))).
  set (ix1 := iclamp (fill_x1 g) 0 (s32 (width im - 1))).
  set (iy0 := iclamp (fill_y0 g) 0 (s32 (height im - 1))).
  set (iy1 := iclamp (fill_y1 g) 0 (s32 (height im - 1))).
  assert (Hbx : 0 ≤ ix0 < width im ∧ 0 ≤ ix1 < width im)
    by (unfold ix0, ix1, iclamp; rewrite Hsw; lia).
  assert (Hby : 0 ≤ iy0 < height im ∧ 0 ≤ iy1 < height im)
    by (unfold iy0, iy1, iclamp; rewrite Hsh; lia).
  set (upd := λ x y old : Z,
         if decide (fill_index g x y < nvalues lut)
         then Z.max old (lut_at lut (fill_index g x y)) else old).
  destruct (scan_result (width im) (stride im) (height im) (buf im)
              ltac:(destruct Hwf; lia) ltac:(by destruct Hwf)
              upd (fill_line_max_pixel im lut g)
              ix0 iy0 (Z.to_nat (ix1 - ix0 + 1)) (Z.to_nat (iy1 - iy0 + 1)))
    as (b & Hrun & Hl & Hb).
  - intros b x y old Hx Hy [Hxi Hyi] Hlen Hold.
    destruct (wf_index im x y Hwf ltac:(destruct Hwf; lia) Hyi) as (Hi & _ & Hs).
    unfold fill_line_max_pixel, upd. rewrite Hs.
    specialize (Hidx x y Hxi Hyi).
    case_bool_decide as Hn.
    { rewrite decide_False by lia. by rewrite list_insert_id. }
    rewrite decide_True by lia.
    destruct (lookup_lt_is_Some_2 (values lut) (Z.to_nat (fill_index g x y))
                ltac:(lia)) as [lv Hlv].
    rewrite (load_Ok Table (values lut) _ lv) by done. rewrite res_bind_Ok.
    rewrite (load_Ok Dest b _ old) by (done || lia). rewrite res_bind_Ok.
    unfold lut_at. rewrite Hlv. cbn [default from_option]. unfold id.
    case_bool_decide as Hgt.
    + rewrite store_Ok by (rewrite Hlen; lia). by rewrite Z.max_r by lia.
    + rewrite Z.max_l by lia. by rewrite list_insert_id.
  - intros b x y Hx Hy Hout. exfalso. apply Hout. unfold in_image. lia.
  - assert (∀ x y, 0 ≤ x < stride im → 0 ≤ y < height im →
              b !! Z.to_nat (y * stride im + x) =
                Some (if decide (fill_box im g x y ∧ fill_index g x y < nvalues lut)
                      then Z.max (pixel_at im x y) (lut_at lut (fill_index g x y))
                      else pixel_at im x y)) as Hpix.
    { intros x y Hx Hy. rewrite Hb by done.
      pose proof (index_in_range (stride im) (height im) x y Hx Hy) as Hi.
      rewrite <- (elem_lookup (buf im) (y * stride im + x)) by (destruct Hwf; lia).
      fold (pixel_at im x y). unfold upd, fill_box. fold ix0 ix1 iy0 iy1.
      clear Hb Hrun.
      repeat case_decide; cbn [fmap option_fmap option_map]; try done;
        exfalso; lia. }
    exists (set_buf im b). split_and!; try done.
    + unfold image_u8_fill_line_max. fold ix0 ix1 iy0 iy1. by rewrite Hrun.
    + pose proof Hwf as [? ? ? ? ? ? ?].
      split; cbn [set_buf width height stride buf]; try done; [by rewrite Hl|].
      apply (Forall_by_pixels _ (stride im) (height im)); [lia|by rewrite Hl|].
      intros x y v Hx Hy. rewrite Hpix by done. intros [= <-].
      pose proof (pixel_at_byte im x y Hwf) as Hv.
      pose proof (lut_at_byte lut (fill_index g x y) Hlutok) as Hlv.
      case_decide; lia.
Qed.

Lemma fill_box_same im im' g x y :
  width im' = width im → height im' = height im →
  fill_box im' g x y ↔ fill_box im g x y.
Proof. intros Hw Hh. unfold fill_box. by rewrite Hw, Hh. Qed.

(** X30: on a non-empty well-formed Buffer, with two tables that hold at
    least [nvalues] entries, all bytes, and indices that are non-negative on
    the image, two fills can be done in either order: [fill_line_max] keeps
    the Buffer well formed, and filling with one table and line and then
    with the other gives the same bytes as filling in the opposite order.
    (On an empty Buffer or with a negative index the call leaves the
    arrays.) *)
Theorem fill_line_max_commute im lut1 g1 lut2 g2 :
  wf_image im → 0 < width im → 0 < height im → lut_ok lut1 → lut_ok lut2 →
  (∀ x y, 0 ≤ x < width im → 0 ≤ y < height im →
     0 ≤ fill_index g1 x y ∧ 0 ≤ fill_index g2 x y) →
  ∃ a b,
    (im1 ← image_u8_fill_line_max im lut1 g1; image_u8_fill_line_max im1 lut2 g2) = Ok a ∧
    (im2 ← image_u8_fill_line_max im lut2 g2; image_u8_fill_line_max im2 lut1 g1) = Ok b ∧
    wf_image a ∧ wf_image b ∧
    ∀ x y, 0 ≤ x < stride im → 0 ≤ y < height im → pixel a x y = pixel b x y.
Proof.
  intros Hwf Hw Hh Hl1 Hl2 Hidx.
  destruct (fill_line_max_spec im lut1 g1 Hwf Hw Hh Hl1 ltac:(intros; by apply Hidx))
    as (im1 & Hrun1 & Hwf1 & Hw1 & Hh1 & Hs1 & Hp1).
  destruct (fill_line_max_spec im lut2 g2 Hwf Hw Hh Hl2 ltac:(intros; by apply Hidx))
    as (im2 & Hrun2 & Hwf2 & Hw2 & Hh2 & Hs2 & Hp2).
  destruct (fill_line_max_spec im1 lut2 g2 Hwf1 ltac:(lia) ltac:(lia) Hl2)
    as (a & Hruna & Hwfa & Hwa & Hha & Hsa & Hpa).
  { intros x y Hx Hy. apply Hidx; lia. }
  destruct (fill_line_max_spec im2 lut1 g1 Hwf2 ltac:(lia) ltac:(lia) Hl1)
    as (b & Hrunb & Hwfb & Hwb & Hhb & Hsb & Hpb).
  { intros x y Hx Hy. apply Hidx; lia. }
  exists a, b. split_and!; try done; [by rewrite Hrun1|by rewrite Hrun2|].
  intros x y Hx Hy.
  rewrite Hpa, Hpb by (rewrite ?Hs1, ?Hs2, ?Hh1, ?Hh2; done).
  rewrite (elem_Some _ _ _ (Hp1 x y Hx Hy) : pixel_at im1 x y = _).
  rewrite (elem_Some _ _ _ (Hp2 x y Hx Hy) : pixel_at im2 x y = _).
  assert (fill_box im1 g2 x y ∧ fill_index g2 x y < nvalues lut2
          ↔ fill_box im g2 x y ∧ fill_index g2 x y < nvalues lut2) as E1
    by (by rewrite (fill_box_same im im1)).
  assert (fill_box im2 g1 x y ∧ fill_index g1 x y < nvalues lut1
          ↔ fill_box im g1 x y ∧ fill_index g1 x y < nvalues lut1) as E2
    by (by rewrite (fill_box_same im im2)).
  rewrite (decide_ext _ _ _ _ E1), (decide_ext _ _ _ _ E2).
  clear. f_equal. repeat case_decide; lia.
Qed.

Lemma fill_line_max_commute_witness :
  ∃ a b,
    (im1 ← image_u8_fill_line_max sample_image sample_lut sample_fill;
     image_u8_fill_line_max im1 second_lut second_fill) = Ok a ∧
    (im2 ← image_u8_fill_line_max sample_image second_lut second_fill;
     image_u8_fill_line_max im2 sample_lut sample_fill) = Ok b ∧
    wf_image a ∧ wf_image b ∧
    ∀ x y, 0 ≤ x < stride sample_image → 0 ≤ y < height sample_image →
      pixel a x y = pixel b x y.
Proof.
  apply (fill_line_max_commute sample_image sample_lut sample_fill second_lut
           second_fill sample_image_wf);
    [cbn; lia|cbn; lia
    |split; [cbn; lia|repeat constructor; lia]
    |split; [cbn; lia|repeat constructor; lia]
    |intros x y Hx Hy; cbn in *; lia].
Defined.
